(** * Turbopack ECMAScript runtime: shared runtime utilities

    A shallow embedding of
    [crates/turbopack-ecmascript-runtime/js/src/shared/runtime-utils.ts]
    and the properties of its export interop layer, import bridge,
    lookup helper and async dependency resolver.

    JavaScript objects live in a heap of cells addressed by location;
    every function of the runtime becomes a state-passing function on
    [State].  Functions whose JavaScript counterpart can recurse without
    bound (property reads through getters, proxies and prototype chains)
    take a [fuel] argument and return [None] when it runs out. *)

From stdpp Require Import gmap strings list fin_maps pretty.
From Stdlib Require Import ZArith Lia.

Open Scope string_scope.
Open Scope nat_scope.
Open Scope list_scope.

(** ** Values *)

Abbreviation loc := nat (only parsing).
Abbreviation qid := nat (only parsing).   (* index of an [AsyncQueue] *)
Abbreviation fid := nat (only parsing).   (* index of an [AsyncQueueFn] *)
Abbreviation sid := nat (only parsing).   (* index of a [Set<AsyncQueue>] *)
Abbreviation aid := nat (only parsing).   (* index of a re-exported-objects array *)
Abbreviation iid := nat (only parsing).   (* index of an [asyncModule] activation *)
Abbreviation ModuleId := string (only parsing).

(** Numbers are restricted to integers; none of the modelled code does
    arithmetic on export values. *)
Inductive value :=
  | VUndefined
  | VNull
  | VBool (b : bool)
  | VNum (n : Z)
  | VStr (s : string)
  | VObj (l : loc).

Global Instance value_eq_dec : EqDecision value.
Proof. solve_decision. Defined.

(** The only well-known symbol the runtime uses as a property key.  The
    private symbols ([REEXPORTED_OBJECTS], [turbopackQueues],
    [turbopackExports], [turbopackError]) are never visible outside the
    runtime and are modelled as record fields. *)
Inductive symbol := SymToStringTag.

Global Instance symbol_eq_dec : EqDecision symbol.
Proof. solve_decision. Defined.

Inductive PropertyKey :=
  | KStr (s : string)
  | KSym (y : symbol).

Global Instance PropertyKey_eq_dec : EqDecision PropertyKey.
Proof. solve_decision. Defined.

Coercion KStr : string >-> PropertyKey.

(** What a JavaScript [throw] carries: a thrown value, or a [TypeError]
    raised by the engine itself. *)
Inductive exn :=
  | Thrown (v : value)
  | TypeError.

Global Instance exn_eq_dec : EqDecision exn.
Proof. solve_decision. Defined.

Inductive completion (A : Type) :=
  | Normal (a : A)
  | Throw (e : exn).
Arguments Normal {A} a.
Arguments Throw {A} e.

(** JavaScript truthiness, [ToBoolean]. *)
Definition truthy (v : value) : bool :=
  match v with
  | VUndefined | VNull => false
  | VBool b => b
  | VNum n => negb (n =? 0)%Z
  | VStr s => negb (String.eqb s "")
  | VObj _ => true
  end.

(** ** Heap cells *)

(** The getter closures the runtime creates:
    [createGetter(obj, key)] is [() => obj[key]], and the [default]
    getter of [interopEsm] is [() => raw]. *)
Inductive Getter :=
  | CreateGetter (obj : value) (key : PropertyKey)
  | RawGetter (raw : value).

Global Instance Getter_eq_dec : EqDecision Getter.
Proof. solve_decision. Defined.

Inductive Property :=
  | DataProp (v : value) (enumerable : bool)
  | AccessorProp (get : Getter) (enumerable : bool).

Global Instance Property_eq_dec : EqDecision Property.
Proof. solve_decision. Defined.

(** An ordinary object (or an ordinary function when [callable]); [props]
    is kept in the order [Reflect.ownKeys] reports, string keys before
    symbol keys.  The ascending order of array-index-like names is not
    modelled. *)
Record Object := {
  proto : value;
  callable : bool;
  props : list (PropertyKey * Property)
}.

Inductive PromiseState :=
  | Pending
  | Fulfilled (v : value)
  | Rejected (e : value).

Global Instance PromiseState_eq_dec : EqDecision PromiseState.
Proof. solve_decision. Defined.

(** The callbacks the runtime attaches to promises with [then]. *)
Inductive Reaction :=
  | ReactThrow (e : value) (derived : loc)
      (* moduleLookup: [Promise.resolve().then(() => { throw e })] *)
  | ReactWrapDep (obj : loc) (queue : qid).
      (* wrapDeps: [dep.then(res => ..., err => ...)] *)

(** The three closures stored under [turbopackQueues]. *)
Inductive QueuesFn :=
  | QueuesNone
      (* wrapDeps, plain value: [() => {}] *)
  | QueuesPrivate (queue : qid)
      (* wrapDeps, promise: [fn => fn(queue)] *)
  | QueuesModule (queue : option qid) (depQueues : sid).
      (* asyncModule: [fn => { queue && fn(queue); depQueues.forEach(fn); ... }] *)

(** [AsyncModuleExt]; an absent [turbopackError] reads as [undefined]. *)
Record AsyncModuleExt := {
  turbopackQueues : QueuesFn;
  turbopackExports : value;
  turbopackError : value
}.

Inductive Cell :=
  | CObject (o : Object)
  | CProxy (target : loc) (proxy_callable : bool) (reexportedObjects : aid)
      (* the proxy of ensureDynamicExports, with the array its handler
         captured; a proxy is callable when its target was at creation *)
  | CPromise (state : PromiseState) (reactions : list Reaction)
             (ext : option AsyncModuleExt)
      (* a native promise; [ext] is set on the promise of an async module *)
  | CWrapper (ext : AsyncModuleExt)
      (* the plain objects wrapDeps creates *)
  | CGetResult (currentDeps : list loc)
      (* the arrow function [getResult] of handleAsyncDependencies *)
  | CArray (elems : list value).
      (* the array [getResult()] returns *)

(** ** Module records and resolver structures *)

(** [BaseModule]; an unset [namespaceObject] reads as [undefined]. *)
Record Module := {
  exports : value;
  error : value;
  loaded : bool;
  module_id : ModuleId;
  children : list ModuleId;
  parents : list ModuleId;
  namespaceObject : value;
  REEXPORTED_OBJECTS : option aid
}.

(** [AsyncQueue = AsyncQueueFn[] & { resolved: boolean }]. *)
Record AsyncQueue := {
  resolved : bool;
  entries : list fid
}.

(** [AsyncQueueFn = (() => void) & { queueCount: number }]; the function
    body is [() => resolve(getResult)], [fn_promise] being the promise
    that [resolve] settles and [fn_getResult] the function it passes. *)
Record AsyncQueueFn := {
  queueCount : Z;
  fn_promise : loc;
  fn_getResult : loc
}.

(** The variables one call of [asyncModule] binds and its closures
    [handleAsyncDependencies] and [asyncResult] capture.  [inst_running]
    is the control point of that call: true until [body(...)] has
    returned. *)
Record AsyncInstance := {
  inst_queue : option qid;
  inst_depQueues : sid;
  inst_promise : loc;
  inst_exports : value;
  inst_running : bool
}.

Record State := {
  heap : list Cell;
  arrays : list (list value);
  modules : gmap ModuleId Module;
  queues : list AsyncQueue;
  fns : list AsyncQueueFn;
  sets : list (list qid);
  instances : list AsyncInstance;
  jobs : list (Reaction * PromiseState);   (* the microtask queue *)
  called : list fid                         (* log of the calls [fn()] *)
}.

Definition with_heap (h : list Cell) (st : State) : State :=
  {| heap := h; arrays := arrays st; modules := modules st;
     queues := queues st; fns := fns st; sets := sets st;
     instances := instances st; jobs := jobs st; called := called st |}.

Definition with_arrays (a : list (list value)) (st : State) : State :=
  {| heap := heap st; arrays := a; modules := modules st;
     queues := queues st; fns := fns st; sets := sets st;
     instances := instances st; jobs := jobs st; called := called st |}.

Definition with_modules (m : gmap ModuleId Module) (st : State) : State :=
  {| heap := heap st; arrays := arrays st; modules := m;
     queues := queues st; fns := fns st; sets := sets st;
     instances := instances st; jobs := jobs st; called := called st |}.

Definition with_queues (q : list AsyncQueue) (st : State) : State :=
  {| heap := heap st; arrays := arrays st; modules := modules st;
     queues := q; fns := fns st; sets := sets st;
     instances := instances st; jobs := jobs st; called := called st |}.

Definition with_fns (f : list AsyncQueueFn) (st : State) : State :=
  {| heap := heap st; arrays := arrays st; modules := modules st;
     queues := queues st; fns := f; sets := sets st;
     instances := instances st; jobs := jobs st; called := called st |}.

Definition with_sets (s : list (list qid)) (st : State) : State :=
  {| heap := heap st; arrays := arrays st; modules := modules st;
     queues := queues st; fns := fns st; sets := s;
     instances := instances st; jobs := jobs st; called := called st |}.

Definition with_instances (i : list AsyncInstance) (st : State) : State :=
  {| heap := heap st; arrays := arrays st; modules := modules st;
     queues := queues st; fns := fns st; sets := sets st;
     instances := i; jobs := jobs st; called := called st |}.

Definition with_jobs (j : list (Reaction * PromiseState)) (st : State) : State :=
  {| heap := heap st; arrays := arrays st; modules := modules st;
     queues := queues st; fns := fns st; sets := sets st;
     instances := instances st; jobs := j; called := called st |}.

Definition with_called (c : list fid) (st : State) : State :=
  {| heap := heap st; arrays := arrays st; modules := modules st;
     queues := queues st; fns := fns st; sets := sets st;
     instances := instances st; jobs := jobs st; called := c |}.

(** The intrinsic prototype objects sit at fixed locations. *)
Definition ObjectPrototype : loc := 0.
Definition ArrayPrototype : loc := 1.
Definition FunctionPrototype : loc := 2.
Definition ErrorPrototype : loc := 3.
Definition PromisePrototype : loc := 4.

Definition emptyObject (p : value) : Object :=
  {| proto := p; callable := false; props := [] |}.

Definition initialState : State :=
  {| heap := [ CObject (emptyObject VNull);
               CObject (emptyObject (VObj ObjectPrototype));
               CObject {| proto := VObj ObjectPrototype; callable := true; props := [] |};
               CObject (emptyObject (VObj ObjectPrototype));
               CObject (emptyObject (VObj ObjectPrototype)) ];
     arrays := []; modules := ∅; queues := []; fns := []; sets := [];
     instances := []; jobs := []; called := [] |}.

(** Allocation appends a cell; the new location is the old length. *)
Definition alloc (c : Cell) (st : State) : loc * State :=
  (length (heap st), with_heap (heap st ++ [c]) st).

Definition store (l : loc) (c : Cell) (st : State) : State :=
  with_heap (<[l := c]> (heap st)) st.

(** ** Own properties of a cell *)

Fixpoint lookup_prop (k : PropertyKey) (ps : list (PropertyKey * Property))
  : option Property :=
  match ps with
  | [] => None
  | (k', p) :: rest => if decide (k' = k) then Some p else lookup_prop k rest
  end.

(** The index below [n] whose decimal spelling is [s]. *)
Definition index_of_name (n : nat) (s : string) : option nat :=
  fst <$> list_find (λ i, pretty i = s) (seq 0 n).

Definition array_own (elems : list value) (k : PropertyKey) : option Property :=
  match k with
  | KStr s =>
      if decide (s = "length")
      then Some (DataProp (VNum (Z.of_nat (length elems))) false)
      else i ← index_of_name (length elems) s;
           v ← elems !! i;
           Some (DataProp v true)
  | KSym _ => None
  end.

(** Own property of a cell other than a proxy, for the keys of
    [PropertyKey].  Promises and the wrappers of wrapDeps own nothing but
    the runtime's private symbols. *)
Definition own_property (c : Cell) (k : PropertyKey) : option Property :=
  match c with
  | CObject o => lookup_prop k (props o)
  | CArray elems => array_own elems k
  | CGetResult _ =>
      if decide (k = KStr "length") then Some (DataProp (VNum 0) false)
      else if decide (k = KStr "name") then Some (DataProp (VStr "getResult") false)
      else None
  | CPromise _ _ _ | CWrapper _ | CProxy _ _ _ => None
  end.

(** [[OwnPropertyKeys]] of a cell other than a proxy; [None] where the
    answer would contain a private symbol. *)
Definition own_keys (c : Cell) : option (list PropertyKey) :=
  match c with
  | CObject o => Some (props o).*1
  | CArray elems => Some (((λ i : nat, KStr (pretty i)) <$> seq 0 (length elems)) ++ [KStr "length"])
  | CGetResult _ => Some [KStr "length"; KStr "name"]
  | CPromise _ _ None => Some []
  | CPromise _ _ (Some _) | CWrapper _ | CProxy _ _ _ => None
  end.

Definition string_keys (ks : list PropertyKey) : list string :=
  omap (λ k, match k with KStr s => Some s | KSym _ => None end) ks.

(** The own string-keyed names of a cell other than a proxy. *)
Definition own_names (c : Cell) : list string :=
  match c with
  | CObject o => string_keys (props o).*1
  | CArray elems => (pretty <$> seq 0 (length elems)) ++ ["length"]
  | CGetResult _ => ["length"; "name"]
  | CPromise _ _ _ | CWrapper _ | CProxy _ _ _ => []
  end.

Definition cell_proto (c : Cell) : value :=
  match c with
  | CObject o => proto o
  | CArray _ => VObj ArrayPrototype
  | CGetResult _ => VObj FunctionPrototype
  | CPromise _ _ _ => VObj PromisePrototype
  | CWrapper _ => VObj ObjectPrototype
  | CProxy _ _ _ => VNull
  end.

Definition cell_callable (c : Cell) : bool :=
  match c with
  | CObject o => callable o
  | CProxy _ b _ => b
  | CGetResult _ => true
  | CPromise _ _ _ | CWrapper _ | CArray _ => false
  end.

(** The [typeof] operator. *)
Definition typeof (st : State) (v : value) : string :=
  match v with
  | VUndefined => "undefined"
  | VNull => "object"
  | VBool _ => "boolean"
  | VNum _ => "number"
  | VStr _ => "string"
  | VObj l =>
      match heap st !! l with
      | Some c => if cell_callable c then "function" else "object"
      | None => "object"
      end
  end.

(** ** The handler of the dynamic-exports proxy

    [get] and [ownKeys] of the handler in [ensureDynamicExports], written
    over the [Reflect] operations they call. *)
Section ProxyHandler.
Variable hasOwn : value → PropertyKey → option (completion bool).
Variable get : value → PropertyKey → option (completion value).
Variable ownKeys : value → option (completion (list PropertyKey)).

(** [for (const obj of reexportedObjects) { const value = Reflect.get(obj, prop);
      if (value !== undefined) return value; } return undefined;] *)
Fixpoint get_from_reexported (reexported : list value) (prop : PropertyKey)
  : option (completion value) :=
  match reexported with
  | [] => Some (Normal VUndefined)
  | obj :: rest =>
      match get obj prop with
      | Some (Normal v) =>
          if decide (v = VUndefined) then get_from_reexported rest prop
          else Some (Normal v)
      | r => r
      end
  end.

Definition handler_get (reexported : list value) (target : value)
    (prop : PropertyKey) : option (completion value) :=
  match hasOwn target prop with
  | Some (Normal own) =>
      if own || bool_decide (prop = KStr "default")
             || bool_decide (prop = KStr "__esModule")
      then get target prop
      else get_from_reexported reexported prop
  | Some (Throw e) => Some (Throw e)
  | None => None
  end.

(** [if (key !== "default" && !keys.includes(key)) keys.push(key);] *)
Definition push_key (keys : list PropertyKey) (key : PropertyKey)
  : list PropertyKey :=
  if bool_decide (key ≠ KStr "default") && negb (bool_decide (key ∈ keys))
  then keys ++ [key] else keys.

Fixpoint ownKeys_from_reexported (reexported : list value)
    (keys : list PropertyKey) : option (completion (list PropertyKey)) :=
  match reexported with
  | [] => Some (Normal keys)
  | obj :: rest =>
      match ownKeys obj with
      | Some (Normal ks) => ownKeys_from_reexported rest (foldl push_key keys ks)
      | r => r
      end
  end.

Definition handler_ownKeys (reexported : list value) (target : value)
  : option (completion (list PropertyKey)) :=
  match ownKeys target with
  | Some (Normal keys) => ownKeys_from_reexported reexported keys
  | r => r
  end.
End ProxyHandler.

(** ** Reflect operations on the heap *)

Definition isSome {A} (o : option A) : bool :=
  match o with Some _ => true | None => false end.

(** [hasOwnProperty.call(o, k)].  A proxy without a
    [getOwnPropertyDescriptor] trap answers for its target. *)
Fixpoint hasOwnProperty (fuel : nat) (st : State) (o : value) (k : PropertyKey)
  {struct fuel} : option (completion bool) :=
  match o with
  | VUndefined | VNull => Some (Throw TypeError)
  | VBool _ | VNum _ => Some (Normal false)
  | VStr s =>
      Some (Normal match k with
                   | KStr name => bool_decide (name = "length")
                                  || isSome (index_of_name (String.length s) name)
                   | KSym _ => false
                   end)
  | VObj l =>
      match heap st !! l with
      | None => None
      | Some (CProxy target _ _) =>
          match fuel with
          | 0 => None
          | S n => hasOwnProperty n st (VObj target) k
          end
      | Some c => Some (Normal (isSome (own_property c k)))
      end
  end.

(** [Reflect.get(o, k)]: own property, else the prototype chain; an
    accessor runs its getter, a proxy runs [handler_get].  Reading off a
    primitive base inside a getter is outside the model. *)
Fixpoint Reflect_get (fuel : nat) (st : State) (o : value) (k : PropertyKey)
  {struct fuel} : option (completion value) :=
  match o with
  | VObj l =>
      match heap st !! l with
      | None => None
      | Some (CProxy target _ a) =>
          match fuel with
          | 0 => None
          | S n =>
              match arrays st !! a with
              | None => None
              | Some reexported =>
                  handler_get (hasOwnProperty n st) (Reflect_get n st)
                              reexported (VObj target) k
              end
          end
      | Some c =>
          match own_property c k with
          | Some (DataProp v _) => Some (Normal v)
          | Some (AccessorProp (RawGetter raw) _) => Some (Normal raw)
          | Some (AccessorProp (CreateGetter obj key) _) =>
              match obj with
              | VObj _ =>
                  match fuel with
                  | 0 => None
                  | S n => Reflect_get n st obj key
                  end
              | VUndefined | VNull => Some (Throw TypeError)
              | _ => None
              end
          | None =>
              match cell_proto c with
              | VObj p =>
                  match fuel with
                  | 0 => None
                  | S n => Reflect_get n st (VObj p) k
                  end
              | _ => Some (Normal VUndefined)
              end
          end
      end
  | _ => Some (Throw TypeError)
  end.

(** [Reflect.ownKeys(o)]; a proxy runs [handler_ownKeys].  The engine's
    checks of the trap result against non-configurable properties are
    not modelled. *)
Fixpoint Reflect_ownKeys (fuel : nat) (st : State) (o : value) {struct fuel}
  : option (completion (list PropertyKey)) :=
  match o with
  | VObj l =>
      match heap st !! l with
      | None => None
      | Some (CProxy target _ a) =>
          match fuel with
          | 0 => None
          | S n =>
              match arrays st !! a with
              | None => None
              | Some reexported =>
                  handler_ownKeys (Reflect_ownKeys n st) reexported (VObj target)
              end
          end
      | Some c => Normal <$> own_keys c
      end
  | _ => Some (Throw TypeError)
  end.

(** [Object.getOwnPropertyNames(o)]: the string keys of [[OwnPropertyKeys]]. *)
Definition getOwnPropertyNames (fuel : nat) (st : State) (o : value)
  : option (completion (list string)) :=
  match o with
  | VUndefined | VNull => Some (Throw TypeError)
  | VBool _ | VNum _ => Some (Normal [])
  | VStr s => Some (Normal ((pretty <$> seq 0 (String.length s)) ++ ["length"]))
  | VObj l =>
      match heap st !! l with
      | None => None
      | Some (CProxy _ _ _) =>
          match Reflect_ownKeys fuel st o with
          | Some (Normal ks) => Some (Normal (string_keys ks))
          | Some (Throw e) => Some (Throw e)
          | None => None
          end
      | Some c => Some (Normal (own_names c))
      end
  end.

(** [getProto = (obj) => Object.getPrototypeOf(obj)].  The prototypes of
    primitives are outside the model. *)
Fixpoint getProto (fuel : nat) (st : State) (obj : value) {struct fuel}
  : option (completion value) :=
  match obj with
  | VUndefined | VNull => Some (Throw TypeError)
  | VBool _ | VNum _ | VStr _ => None
  | VObj l =>
      match heap st !! l with
      | None => None
      | Some (CProxy target _ _) =>
          match fuel with
          | 0 => None
          | S n => getProto n st (VObj target)
          end
      | Some c => Some (Normal (cell_proto c))
      end
  end.

(** ** State-passing computations *)

Definition M (A : Type) : Type := State → option (completion A * State).

Definition ret {A} (a : A) : M A := λ st, Some (Normal a, st).
Definition throw {A} (e : exn) : M A := λ st, Some (Throw e, st).
Definition stuck {A} : M A := λ _, None.

Definition bind {A B} (m : M A) (k : A → M B) : M B :=
  λ st, match m st with
        | Some (Normal a, st') => k a st'
        | Some (Throw e, st') => Some (Throw e, st')
        | None => None
        end.

Notation "'let*' x := m 'in' k" := (bind m (λ x, k))
  (at level 10, x pattern, m at level 100, k at level 200).

(** A read-only operation as a computation. *)
Definition query {A} (r : State → option (completion A)) : M A :=
  λ st, match r st with
        | Some (Normal a) => Some (Normal a, st)
        | Some (Throw e) => Some (Throw e, st)
        | None => None
        end.

Definition modify (f : State → State) : M unit := λ st, Some (Normal tt, f st).

Definition getModule (module : ModuleId) : M Module :=
  λ st, match modules st !! module with
        | Some m => Some (Normal m, st)
        | None => None
        end.

Definition setModule (module : ModuleId) (m : Module) : M unit :=
  modify (λ st, with_modules (<[module := m]> (modules st)) st).

Definition exports_of (m : Module) : value := exports m.

Definition set_exports (v : value) (m : Module) : Module :=
  {| exports := v; error := error m; loaded := loaded m;
     module_id := module_id m; children := children m; parents := parents m;
     namespaceObject := namespaceObject m;
     REEXPORTED_OBJECTS := REEXPORTED_OBJECTS m |}.

Definition set_namespaceObject (v : value) (m : Module) : Module :=
  {| exports := exports m; error := error m; loaded := loaded m;
     module_id := module_id m; children := children m; parents := parents m;
     namespaceObject := v;
     REEXPORTED_OBJECTS := REEXPORTED_OBJECTS m |}.

Definition set_REEXPORTED_OBJECTS (a : option aid) (m : Module) : Module :=
  {| exports := exports m; error := error m; loaded := loaded m;
     module_id := module_id m; children := children m; parents := parents m;
     namespaceObject := namespaceObject m;
     REEXPORTED_OBJECTS := a |}.

(** ** Export interop layer *)

(** A new string key goes after the string keys and before the symbol
    keys; a new symbol key goes last. *)
Fixpoint insert_string_prop (kp : PropertyKey * Property)
    (ps : list (PropertyKey * Property)) : list (PropertyKey * Property) :=
  match ps with
  | [] => [kp]
  | (KSym y, q) :: rest => kp :: ps
  | x :: rest => x :: insert_string_prop kp rest
  end.

Definition add_prop (k : PropertyKey) (p : Property)
    (ps : list (PropertyKey * Property)) : list (PropertyKey * Property) :=
  match k with
  | KStr _ => insert_string_prop (k, p) ps
  | KSym _ => ps ++ [(k, p)]
  end.

(** [Object.defineProperty(obj, name, options)] for a name [obj] does not
    own yet.  A proxy without a [defineProperty] trap forwards to its
    target; only ordinary objects can receive properties in this model. *)
Fixpoint Object_defineProperty (fuel : nat) (obj : value) (name : PropertyKey)
    (options : Property) {struct fuel} : M unit :=
  match obj with
  | VObj l =>
      λ st, match heap st !! l with
            | Some (CObject o) =>
                Some (Normal tt,
                      store l (CObject {| proto := proto o; callable := callable o;
                                          props := add_prop name options (props o) |}) st)
            | Some (CProxy target _ _) =>
                match fuel with
                | 0 => None
                | S n => Object_defineProperty n (VObj target) name options st
                end
            | _ => None
            end
  | _ => throw TypeError
  end.

Definition defineProp (fuel : nat) (obj : value) (name : PropertyKey)
    (options : Property) : M unit :=
  let* own := query (λ st, hasOwnProperty fuel st obj name) in
  if negb own then Object_defineProperty fuel obj name options else ret tt.

(** [const toStringTag = typeof Symbol !== "undefined" && Symbol.toStringTag;]
    in an environment that has symbols. *)
Definition toStringTag : option symbol := Some SymToStringTag.

(** [for (const key in getters) defineProp(exports, key, { get: getters[key], enumerable: true })] *)
Fixpoint esm_getters (fuel : nat) (exports : value) (getters : list (string * Getter))
  : M unit :=
  match getters with
  | [] => ret tt
  | (key, g) :: rest =>
      let* _ := defineProp fuel exports (KStr key) (AccessorProp g true) in
      esm_getters fuel exports rest
  end.

(** Adds the getters to the exports object. *)
Definition esm (fuel : nat) (exports : value) (getters : list (string * Getter))
  : M unit :=
  let* _ := defineProp fuel exports (KStr "__esModule") (DataProp (VBool true) false) in
  let* _ := match toStringTag with
            | Some tag => defineProp fuel exports (KSym tag) (DataProp (VStr "Module") false)
            | None => ret tt
            end in
  esm_getters fuel exports getters.

(** Makes the module an ESM with exports. *)
Definition esmExport (fuel : nat) (module : ModuleId) (exports : value)
    (getters : list (string * Getter)) : M unit :=
  let* m := getModule module in
  let* _ := setModule module (set_namespaceObject (exports_of m) m) in
  esm fuel exports getters.

Definition allocCell (c : Cell) : M loc :=
  λ st, let '(l, st') := alloc c st in Some (Normal l, st').

Definition allocArray (elems : list value) : M aid :=
  λ st, Some (Normal (length (arrays st)),
              with_arrays (arrays st ++ [elems]) st).

(** [new Proxy(exports, { get, ownKeys })] with the handler of
    [ensureDynamicExports], which captured the array [reexportedObjects]. *)
Definition newProxy (exports : value) (reexportedObjects : aid) : M loc :=
  match exports with
  | VObj target =>
      let* ty := query (λ st, Some (Normal (typeof st exports))) in
      allocCell (CProxy target (bool_decide (ty = "function")) reexportedObjects)
  | _ => throw TypeError
  end.

Definition ensureDynamicExports (module : ModuleId) (exports : value) : M unit :=
  let* m := getModule module in
  match REEXPORTED_OBJECTS m with
  | Some _ => ret tt
  | None =>
      let* reexportedObjects := allocArray [] in
      let* _ := setModule module (set_REEXPORTED_OBJECTS (Some reexportedObjects) m) in
      let* proxy := newProxy exports reexportedObjects in
      let* m := getModule module in
      setModule module (set_exports (VObj proxy) (set_namespaceObject (VObj proxy) m))
  end.

(** [module[REEXPORTED_OBJECTS]!.push(object)] *)
Definition pushReexported (module : ModuleId) (object : value) : M unit :=
  let* m := getModule module in
  match REEXPORTED_OBJECTS m with
  | Some a =>
      λ st, match arrays st !! a with
            | Some objs => Some (Normal tt, with_arrays (<[a := objs ++ [object]]> (arrays st)) st)
            | None => None
            end
  | None => throw TypeError
  end.

(** Dynamically exports properties from an object. *)
Definition dynamicExport (module : ModuleId) (exports : value) (object : value)
  : M unit :=
  let* _ := ensureDynamicExports module exports in
  let* ty := query (λ st, Some (Normal (typeof st object))) in
  if bool_decide (ty = "object") && bool_decide (object ≠ VNull)
  then pushReexported module object
  else ret tt.

Definition exportValue (module : ModuleId) (v : value) : M unit :=
  let* m := getModule module in
  setModule module (set_exports v m).

Definition exportNamespace (module : ModuleId) (namespace : value) : M unit :=
  let* m := getModule module in
  setModule module (set_exports namespace (set_namespaceObject namespace m)).

Definition createGetter (obj : value) (key : PropertyKey) : Getter :=
  CreateGetter obj key.

(** Prototypes that are not expanded for exports:
    [[null, getProto({}), getProto([]), getProto(getProto)]]. *)
Definition LEAF_PROTOTYPES : list value :=
  [VNull; VObj ObjectPrototype; VObj ArrayPrototype; VObj FunctionPrototype].

(** [getters[key] = g] on the null-prototype object [getters]: an existing
    key keeps its place. *)
Fixpoint set_getter (getters : list (string * Getter)) (key : string) (g : Getter)
  : list (string * Getter) :=
  match getters with
  | [] => [(key, g)]
  | (k, g') :: rest =>
      if decide (k = key) then (k, g) :: rest else (k, g') :: set_getter rest key g
  end.

(** ["default" in getters] and friends. *)
Definition has_getter (getters : list (string * Getter)) (key : string) : bool :=
  bool_decide (key ∈ getters.*1).

(** The loop of [interopEsm]:
    [for (let current = raw;
          (typeof current === "object" || typeof current === "function")
            && !LEAF_PROTOTYPES.includes(current);
          current = getProto(current))
       for (const key of Object.getOwnPropertyNames(current))
         getters[key] = createGetter(raw, key);] *)
Fixpoint interopEsm_loop (fuel : nat) (st : State) (raw current : value)
    (getters : list (string * Getter)) {struct fuel}
  : option (completion (list (string * Getter))) :=
  if (bool_decide (typeof st current = "object")
      || bool_decide (typeof st current = "function"))
     && negb (bool_decide (current ∈ LEAF_PROTOTYPES))
  then
    match fuel with
    | 0 => None
    | S n =>
        match getOwnPropertyNames n st current with
        | Some (Normal names) =>
            let getters' :=
              foldl (λ gs key, set_getter gs key (createGetter raw (KStr key)))
                    getters names in
            match getProto n st current with
            | Some (Normal next) => interopEsm_loop n st raw next getters'
            | Some (Throw e) => Some (Throw e)
            | None => None
            end
        | Some (Throw e) => Some (Throw e)
        | None => None
        end
    end
  else Some (Normal getters).

(** [interopEsm(raw, ns, allowExportDefault)]; [allowExportDefault] is
    used for its truthiness only. *)
Definition interopEsm (fuel : nat) (raw ns : value) (allowExportDefault : value)
  : M value :=
  let* getters := query (λ st, interopEsm_loop fuel st raw raw []) in
  let getters :=
    if negb (truthy allowExportDefault && has_getter getters "default")
    then set_getter getters "default" (RawGetter raw)
    else getters in
  let* _ := esm fuel ns getters in
  ret ns.

(** ** Import bridge *)

(** Modelled from the spec: [getOrInstantiateModuleFromParent] is the
    external registry's get-or-instantiate operation; only its type is
    declared in this file.  It "must return the same record object for
    repeated calls with the same id", so a module that has a record is
    answered with that record and nothing else changes.  Instantiating a
    module that has no record yet runs a module body, which is outside
    the model. *)
Definition getOrInstantiateModuleFromParent (id : ModuleId) (sourceModule : ModuleId)
  : M ModuleId :=
  λ st, match modules st !! id with
        | Some _ => Some (Normal id, st)
        | None => None
        end.

(** [raw && raw.__esModule]; the built-in prototypes of primitives are
    taken not to define [__esModule]. *)
Definition raw_esModule (fuel : nat) (raw : value) : M value :=
  if truthy raw then
    match raw with
    | VObj _ => query (λ st, Reflect_get fuel st raw (KStr "__esModule"))
    | _ => ret VUndefined
    end
  else ret raw.

Definition esmImport (fuel : nat) (sourceModule : ModuleId) (id : ModuleId)
  : M value :=
  let* module := getOrInstantiateModuleFromParent id sourceModule in
  let* m := getModule module in
  if truthy (error m) then throw (Thrown (error m)) else
  (* any ES module has to have `module.namespaceObject` defined. *)
  if truthy (namespaceObject m) then ret (namespaceObject m) else
  let raw := exports_of m in
  let* allow := raw_esModule fuel raw in
  let* ns := allocCell (CObject (emptyObject (VObj ObjectPrototype))) in
  let* r := interopEsm fuel raw (VObj ns) allow in
  let* m := getModule module in
  let* _ := setModule module (set_namespaceObject r m) in
  ret r.

Definition commonJsRequire (sourceModule : ModuleId) (id : ModuleId) : M value :=
  let* module := getOrInstantiateModuleFromParent id sourceModule in
  let* m := getModule module in
  if truthy (error m) then throw (Thrown (error m)) else
  ret (exports_of m).

(** ** Promises and the microtask queue *)

(** Settles a pending promise and schedules its reactions; a settled
    promise stays as it is.  Resolving with a thenable is not modelled:
    [resolve(v)] fulfils with [v]. *)
Definition settlePromise (p : loc) (outcome : PromiseState) (st : State) : State :=
  match heap st !! p with
  | Some (CPromise Pending rs ext) =>
      with_jobs (jobs st ++ ((λ r, (r, outcome)) <$> rs))
                (store p (CPromise outcome [] ext) st)
  | _ => st
  end.

(** [p.then(...)] with the callbacks of reaction [r].  The [then] of a
    thenable that is no native promise is code of its author: the call is
    taken to return without running either callback, and the model has
    no later step that runs them. *)
Definition promise_then (p : loc) (r : Reaction) (st : State) : State :=
  match heap st !! p with
  | Some (CPromise Pending rs ext) => store p (CPromise Pending (rs ++ [r]) ext) st
  | Some (CPromise outcome _ _) => with_jobs (jobs st ++ [(r, outcome)]) st
  | _ => st
  end.

(** ** Lookup helper *)

(** A functor [() => any] of the lookup map. *)
Abbreviation Functor := (M value) (only parsing).

(** [new Error(message)], then [e.code = code]. *)
Definition newErrorWithCode (message code : string) : M loc :=
  allocCell (CObject {| proto := VObj ErrorPrototype; callable := false;
                        props := [(KStr "message", DataProp (VStr message) false);
                                  (KStr "code", DataProp (VStr code) true)] |}).

(** Access one entry from a mapping from name to functor. *)
Definition moduleLookup (map : gmap string Functor) (name : string)
    (returnPromise : bool) : M value :=
  match map !! name with
  | Some f => f
  | None =>
      let* e := newErrorWithCode ("Cannot find module '" +:+ name +:+ "'")
                                 "MODULE_NOT_FOUND" in
      if returnPromise then
        (* Promise.resolve().then(() => { throw e }) *)
        let* p0 := allocCell (CPromise (Fulfilled VUndefined) [] None) in
        let* p1 := allocCell (CPromise Pending [] None) in
        let* _ := modify (promise_then p0 (ReactThrow (VObj e) p1)) in
        ret (VObj p1)
      else throw (Thrown (VObj e))
  end.

(** ** Async dependency resolver *)

Definition set_queueCount (n : Z) (fn : AsyncQueueFn) : AsyncQueueFn :=
  {| queueCount := n; fn_promise := fn_promise fn; fn_getResult := fn_getResult fn |}.

Definition update_fn (f : fid) (g : AsyncQueueFn → AsyncQueueFn) (st : State) : State :=
  with_fns (alter g f (fns st)) st.

Definition update_queue (q : qid) (g : AsyncQueue → AsyncQueue) (st : State) : State :=
  with_queues (alter g q (queues st)) st.

(** [fn()], that is [resolve(getResult)]; the call is logged. *)
Definition call_fn (f : fid) (st : State) : State :=
  match fns st !! f with
  | Some fn =>
      settlePromise (fn_promise fn) (Fulfilled (VObj (fn_getResult fn)))
                    (with_called (called st ++ [f]) st)
  | None => st
  end.

(** [fn.queueCount--] *)
Definition decrement_fn (f : fid) (st : State) : State :=
  update_fn f (λ fn, set_queueCount (queueCount fn - 1) fn) st.

(** [fn.queueCount-- ? fn.queueCount++ : fn()] *)
Definition fire_fn (f : fid) (st : State) : State :=
  match fns st !! f with
  | Some fn =>
      let st' := decrement_fn f st in
      if (queueCount fn =? 0)%Z then call_fn f st'
      else update_fn f (λ fn, set_queueCount (queueCount fn + 1) fn) st'
  | None => st
  end.

Definition resolveQueue (queue : option qid) (st : State) : State :=
  match queue with
  | Some q =>
      match queues st !! q with
      | Some aq =>
          if negb (resolved aq) then
            let st1 := update_queue q (λ aq, {| resolved := true; entries := entries aq |}) st in
            let st2 := foldl (λ s f, decrement_fn f s) st1 (entries aq) in
            foldl (λ s f, fire_fn f s) st2 (entries aq)
          else st
      | None => st
      end
  | None => st
  end.

Definition ext_of (st : State) (d : loc) : option AsyncModuleExt :=
  match heap st !! d with
  | Some (CPromise _ _ (Some e)) => Some e
  | Some (CWrapper e) => Some e
  | _ => None
  end.

(** [turbopackQueues in obj] *)
Definition isAsyncModuleExt (st : State) (obj : loc) : bool := isSome (ext_of st obj).

(** [k in o] for an object: an own property of [o] or of an object on
    its prototype chain.  A proxy without a [has] trap answers for its
    target. *)
Fixpoint has_property (fuel : nat) (st : State) (o : loc) (k : PropertyKey)
  {struct fuel} : option bool :=
  match heap st !! o with
  | None => None
  | Some (CProxy target _ _) =>
      match fuel with
      | 0 => None
      | S n => has_property n st target k
      end
  | Some c =>
      if isSome (own_property c k) then Some true
      else match cell_proto c with
           | VObj p =>
               match fuel with
               | 0 => None
               | S n => has_property n st p k
               end
           | _ => Some false
           end
  end.

(** [isPromise(maybePromise)] for a value that is not [null]:
    [typeof maybePromise === "object" && "then" in maybePromise &&
     typeof maybePromise.then === "function"].
    A native promise inherits the intrinsic [Promise.prototype.then],
    which the heap does not spell out.  The reads get the size of the
    heap as fuel, which bounds every chain of distinct objects; an object
    whose [then] cannot be read in the model, or raises when read, is
    taken for no promise. *)
Definition isPromise (st : State) (maybePromise : loc) : bool :=
  bool_decide (typeof st (VObj maybePromise) = "object")
  && match heap st !! maybePromise with
     | Some (CPromise _ _ _) => true
     | _ =>
         match has_property (length (heap st)) st maybePromise (KStr "then") with
         | Some true =>
             match Reflect_get (length (heap st)) st (VObj maybePromise) (KStr "then") with
             | Some (Normal v) => bool_decide (typeof st v = "function")
             | _ => false
             end
         | _ => false
         end
     end.

Definition set_ext (d : loc) (g : AsyncModuleExt → AsyncModuleExt) (st : State) : State :=
  match heap st !! d with
  | Some (CPromise s rs (Some e)) => store d (CPromise s rs (Some (g e))) st
  | Some (CWrapper e) => store d (CWrapper (g e)) st
  | _ => st
  end.

Definition set_turbopackExports (v : value) (e : AsyncModuleExt) : AsyncModuleExt :=
  {| turbopackQueues := turbopackQueues e; turbopackExports := v;
     turbopackError := turbopackError e |}.

Definition set_turbopackError (v : value) (e : AsyncModuleExt) : AsyncModuleExt :=
  {| turbopackQueues := turbopackQueues e; turbopackExports := turbopackExports e;
     turbopackError := v |}.

Definition allocQueue (r : bool) (st : State) : qid * State :=
  (length (queues st), with_queues (queues st ++ [{| resolved := r; entries := [] |}]) st).

(** One step of the [deps.map] of [wrapDeps]. *)
Definition wrapDep (dep : value) (st : State) : loc * State :=
  let plain :=
    alloc (CWrapper {| turbopackQueues := QueuesNone; turbopackExports := dep;
                       turbopackError := VUndefined |}) st in
  match dep with
  | VObj l =>
      if bool_decide (typeof st dep = "object") then
        if isAsyncModuleExt st l then (l, st)
        else if isPromise st l then
          let '(queue, st1) := allocQueue false st in
          let '(exports0, st2) := alloc (CObject (emptyObject (VObj ObjectPrototype))) st1 in
          let '(obj, st3) :=
            alloc (CWrapper {| turbopackQueues := QueuesPrivate queue;
                               turbopackExports := VObj exports0;
                               turbopackError := VUndefined |}) st2 in
          (obj, promise_then l (ReactWrapDep obj queue) st3)
        else plain
      else plain
  | _ => plain
  end.

Fixpoint wrapDeps (deps : list value) (st : State) : list loc * State :=
  match deps with
  | [] => ([], st)
  | dep :: rest =>
      let '(d, st1) := wrapDep dep st in
      let '(ds, st2) := wrapDeps rest st1 in
      (d :: ds, st2)
  end.

(** [getResult]: [currentDeps.map(d => { if (d[turbopackError]) throw
    d[turbopackError]; return d[turbopackExports]; })] *)
Fixpoint getResult_map (st : State) (currentDeps : list loc)
  : option (completion (list value)) :=
  match currentDeps with
  | [] => Some (Normal [])
  | d :: rest =>
      match ext_of st d with
      | Some e =>
          if truthy (turbopackError e) then Some (Throw (Thrown (turbopackError e)))
          else match getResult_map st rest with
               | Some (Normal vs) => Some (Normal (turbopackExports e :: vs))
               | r => r
               end
      | None => None
      end
  end.

Definition getResult (currentDeps : list loc) : M value :=
  let* vs := query (λ st, getResult_map st currentDeps) in
  let* a := allocCell (CArray vs) in
  ret (VObj a).

(** Calling a function value that is a [getResult] closure. *)
Definition call_getResult (g : value) : M value :=
  match g with
  | VObj l =>
      λ st, match heap st !! l with
            | Some (CGetResult currentDeps) => getResult currentDeps st
            | _ => None
            end
  | _ => throw TypeError
  end.

(** [fnQueue(q)] inside [handleAsyncDependencies], for the activation
    whose own queue is [queue] and whose set is [depQueues], and for the
    continuation [fn]. *)
Definition fnQueue (queue : option qid) (depQueues : sid) (fn : fid) (q : qid)
    (st : State) : State :=
  match sets st !! depQueues with
  | Some s =>
      if bool_decide (Some q ≠ queue) && negb (bool_decide (q ∈ s)) then
        let st1 := with_sets (<[depQueues := s ++ [q]]> (sets st)) st in
        match queues st1 !! q with
        | Some aq =>
            if negb (resolved aq) then
              update_queue q (λ aq, {| resolved := resolved aq; entries := entries aq ++ [fn] |})
                (update_fn fn (λ f, set_queueCount (queueCount f + 1) f) st1)
            else st1
        | None => st1
        end
      else st
  | None => st
  end.

(** [dep[turbopackQueues](fnQueue)].  [depQueues.forEach(fn)] visits the
    elements the set has when the loop starts: [fnQueue] adds to the
    caller's set only what that set lacks, so a set being iterated never
    grows.  The closing [promise["catch"](() => {})] only marks a
    rejection as handled and is left out. *)
Definition call_turbopackQueues (queues_fn : QueuesFn) (fn : qid → State → State)
    (st : State) : State :=
  match queues_fn with
  | QueuesNone => st
  | QueuesPrivate queue => fn queue st
  | QueuesModule queue depQueues =>
      let st1 := match queue with Some q => fn q st | None => st end in
      match sets st1 !! depQueues with
      | Some s => foldl (λ s' q, fn q s') st1 s
      | None => st1
      end
  end.

(** [currentDeps.map(dep => dep[turbopackQueues](fnQueue))] *)
Definition register_deps (queue : option qid) (depQueues : sid) (fn : fid)
    (currentDeps : list loc) (st : State) : State :=
  foldl (λ s d, match ext_of s d with
                | Some e => call_turbopackQueues (turbopackQueues e)
                                                 (fnQueue queue depQueues fn) s
                | None => s
                end) st currentDeps.

(** The part of [handleAsyncDependencies] before its [return]: the
    wrapped dependencies, the continuation [fn] and the promise it
    resolves. *)
Definition handleAsyncDependencies_setup (inst : AsyncInstance) (deps : list value)
    (st : State) : (list loc * fid * loc) * State :=
  let '(currentDeps, st1) := wrapDeps deps st in
  let '(getResult, st2) := alloc (CGetResult currentDeps) st1 in
  let '(promise, st3) := alloc (CPromise Pending [] None) st2 in
  let fn := length (fns st3) in
  let st4 := with_fns (fns st3 ++ [{| queueCount := 0; fn_promise := promise;
                                      fn_getResult := getResult |}]) st3 in
  ((currentDeps, fn, promise),
   register_deps (inst_queue inst) (inst_depQueues inst) fn currentDeps st4).

Definition fn_count (st : State) (fn : fid) : Z :=
  match fns st !! fn with
  | Some f => queueCount f
  | None => 0
  end.

(** [handleAsyncDependencies(deps)] of activation [i]:
    [return fn.queueCount ? promise : getResult();] *)
Definition handleAsyncDependencies (i : iid) (deps : list value) : M value :=
  λ st, match instances st !! i with
        | Some inst =>
            let '((currentDeps, fn, promise), st') :=
              handleAsyncDependencies_setup inst deps st in
            if negb (fn_count st' fn =? 0)%Z then Some (Normal (VObj promise), st')
            else getResult currentDeps st'
        | None => None
        end.

(** [asyncResult(err)] of activation [i]. *)
Definition asyncResult (i : iid) (err : value) : M unit :=
  λ st, match instances st !! i with
        | Some inst =>
            let st1 :=
              if truthy err then
                settlePromise (inst_promise inst) (Rejected err)
                  (set_ext (inst_promise inst) (set_turbopackError err) st)
              else settlePromise (inst_promise inst) (Fulfilled (inst_exports inst)) st in
            Some (Normal tt, resolveQueue (inst_queue inst) st1)
        | None => None
        end.

Definition allocSet : M sid :=
  λ st, Some (Normal (length (sets st)), with_sets (sets st ++ [[]]) st).

Definition allocInstance (inst : AsyncInstance) : M iid :=
  λ st, Some (Normal (length (instances st)),
              with_instances (instances st ++ [inst]) st).

(** [asyncModule(module, body, hasAwait)] up to the call of [body]; the
    result names the activation whose closures [body] receives. *)
Definition asyncModule_begin (module : ModuleId) (hasAwait : bool) : M iid :=
  let* queue :=
    if hasAwait
    then λ st, let '(q, st') := allocQueue true st in Some (Normal (Some q), st')
    else ret None in
  let* depQueues := allocSet in
  let* m := getModule module in
  let* _ := ensureDynamicExports module (exports_of m) in
  let* m := getModule module in
  let exports := exports_of m in
  let* promise :=
    allocCell (CPromise Pending []
                 (Some {| turbopackQueues := QueuesModule queue depQueues;
                          turbopackExports := exports;
                          turbopackError := VUndefined |})) in
  let* m := getModule module in
  let* _ := setModule module
              (set_exports (VObj promise) (set_namespaceObject (VObj promise) m)) in
  allocInstance {| inst_queue := queue; inst_depQueues := depQueues;
                   inst_promise := promise; inst_exports := exports;
                   inst_running := true |}.

(** The rest of [asyncModule] once [body] has returned:
    [if (queue) { queue.resolved = false; }] *)
Definition asyncModule_end (i : iid) (st : State) : State :=
  match instances st !! i with
  | Some inst =>
      if inst_running inst then
        let st1 :=
          with_instances
            (<[i := {| inst_queue := inst_queue inst;
                       inst_depQueues := inst_depQueues inst;
                       inst_promise := inst_promise inst;
                       inst_exports := inst_exports inst;
                       inst_running := false |}]> (instances st)) st in
        match inst_queue inst with
        | Some q => update_queue q (λ aq, {| resolved := false; entries := entries aq |}) st1
        | None => st1
        end
      else st
  | None => st
  end.

(** The callbacks of [wrapDeps], run as a microtask once the wrapped
    promise has settled, and the callback of [moduleLookup]. *)
Definition run_reaction (r : Reaction) (outcome : PromiseState) (st : State) : State :=
  match r, outcome with
  | ReactWrapDep obj queue, Fulfilled res =>
      resolveQueue (Some queue) (set_ext obj (set_turbopackExports res) st)
  | ReactWrapDep obj queue, Rejected err =>
      resolveQueue (Some queue) (set_ext obj (set_turbopackError err) st)
  | ReactThrow e derived, Fulfilled _ => settlePromise derived (Rejected e) st
  | ReactThrow e derived, Rejected x => settlePromise derived (Rejected x) st
  | _, Pending => st
  end.

Definition run_job (st : State) : State :=
  match jobs st with
  | [] => st
  | (r, outcome) :: rest => run_reaction r outcome (with_jobs rest st)
  end.

Fixpoint run_jobs (n : nat) (st : State) : State :=
  match n with
  | 0 => st
  | S n' => run_jobs n' (run_job st)
  end.

(** What can happen to the resolver, one call at a time. *)
Inductive Call :=
  | CallAsyncModule (module : ModuleId) (hasAwait : bool)
      (* [asyncModule] is entered and reaches the call of [body] *)
  | CallBodyReturn (i : iid)
      (* [body] of activation [i] returns *)
  | CallHandleAsyncDependencies (i : iid) (deps : list value)
  | CallAsyncResult (i : iid) (err : value)
  | CallSettle (p : loc) (outcome : PromiseState)
      (* user code settles a promise of its own *)
  | CallRunJob.
      (* the engine runs the next microtask *)

Definition state_after {A} (r : option (completion A * State)) (st : State) : State :=
  match r with
  | Some (_, st') => st'
  | None => st
  end.

Definition is_plain_promise (st : State) (p : loc) : bool :=
  match heap st !! p with
  | Some (CPromise _ _ None) => true
  | _ => false
  end.

Definition run_call (c : Call) (st : State) : State :=
  match c with
  | CallAsyncModule module hasAwait => state_after (asyncModule_begin module hasAwait st) st
  | CallBodyReturn i => asyncModule_end i st
  | CallHandleAsyncDependencies i deps => state_after (handleAsyncDependencies i deps st) st
  | CallAsyncResult i err => state_after (asyncResult i err st) st
  | CallSettle p outcome =>
      if is_plain_promise st p && negb (bool_decide (outcome = Pending))
      then settlePromise p outcome st else st
  | CallRunJob => run_job st
  end.

Definition run_calls (cs : list Call) (st : State) : State :=
  foldl (λ s c, run_call c s) st cs.

(** The error object [moduleLookup] creates for [name]. *)
Definition notFoundError (name : string) : Cell :=
  CObject {| proto := VObj ErrorPrototype; callable := false;
             props := [(KStr "message",
                        DataProp (VStr ("Cannot find module '" +:+ name +:+ "'")) false);
                       (KStr "code", DataProp (VStr "MODULE_NOT_FOUND") true)] |}.

(** ** Concrete scenarios *)

Definition mkModule (id : ModuleId) (exports : value) : Module :=
  {| exports := exports; error := VUndefined; loaded := false; module_id := id;
     children := []; parents := []; namespaceObject := VUndefined;
     REEXPORTED_OBJECTS := None |}.

Definition plainObject (ps : list (PropertyKey * Property)) : Cell :=
  CObject {| proto := VObj ObjectPrototype; callable := false; props := ps |}.

(** A module ["dep"] whose exports are the object [{ a: 1 }] at location
    5, next to an unrelated object [{ b: 2 }] at location 6. *)
Definition cjs_state : State :=
  with_modules (<["dep" := mkModule "dep" (VObj 5)]> ∅)
    (with_heap (heap initialState ++
                [plainObject [(KStr "a", DataProp (VNum 1) true)];
                 plainObject [(KStr "b", DataProp (VNum 2) true)]])
               initialState).

(** ["dep"] is imported as a namespace, then its body declares a dynamic
    re-export. *)
Definition cjs_state_imported : State :=
  state_after (esmImport 3 "importer" "dep" cjs_state) cjs_state.


(** What the interop layer leaves alone: it only rewrites heap cells in
    place. *)
Definition same_frame (st st' : State) : Prop :=
  modules st' = modules st ∧ arrays st' = arrays st ∧
  length (heap st') = length (heap st).

(** The sources registered for a module, once it has a dynamic view. *)
Definition reexported_of (st : State) (module : ModuleId) : option (list value) :=
  m ← modules st !! module;
  a ← REEXPORTED_OBJECTS m;
  arrays st !! a.

(** ** Reading the claims about the dynamic view *)

(** The keys a source introduces into an enumeration that has already
    seen [seen]: its own keys other than ["default"] that were not seen,
    in the source's order. *)
Definition introduced (seen ks : list PropertyKey) : list PropertyKey :=
  filter (λ k, k ≠ KStr "default" ∧ k ∉ seen) ks.

(** A value [dynamicExport] registers: [typeof] is ["object"] and it is
    not [null]; the location is allocated. *)
Definition is_object (st : State) (v : value) : bool :=
  match v with
  | VObj l =>
      match heap st !! l with
      | Some c => negb (cell_callable c)
      | None => false
      end
  | _ => false
  end.

(** The composite view of a module exists: the record names the array of
    its sources, and a proxy whose handler reads that array is in the
    heap. *)
Definition has_view (st : State) (m : Module) : Prop :=
  ∃ a p target b,
    REEXPORTED_OBJECTS m = Some a ∧ heap st !! p = Some (CProxy target b a).

(** ** Reading the claims about [interopEsm] *)

Definition is_proxy (c : Cell) : bool :=
  match c with
  | CProxy _ _ _ => true
  | _ => false
  end.

(** [prototype_chain st v levels]: [levels] are the cells found by
    starting at [v] and following prototypes, up to and excluding the
    first value that is a primitive or one of [LEAF_PROTOTYPES].  Levels
    that are proxies are left out of this reading of the claims. *)
Inductive prototype_chain (st : State) : value → list Cell → Prop :=
  | chain_end v :
      (∀ l, v = VObj l → v ∈ LEAF_PROTOTYPES) →
      prototype_chain st v []
  | chain_level l c levels :
      VObj l ∉ LEAF_PROTOTYPES →
      heap st !! l = Some c →
      is_proxy c = false →
      prototype_chain st (cell_proto c) levels →
      prototype_chain st (VObj l) (c :: levels).

(** The getters [interopEsm] may hold for [raw]: one per name, each the
    closure [createGetter(raw, name)]. *)
Definition getters_of (raw : value) (getters : list (string * Getter)) : Prop :=
  NoDup getters.*1 ∧
  Forall (λ kg, kg.2 = createGetter raw (KStr kg.1)) getters.

(** [defineProp] on an ordinary object: the property is added unless the
    name is owned already. *)
Definition define_absent (ps : list (PropertyKey * Property))
    (kp : PropertyKey * Property) : list (PropertyKey * Property) :=
  if isSome (lookup_prop kp.1 ps) then ps else add_prop kp.1 kp.2 ps.

(** The properties [esm(exports, getters)] defines, in its order. *)
Definition esm_definitions (getters : list (string * Getter))
  : list (PropertyKey * Property) :=
  (KStr "__esModule", DataProp (VBool true) false)
  :: (KSym SymToStringTag, DataProp (VStr "Module") false)
  :: ((λ kg : string * Getter, (KStr kg.1, AccessorProp kg.2 true)) <$> getters).

Definition set_props (ps : list (PropertyKey * Property)) (o : Object) : Object :=
  {| proto := proto o; callable := callable o; props := ps |}.

Fixpoint lookup_getter (key : string) (getters : list (string * Getter))
  : option Getter :=
  match getters with
  | [] => None
  | (k, g) :: rest => if decide (k = key) then Some g else lookup_getter key rest
  end.

(** Some expanded level of the chain owns the name [key]. *)
Definition chain_owns (levels : list Cell) (key : string) : bool :=
  existsb (λ c, bool_decide (key ∈ own_names c)) levels.

(** [raw] at location 6 is [Object.create(P)] for the object [P] =
    [{ default: 7 }] at location 5; location 7 holds a fresh [{}]. *)
Definition inherited_default_state : State :=
  with_heap (heap initialState ++
             [plainObject [(KStr "default", DataProp (VNum 7) true)];
              CObject (emptyObject (VObj 5));
              plainObject []])
            initialState.

Definition inherited_default_interop : State :=
  state_after (interopEsm 3 (VObj 6) (VObj 7) (VBool true) inherited_default_state)
              inherited_default_state.

(** A module ["m"] whose exports are [{ own: 1 }] at location 5, and two
    sources: [{ x: 10, default: 11 }] at 6 and [{ x: 20, y: 21 }] at 7. *)
Definition view_state : State :=
  with_modules (<["m" := mkModule "m" (VObj 5)]> ∅)
    (with_heap (heap initialState ++
                [plainObject [(KStr "own", DataProp (VNum 1) true)];
                 plainObject [(KStr "x", DataProp (VNum 10) true);
                              (KStr "default", DataProp (VNum 11) true)];
                 plainObject [(KStr "x", DataProp (VNum 20) true);
                              (KStr "y", DataProp (VNum 21) true)]])
               initialState).

Definition view_state_1 : State :=
  state_after (dynamicExport "m" (VObj 5) (VObj 6) view_state) view_state.

Definition view_state_2 : State :=
  state_after (dynamicExport "m" (VObj 5) (VObj 7) view_state_1) view_state_1.

(** ** Reading the claim about the levels [interopEsm] expands *)

(** The shared base prototypes of plain objects, arrays and functions,
    as the claims name them. *)
Definition base_prototype (v : value) : Prop :=
  v = VObj ObjectPrototype ∨ v = VObj ArrayPrototype ∨ v = VObj FunctionPrototype.

(** One level of a prototype chain as JavaScript reports it: the own
    string-keyed names of the object, [Object.getOwnPropertyNames], and
    its prototype, [Object.getPrototypeOf].  A proxy answers through its
    handler and its target. *)
Definition level_of (st : State) (l : loc) (names : list string) (next : value)
  : Prop :=
  (∃ n, getOwnPropertyNames n st (VObj l) = Some (Normal names)) ∧
  (∃ n, getProto n st (VObj l) = Some (Normal next)).

(** [levels_below_base st v levels]: [levels] are the own names of the
    objects found by starting at [v] and following prototypes, level by
    level, up to and excluding the first value that is no object or is
    a shared base prototype. *)
Inductive levels_below_base (st : State) : value → list (list string) → Prop :=
  | levels_end v :
      (∀ l, v = VObj l → base_prototype v) →
      levels_below_base st v []
  | levels_step l names next rest :
      ¬ base_prototype (VObj l) →
      level_of st l names next →
      levels_below_base st next rest →
      levels_below_base st (VObj l) (names :: rest).

(** [view_state_2] with a fresh [{}] at location 9. *)
Definition view_state_fresh : State :=
  with_heap (heap view_state_2 ++ [plainObject []]) view_state_2.

(** ** Reading the claims about the resolver *)

(** How many times the continuation [fn] occurs in a list of entries. *)
Definition occ (fn : fid) (l : list fid) : nat := length (filter (λ f, f = fn) l).

(** The number of queues that hold [fn], and the number of those that
    are still unresolved. *)
Definition holders (st : State) (fn : fid) : nat :=
  length (filter (λ aq, fn ∈ entries aq) (queues st)).

Definition unresolved_holders (st : State) (fn : fid) : nat :=
  length (filter (λ aq, fn ∈ entries aq ∧ resolved aq = false) (queues st)).

(** The number of times the completion action [fn()] has run. *)
Definition calls_of (st : State) (fn : fid) : nat := occ fn (called st).

(** Well-formed resolver states: queue entries name existing
    continuations, and so does the log of calls; the own queue of an
    activation exists and belongs to that activation only, and while the
    activation's [body] is running it is the empty queue flagged
    [resolved: true] that [asyncModule] created. *)
Definition entries_bounded (st : State) : Prop :=
  ∀ q aq f, queues st !! q = Some aq → f ∈ entries aq → f < length (fns st).

Definition own_queues_ok (st : State) : Prop :=
  ∀ i inst q,
    instances st !! i = Some inst → inst_queue inst = Some q →
    q < length (queues st) ∧
    (inst_running inst = true →
     queues st !! q = Some {| resolved := true; entries := [] |}) ∧
    (∀ i' inst', instances st !! i' = Some inst' → inst_queue inst' = Some q → i' = i).

Definition called_bounded (st : State) : Prop :=
  ∀ f, f ∈ called st → f < length (fns st).

Definition wf (st : State) : Prop :=
  entries_bounded st ∧ own_queues_ok st ∧ called_bounded st.

(** The resolver's own structures: what the invariants of the resolver
    talk about.  The heap, the microtask queue and the sets of visited
    queues are not among them. *)
Definition same_resolver (st st' : State) : Prop :=
  queues st' = queues st ∧ fns st' = fns st ∧
  instances st' = instances st ∧ called st' = called st.

(** The invariant of a registered continuation [fn]: each queue holds it
    at most once, and either it has not run and its [queueCount] is the
    number of unresolved queues holding it, which is positive, or it has
    run once, its [queueCount] is -1 and every queue holding it is
    resolved. *)
Definition fn_inv (fn : fid) (st : State) : Prop :=
  fn < length (fns st) ∧
  (∀ q aq, queues st !! q = Some aq → occ fn (entries aq) ≤ 1) ∧
  ((calls_of st fn = 0 ∧ fn_count st fn = Z.of_nat (unresolved_holders st fn) ∧
    1 ≤ unresolved_holders st fn) ∨
   (calls_of st fn = 1 ∧ fn_count st fn = (-1)%Z ∧ unresolved_holders st fn = 0)).

(** The state of a continuation [fn] while [handleAsyncDependencies]
    registers it, for the activation whose set of visited queues is
    [sid]: it has not run, its [queueCount] is the number of queues that
    hold it, and each of these is unresolved, holds it once and is in
    the set. *)
Definition registering (sid : sid) (fn : fid) (st : State) : Prop :=
  fn < length (fns st) ∧
  fn_count st fn = Z.of_nat (holders st fn) ∧
  calls_of st fn = 0 ∧
  ∀ q aq, queues st !! q = Some aq → fn ∈ entries aq →
          resolved aq = false ∧ occ fn (entries aq) = 1 ∧
          ∃ set, sets st !! sid = Some set ∧ q ∈ set.

(** The continuation [fn] exists and [n] queues hold it. *)
Definition held_by (fn : fid) (n : nat) (st : State) : Prop :=
  fn < length (fns st) ∧ holders st fn = n.

(** ** A resolver scenario *)

(** The resolver's structures as [asyncModule] leaves them for two
    modules whose exports objects sit at locations 5 and 6, next to a
    pending promise of user code at location 7: the first module
    (activation 0, view of its exports at 8, promise at 9, queue 0) has
    returned from its body at its first [await]; the body of the second
    (activation 1, view at 10, promise at 11, queue 1) is running.  The
    module records play no part in what follows and are left out. *)
Definition async_started : State :=
  {| heap := heap initialState ++
       [plainObject []; plainObject []; CPromise Pending [] None;
        CProxy 6 false 0;
        CPromise Pending []
          (Some {| turbopackQueues := QueuesModule (Some 0) 0;
                   turbopackExports := VObj 8; turbopackError := VUndefined |});
        CProxy 5 false 1;
        CPromise Pending []
          (Some {| turbopackQueues := QueuesModule (Some 1) 1;
                   turbopackExports := VObj 10; turbopackError := VUndefined |})];
     arrays := [[]; []];
     modules := ∅;
     queues := [{| resolved := false; entries := [] |};
                {| resolved := true; entries := [] |}];
     fns := [];
     sets := [[]; []];
     instances :=
       [{| inst_queue := Some 0; inst_depQueues := 0; inst_promise := 9;
           inst_exports := VObj 8; inst_running := false |};
        {| inst_queue := Some 1; inst_depQueues := 1; inst_promise := 11;
           inst_exports := VObj 10; inst_running := true |}];
     jobs := [];
     called := [] |}.

(** The second module waits for the first, for the user promise and for
    the plain value 3: the continuation 0 is registered with the queue
    of the first module and with the private queue of the wrapped
    promise. *)
Definition async_waiting : State :=
  run_calls [CallHandleAsyncDependencies 1 [VObj 9; VObj 7; VNum 3]] async_started.

(** The first module completes, the user promise is rejected with
    ["boom"], and the microtask of [wrapDeps] runs. *)
Definition async_settled : State :=
  run_calls [CallAsyncResult 0 VUndefined;
             CallSettle 7 (Rejected (VStr "boom"));
             CallRunJob] async_waiting.

(** The first module fails with ["boom"] before the second registers
    anything. *)
Definition async_failed_early : State :=
  run_calls [CallAsyncResult 0 (VStr "boom")] async_started.

(** ** Reading the claims about faults *)

(** What [getResult] does, said over the handles themselves: it raises
    the stored error of the first handle that has a truthy one, and
    otherwise yields the exports of all of them. *)
Definition getResult_of (exts : list AsyncModuleExt) : completion (list value) :=
  match list_find (λ e, truthy (turbopackError e) = true) exts with
  | Some (_, e) => Throw (Thrown (turbopackError e))
  | None => Normal (turbopackExports <$> exts)
  end.


(** Every promise that is rejected in [st'] was rejected in [st] with
    the same reason. *)
Definition no_new_rejection (st st' : State) : Prop :=
  ∀ p x rs ext, heap st' !! p = Some (CPromise (Rejected x) rs ext) →
                ∃ rs' ext', heap st !! p = Some (CPromise (Rejected x) rs' ext').

(** What a step of [resolveQueue]'s loops does to the continuation [fn]
    and to the rest of the resolver. *)
Definition fn_step (fn : fid) (st st' : State) (count : Z) (calls : nat) : Prop :=
  queues st' = queues st ∧ instances st' = instances st ∧
  length (fns st') = length (fns st) ∧
  fn_count st' fn = count ∧ calls_of st' fn = calls.


(** ** Reading the claim about the fast path *)

Definition resolved_in (st : State) (q : qid) : bool :=
  match queues st !! q with
  | Some aq => resolved aq
  | None => true
  end.

(** The queues a [turbopackQueues] function passes to its argument. *)
Definition queues_of (st : State) (queues_fn : QueuesFn) : list qid :=
  match queues_fn with
  | QueuesNone => []
  | QueuesPrivate queue => [queue]
  | QueuesModule queue depQueues =>
      option_list queue ++ default [] (sets st !! depQueues)
  end.

(** An object that is known to be no thenable: it is allocated and no
    native promise, and either it has no [then], own or inherited, or its
    [then] reads as a value that is not callable. *)
Definition not_thenable (st : State) (l : loc) : bool :=
  match heap st !! l with
  | None | Some (CPromise _ _ _) => false
  | Some _ =>
      match has_property (length (heap st)) st l (KStr "then") with
      | Some false => true
      | Some true =>
          match Reflect_get (length (heap st)) st (VObj l) (KStr "then") with
          | Some (Normal v) => negb (bool_decide (typeof st v = "function"))
          | _ => false
          end
      | None => false
      end
  end.

(** A dependency is resolved at registration time when it is a value
    that is no object, a function, a handle every queue of which is
    resolved, or an object that is known to be no thenable.  A promise,
    any other thenable and an object whose [then] cannot be read count
    as unresolved. *)
Definition dep_resolved (st : State) (dep : value) : bool :=
  match dep with
  | VObj l =>
      match ext_of st l with
      | Some e => forallb (resolved_in st) (queues_of st (turbopackQueues e))
      | None => negb (bool_decide (typeof st dep = "object")) || not_thenable st l
      end
  | _ => true
  end.

(** The wrapper [wrapDeps] makes for a value that is neither a handle
    nor a promise. *)
Definition plain_wrapper (dep : value) : Cell :=
  CWrapper {| turbopackQueues := QueuesNone; turbopackExports := dep;
              turbopackError := VUndefined |}.

(** [s] is [st] with plain wrappers added to the heap. *)
Definition quiet_extension (st s : State) : Prop :=
  queues s = queues st ∧ sets s = sets st ∧ fns s = fns st ∧
  arrays s = arrays st ∧
  ∃ vs, heap s = heap st ++ (plain_wrapper <$> vs).

(** [d] is a handle in [s] all of whose queues are resolved in [st]. *)
Definition settled_handle (st s : State) (d : loc) : Prop :=
  ∃ e, ext_of s d = Some e ∧
       forallb (resolved_in st) (queues_of st (turbopackQueues e)) = true.

(** [s] is [s0] but for its sets, which have gained only queues that are
    resolved in [st]. *)
Definition quiet_registration (st s0 s : State) : Prop :=
  heap s = heap s0 ∧ queues s = queues s0 ∧ fns s = fns s0 ∧
  ∀ depQueues set q,
    sets s !! depQueues = Some set → q ∈ set →
    resolved_in st q = true ∨ ∃ set0, sets st !! depQueues = Some set0 ∧ q ∈ set0.


(** The first module completes before the second registers anything. *)
Definition async_done_early : State :=
  run_calls [CallAsyncResult 0 VUndefined] async_started.


(** ** Reading the view *)

(** The first value of a list that is not [undefined], [undefined] when
    there is none. *)
Definition first_defined (vs : list value) : value :=
  default VUndefined (head (filter (λ v, v ≠ VUndefined) vs)).


(** ** Scenarios for the interop layer *)

(** The raw exports [{ a: 1 }] at location 5 and a fresh [{}] at
    location 6. *)
Definition live_state : State :=
  with_heap (heap initialState ++
             [plainObject [(KStr "a", DataProp (VNum 1) true)]; plainObject []])
            initialState.

(** A module ["dep"] whose exports are the number 42. *)
Definition primitive_state : State :=
  with_modules (<["dep" := mkModule "dep" (VNum 42)]> ∅) initialState.


(** ** Reading the settlement of promises *)

(** The cell at [p] is no promise that is still pending. *)
Definition not_pending (st : State) (p : loc) : Prop :=
  ∀ rs ext, heap st !! p ≠ Some (CPromise Pending rs ext).


(** The exports a handle carries, [undefined] where there is no handle. *)
Definition handle_exports (st : State) (d : loc) : value :=
  default VUndefined (turbopackExports <$> ext_of st d).


(** The user promise at location 7 has been fulfilled with 5 while
    nothing was waiting for it. *)
Definition async_promise_fulfilled : State :=
  run_calls [CallSettle 7 (Fulfilled (VNum 5))] async_started.


(** A module ["dep"] whose exports, at location 5, are what a compiled
    ES module leaves in CommonJS: [{ __esModule: true, default: 7 }]. *)
Definition esmodule_state : State :=
  with_modules (<["dep" := mkModule "dep" (VObj 5)]> ∅)
    (with_heap (heap initialState ++
                [plainObject [(KStr "__esModule", DataProp (VBool true) false);
                              (KStr "default", DataProp (VNum 7) true)]])
               initialState).

(** [async_started] with an object at location 13 that is no promise but
    has a callable [then], the function at location 12. *)
Definition async_thenable : State :=
  with_heap (heap async_started ++
             [CObject {| proto := VObj FunctionPrototype; callable := true; props := [] |};
              plainObject [(KStr "then", DataProp (VObj 12) true)]])
            async_started.

(** ** Reading a heap that has grown *)

(** [s] has every cell and every source array of [st]. *)
Definition extends (st s : State) : Prop :=
  (∀ l c, heap st !! l = Some c → heap s !! l = Some c) ∧
  (∀ a objs, arrays st !! a = Some objs → arrays s !! a = Some objs).

(** * Properties *)

(** ** Heap bookkeeping *)

Lemma lookup_snoc {A} (l : list A) (x : A) : (l ++ [x]) !! length l = Some x.
Proof. by apply list_lookup_middle. Qed.

Lemma lookup_snoc_lt {A} (l : list A) (x : A) (i : nat) :
  i < length l → (l ++ [x]) !! i = l !! i.
Proof. intros. by apply lookup_app_l. Qed.

Lemma lookup_snoc_Some {A} (l : list A) (x y : A) (i : nat) :
  l !! i = Some y → (l ++ [x]) !! i = Some y.
Proof. intros H. rewrite lookup_app_l; [done|]. by eapply lookup_lt_Some. Qed.

Lemma heap_store l c st : heap (store l c st) = <[l := c]> (heap st).
Proof. done. Qed.

(** ** Lookup helper *)

Lemma notFoundError_code fuel st e name :
  heap st !! e = Some (notFoundError name) →
  Reflect_get fuel st (VObj e) (KStr "code") = Some (Normal (VStr "MODULE_NOT_FOUND")).
Proof. intros H. destruct fuel; simpl; by rewrite H. Qed.

(** C9. [moduleLookup(map, name, returnPromise)] returns [map[name]()]
    when [map] owns [name], whatever [returnPromise] is.  When it does
    not, the call with [returnPromise = false] raises, synchronously, a
    new error object whose [code] reads ["MODULE_NOT_FOUND"]; the call
    with [returnPromise = true] raises nothing: it returns a promise that
    is still pending and has scheduled one microtask, and that microtask
    rejects the promise with the very same error object. *)
Theorem moduleLookup_spec (map : gmap string Functor) (name : string) (st : State) :
  (∀ (f : Functor) returnPromise,
      map !! name = Some f → moduleLookup map name returnPromise st = f st) ∧
  (map !! name = None →
   let e := length (heap st) in
   ∃ st1 st2 p,
     moduleLookup map name false st = Some (Throw (Thrown (VObj e)), st1) ∧
     heap st1 !! e = Some (notFoundError name) ∧
     Reflect_get 0 st1 (VObj e) (KStr "code") = Some (Normal (VStr "MODULE_NOT_FOUND")) ∧
     moduleLookup map name true st = Some (Normal (VObj p), st2) ∧
     heap st2 !! e = Some (notFoundError name) ∧
     heap st2 !! p = Some (CPromise Pending [] None) ∧
     jobs st2 = jobs st ++ [(ReactThrow (VObj e) p, Fulfilled VUndefined)] ∧
     ∀ st' rs ext,
       heap st' !! p = Some (CPromise Pending rs ext) →
       heap (run_reaction (ReactThrow (VObj e) p) (Fulfilled VUndefined) st') !! p
       = Some (CPromise (Rejected (VObj e)) [] ext)).
Proof.
  split.
  - intros f b Hf. unfold moduleLookup. by rewrite Hf.
  - intros Hnone e. unfold moduleLookup. rewrite Hnone.
    unfold bind, newErrorWithCode, allocCell, alloc, ret, throw, modify.
    cbn -[Reflect_get run_reaction String.append]. fold (notFoundError name).
    set (h1 := heap st ++ [notFoundError name]).
    set (h2 := h1 ++ [CPromise (Fulfilled VUndefined) [] None]).
    assert (Hlen1 : length h1 = S (length (heap st)))
      by (unfold h1; rewrite length_app; simpl; lia).
    assert (Hlen2 : length h2 = S (S (length (heap st))))
      by (unfold h2; rewrite length_app; simpl; lia).
    assert (He1 : h1 !! e = Some (notFoundError name)) by apply lookup_snoc.
    assert (Hp0 : (h2 ++ [CPromise Pending [] None]) !! length h1
                  = Some (CPromise (Fulfilled VUndefined) [] None)).
    { apply lookup_snoc_Some, lookup_snoc. }
    unfold promise_then. cbn -[Reflect_get run_reaction String.append].
    fold h1 h2. rewrite Hp0.
    eexists _, _, _. split; [reflexivity|].
    split; [exact He1|].
    split; [by apply notFoundError_code with name|].
    split; [reflexivity|].
    cbn -[Reflect_get run_reaction String.append].
    split; [by do 2 apply lookup_snoc_Some|].
    split; [apply lookup_snoc|].
    split; [reflexivity|].
    intros st' rs ext Hp. simpl. unfold settlePromise. rewrite Hp. simpl.
    apply list_lookup_insert_eq. by eapply lookup_lt_Some.
Qed.

(** ** Import bridge *)

Ltac unfold_M :=
  unfold setModule, getModule, allocCell, allocArray, bind, ret, throw, stuck,
         query, modify, alloc, store in *.

Lemma import_replays_truthy_error fuel sourceModule id st m :
  modules st !! id = Some m →
  truthy (error m) = true →
  esmImport fuel sourceModule id st = Some (Throw (Thrown (error m)), st) ∧
  commonJsRequire sourceModule id st = Some (Throw (Thrown (error m)), st).
Proof.
  intros Hm He.
  unfold esmImport, commonJsRequire, getOrInstantiateModuleFromParent, bind, getModule.
  rewrite !Hm, He. done.
Qed.

(** C8. A record whose [error] holds an error object makes both import
    paths, [esmImport] and [commonJsRequire], raise that very object for
    every importer; the state they leave is the state they found, so no
    module body ran and nothing was retried. *)
Theorem stored_error_replayed (fuel : nat) (sourceModule id : ModuleId)
    (st : State) (m : Module) (e : loc) :
  modules st !! id = Some m →
  error m = VObj e →
  esmImport fuel sourceModule id st = Some (Throw (Thrown (VObj e)), st) ∧
  commonJsRequire sourceModule id st = Some (Throw (Thrown (VObj e)), st).
Proof.
  intros Hm He. rewrite <- He.
  apply import_replays_truthy_error; [done|]. by rewrite He.
Qed.

Lemma same_frame_refl st : same_frame st st.
Proof. by repeat split. Qed.

Lemma same_frame_trans st1 st2 st3 :
  same_frame st1 st2 → same_frame st2 st3 → same_frame st1 st3.
Proof. unfold same_frame. intros (?&?&?) (?&?&?). repeat split; congruence. Qed.

Lemma Object_defineProperty_frame fuel obj name p st c st' :
  Object_defineProperty fuel obj name p st = Some (c, st') → same_frame st st'.
Proof.
  revert obj. induction fuel as [|n IH]; intros obj H;
    destruct obj; simpl in H; unfold throw in H; simplify_eq;
    try apply same_frame_refl.
  - repeat case_match; simplify_eq.
    repeat split; simpl. by rewrite length_insert.
  - repeat case_match; simplify_eq.
    + repeat split; simpl. by rewrite length_insert.
    + by eapply IH.
Qed.

Lemma defineProp_frame fuel obj name p st c st' :
  defineProp fuel obj name p st = Some (c, st') → same_frame st st'.
Proof.
  unfold defineProp, bind, query, ret. intros H.
  repeat case_match; simplify_eq; try apply same_frame_refl.
  by eapply Object_defineProperty_frame.
Qed.

Lemma esm_getters_frame fuel exports getters st c st' :
  esm_getters fuel exports getters st = Some (c, st') → same_frame st st'.
Proof.
  revert st. induction getters as [|[key g] rest IH]; intros st H; simpl in H.
  - unfold ret in H. simplify_eq. apply same_frame_refl.
  - unfold bind in H. destruct (defineProp _ _ _ _ st) as [[[[]|e] st1]|] eqn:Hd;
      simplify_eq.
    + eapply same_frame_trans; [by eapply defineProp_frame|by eapply IH].
    + by eapply defineProp_frame.
Qed.

Lemma esm_frame fuel exports getters st c st' :
  esm fuel exports getters st = Some (c, st') → same_frame st st'.
Proof.
  unfold esm, bind. simpl. intros H.
  destruct (defineProp _ _ (KStr "__esModule") _ st) as [[[[]|e] st1]|] eqn:Hd1;
    simplify_eq; [|by eapply defineProp_frame].
  destruct (defineProp _ _ (KSym _) _ st1) as [[[[]|e] st2]|] eqn:Hd2;
    simplify_eq.
  - eapply same_frame_trans; [by eapply defineProp_frame|].
    eapply same_frame_trans; [by eapply defineProp_frame|by eapply esm_getters_frame].
  - eapply same_frame_trans; by eapply defineProp_frame.
Qed.

Lemma interopEsm_frame fuel raw ns allow st c st' :
  interopEsm fuel raw ns allow st = Some (c, st') → same_frame st st'.
Proof.
  unfold interopEsm, bind, query, ret. intros H.
  destruct (interopEsm_loop fuel st raw raw []) as [[getters|e]|]; simplify_eq;
    [|apply same_frame_refl].
  match type of H with context [esm ?f ?n ?g st] =>
    destruct (esm f n g st) as [[[[]|e] st1]|] eqn:He end; simplify_eq;
    by eapply esm_frame.
Qed.


Lemma esmImport_hit fuel sourceModule id st m :
  modules st !! id = Some m →
  truthy (error m) = false →
  truthy (namespaceObject m) = true →
  esmImport fuel sourceModule id st = Some (Normal (namespaceObject m), st).
Proof.
  intros Hm He Hn.
  unfold esmImport, getOrInstantiateModuleFromParent, bind, getModule.
  by rewrite !Hm, He, Hn.
Qed.






Lemma stored_error_replayed_witness :
  let failed :=
    {| exports := VObj 5; error := VObj 6; loaded := true; module_id := "dep";
       children := []; parents := []; namespaceObject := VUndefined;
       REEXPORTED_OBJECTS := None |} in
  let st := with_modules (<["dep" := failed]> ∅) cjs_state in
  esmImport 3 "importer" "dep" st = Some (Throw (Thrown (VObj 6)), st) ∧
  commonJsRequire "importer" "dep" st = Some (Throw (Thrown (VObj 6)), st).
Proof.
  intros failed st.
  apply (stored_error_replayed 3 "importer" "dep" st failed 6); reflexivity.
Defined.

Lemma moduleLookup_spec_witness :
  moduleLookup {["a" := ret (VNum 1)]} "a" false initialState
    = Some (Normal (VNum 1), initialState) ∧
  ∃ st1, moduleLookup ∅ "missing" false initialState
         = Some (Throw (Thrown (VObj 5)), st1) ∧
         Reflect_get 0 st1 (VObj 5) (KStr "code")
         = Some (Normal (VStr "MODULE_NOT_FOUND")).
Proof.
  split.
  - apply (proj1 (moduleLookup_spec {["a" := ret (VNum 1)]} "a" initialState)
             (ret (VNum 1)) false).
    vm_compute; reflexivity.
  - destruct (proj2 (moduleLookup_spec (∅ : gmap string (M value)) "missing"
                                       initialState)
                      (lookup_empty "missing"))
      as (st1 & st2 & p & H1 & _ & H3 & _).
    exists st1. split; [exact H1 | exact H3].
Defined.

(** ** Dynamic re-exports *)

Lemma ensureDynamicExports_heap module exports st c st' :
  ensureDynamicExports module exports st = Some (c, st') →
  ∀ l c0, heap st !! l = Some c0 → heap st' !! l = Some c0.
Proof.
  unfold ensureDynamicExports, newProxy. unfold_M. intros H l c0 Hl.
  repeat (case_match; simplify_eq; simpl in *); try done;
    by apply lookup_snoc_Some.
Qed.

Lemma typeof_stable st st' v :
  (∀ l c0, heap st !! l = Some c0 → heap st' !! l = Some c0) →
  typeof st v ≠ "object" →
  typeof st' v = typeof st v.
Proof.
  intros Hh Hty. destruct v as [| | | | |l]; simpl in *; try done.
  destruct (heap st !! l) as [c0|] eqn:Hl; [|done].
  by rewrite (Hh _ _ Hl).
Qed.

(** ** The dynamic view: enumeration *)

Lemma introduced_snoc_fresh seen k ks :
  k ∉ ks → introduced (seen ++ [k]) ks = introduced seen ks.
Proof.
  intros Hk. unfold introduced. induction ks as [|x ks IH]; [done|].
  apply not_elem_of_cons in Hk as [Hne Hk].
  rewrite !filter_cons, IH by done.
  destruct (decide (x ≠ KStr "default" ∧ x ∉ seen ++ [k])) as [[H1 H2]|Hn];
    destruct (decide (x ≠ KStr "default" ∧ x ∉ seen)) as [[H3 H4]|Hn']; try done.
  - exfalso. apply Hn'. split; [done|]. intros Hx. apply H2, elem_of_app. by left.
  - exfalso. apply Hn. split; [done|].
    rewrite not_elem_of_app, list_elem_of_singleton. done.
Qed.

Lemma foldl_push_key keys ks :
  NoDup ks → foldl push_key keys ks = keys ++ introduced keys ks.
Proof.
  intros Hnd. revert keys. induction Hnd as [|k ks Hk Hnd IH]; intros keys; simpl.
  { unfold introduced. rewrite filter_nil. by rewrite app_nil_r. }
  rewrite IH. unfold push_key.
  destruct (decide (k ≠ KStr "default")) as [Hd|Hd];
    [rewrite (bool_decide_eq_true_2 _ Hd)|rewrite (bool_decide_eq_false_2 _ Hd)];
    simpl.
  - destruct (decide (k ∈ keys)) as [Hin|Hin];
      [rewrite (bool_decide_eq_true_2 _ Hin)|rewrite (bool_decide_eq_false_2 _ Hin)];
      simpl.
    + unfold introduced at 2. rewrite filter_cons_False; [done|]. tauto.
    + rewrite introduced_snoc_fresh by done.
      unfold introduced at 2. rewrite filter_cons_True by done.
      by rewrite <- app_assoc.
  - unfold introduced at 2. rewrite filter_cons_False; [done|]. tauto.
Qed.

Lemma introduced_after seen ks1 ks2 :
  introduced (seen ++ introduced seen ks1) ks2 = introduced (seen ++ ks1) ks2.
Proof.
  unfold introduced. apply list_filter_iff. intros k.
  rewrite !not_elem_of_app, list_elem_of_filter. tauto.
Qed.

Lemma NoDup_introduced seen ks : NoDup seen → NoDup ks → NoDup (seen ++ introduced seen ks).
Proof.
  intros H1 H2. apply NoDup_app. split; [done|]. split.
  - intros x Hx. unfold introduced. rewrite list_elem_of_filter. tauto.
  - by apply NoDup_filter.
Qed.

(** The enumeration of the view over a target with own keys [own] and
    two sources with keys [ks1], [ks2]. *)
Lemma handler_ownKeys_two ownKeys target R1 R2 own ks1 ks2 :
  ownKeys target = Some (Normal own) →
  ownKeys R1 = Some (Normal ks1) →
  ownKeys R2 = Some (Normal ks2) →
  NoDup ks1 → NoDup ks2 →
  handler_ownKeys ownKeys [R1; R2] target
  = Some (Normal (own ++ introduced own ks1 ++ introduced (own ++ ks1) ks2)).
Proof.
  intros Ht H1 H2 Hn1 Hn2. unfold handler_ownKeys. rewrite Ht. simpl.
  rewrite H1, H2. rewrite !foldl_push_key by done.
  by rewrite introduced_after, <- app_assoc.
Qed.

(** ** The dynamic view: registration *)

Lemma is_object_typeof st v :
  is_object st v = true → typeof st v = "object" ∧ v ≠ VNull.
Proof.
  destruct v as [| | | | |l]; simpl; try done.
  destruct (heap st !! l) as [c|]; [|done].
  destruct (cell_callable c); done.
Qed.

Lemma is_object_mono st st' v :
  (∀ l c, heap st !! l = Some c → heap st' !! l = Some c) →
  is_object st v = true → is_object st' v = true.
Proof.
  intros Hh. destruct v as [| | | | |l]; simpl; try done.
  destruct (heap st !! l) as [c|] eqn:Hl; [|done].
  by rewrite (Hh _ _ Hl).
Qed.

(** The first dynamic re-export of a module creates the view: a proxy
    over [exports] at a new location, stored in [module.exports] and
    [module.namespaceObject], with a new source array holding [R]. *)
Lemma dynamicExport_first module target R st m ct :
  modules st !! module = Some m →
  REEXPORTED_OBJECTS m = None →
  heap st !! target = Some ct →
  is_object st R = true →
  ∃ st',
    dynamicExport module (VObj target) R st = Some (Normal tt, st') ∧
    heap st' = heap st ++ [CProxy target (cell_callable ct) (length (arrays st))] ∧
    arrays st' = arrays st ++ [[R]] ∧
    modules st' !! module
    = Some (set_exports (VObj (length (heap st)))
              (set_namespaceObject (VObj (length (heap st)))
                 (set_REEXPORTED_OBJECTS (Some (length (arrays st))) m))).
Proof.
  intros Hm Hre Ht HR.
  assert (HR' : is_object
                  (with_heap (heap st ++ [CProxy target (cell_callable ct) (length (arrays st))]) st)
                  R = true).
  { eapply is_object_mono; [|done]. intros l c Hl. simpl. by apply lookup_snoc_Some. }
  apply is_object_typeof in HR' as [Hty Hnn]. simpl in Hty.
  unfold dynamicExport, ensureDynamicExports, newProxy, pushReexported.
  unfold_M. rewrite Hm, Hre. simpl. rewrite Ht, lookup_insert_eq. simpl.
  assert (Hb : bool_decide ((if cell_callable ct then "function" else "object") = "function")
               = cell_callable ct) by (by destruct (cell_callable ct)).
  rewrite Hb.
  destruct R as [| | | | |r]; try done. simpl in *. rewrite Hty. simpl.
  rewrite lookup_insert_eq. simpl. rewrite lookup_snoc.
  eexists. split; [done|]. simpl. rewrite lookup_insert_eq.
  split; [done|]. split; [|done].
  replace (length (arrays st)) with (length (arrays st) + 0) at 1 by lia.
  by rewrite insert_app_r.
Qed.

(** Every later dynamic re-export appends to the source array and
    changes nothing else. *)
Lemma dynamicExport_next module exports R st m a objs :
  modules st !! module = Some m →
  REEXPORTED_OBJECTS m = Some a →
  arrays st !! a = Some objs →
  is_object st R = true →
  ∃ st',
    dynamicExport module exports R st = Some (Normal tt, st') ∧
    heap st' = heap st ∧
    modules st' = modules st ∧
    arrays st' = <[a := objs ++ [R]]> (arrays st).
Proof.
  intros Hm Hre Ha HR. apply is_object_typeof in HR as [Hty Hnn].
  unfold dynamicExport, ensureDynamicExports, pushReexported.
  unfold_M. rewrite Hm, Hre. simpl. rewrite Hty. simpl.
  rewrite bool_decide_eq_true_2 by done. rewrite Hm, Hre, Ha.
  eexists. split; [done|]. done.
Qed.

(** ** The dynamic view: reads and enumeration *)

Lemma handler_get_two hasOwn get target R1 R2 prop v1 :
  hasOwn target prop = Some (Normal false) →
  prop ≠ KStr "default" → prop ≠ KStr "__esModule" →
  get R1 prop = Some (Normal v1) →
  (v1 ≠ VUndefined →
   handler_get hasOwn get [R1; R2] target prop = Some (Normal v1)) ∧
  (v1 = VUndefined →
   ∀ v2, get R2 prop = Some (Normal v2) →
         handler_get hasOwn get [R1; R2] target prop = Some (Normal v2)).
Proof.
  intros Hown Hd He H1. unfold handler_get. rewrite Hown. simpl.
  rewrite !bool_decide_eq_false_2 by done. simpl. rewrite H1.
  split.
  - intros Hv. by rewrite decide_False.
  - intros -> v2 H2. rewrite decide_True by done. rewrite H2.
    destruct (decide (v2 = VUndefined)) as [->|]; done.
Qed.

Lemma Reflect_get_proxy n st p target b a reexported prop :
  heap st !! p = Some (CProxy target b a) →
  arrays st !! a = Some reexported →
  Reflect_get (S n) st (VObj p) prop
  = handler_get (hasOwnProperty n st) (Reflect_get n st) reexported (VObj target) prop.
Proof. intros Hp Ha. simpl. by rewrite Hp, Ha. Qed.

Lemma Reflect_ownKeys_proxy n st p target b a reexported :
  heap st !! p = Some (CProxy target b a) →
  arrays st !! a = Some reexported →
  Reflect_ownKeys (S n) st (VObj p)
  = handler_ownKeys (Reflect_ownKeys n st) reexported (VObj target).
Proof. intros Hp Ha. simpl. by rewrite Hp, Ha. Qed.

Lemma dynamicExport_skips module exports object st :
  typeof st object ≠ "object" ∨ object = VNull →
  dynamicExport module exports object st = ensureDynamicExports module exports st.
Proof.
  intros Hobj. unfold dynamicExport. unfold bind at 1.
  destruct (ensureDynamicExports module exports st) as [[[[]|e] st1]|] eqn:He;
    [|done..].
  unfold bind, query, ret.
  destruct Hobj as [Hty| ->].
  - rewrite (typeof_stable st st1 object); [|by eapply ensureDynamicExports_heap|done].
    rewrite bool_decide_eq_false_2; done.
  - rewrite (bool_decide_eq_false_2 (VNull ≠ VNull)); [|by intros []].
    by rewrite andb_false_r.
Qed.

(** C10. A call of [dynamicExport] whose [object] is not a non-null
    object (its [typeof] is not ["object"], or it is [null]), for a
    module whose [exports] is an object, returns normally and the module
    has its composite view afterwards.
    - When the module had a view already, the call changes nothing at
      all: the source list, and so every read and enumeration through
      the view, is what it was.
    - When it had none, the call creates it: [module.exports] and
      [module.namespaceObject] become a new proxy over [exports] whose
      source list is empty, so a read through it of a property that
      [exports] does not own (other than ["default"] and ["__esModule"],
      which are read off [exports]) gives [undefined], and enumerating it
      gives the own keys of [exports]: [object] is not consulted. *)
Theorem dynamicExport_non_object (module : ModuleId) (target : loc) (object : value)
    (st : State) (m : Module) (ct : Cell) :
  modules st !! module = Some m →
  heap st !! target = Some ct →
  (REEXPORTED_OBJECTS m ≠ None → has_view st m) →
  typeof st object ≠ "object" ∨ object = VNull →
  ∃ st' m',
    dynamicExport module (VObj target) object st = Some (Normal tt, st') ∧
    modules st' !! module = Some m' ∧
    has_view st' m' ∧
    match REEXPORTED_OBJECTS m with
    | Some _ => st' = st
    | None =>
        let view := length (heap st) in
        let sources := length (arrays st) in
        heap st' = heap st ++ [CProxy target (cell_callable ct) sources] ∧
        arrays st' = arrays st ++ [[]] ∧
        m' = set_exports (VObj view)
               (set_namespaceObject (VObj view)
                  (set_REEXPORTED_OBJECTS (Some sources) m)) ∧
        reexported_of st' module = Some [] ∧
        (∀ n prop own,
            hasOwnProperty n st' (VObj target) prop = Some (Normal own) →
            Reflect_get (S n) st' (VObj view) prop
            = if own || bool_decide (prop = KStr "default")
                     || bool_decide (prop = KStr "__esModule")
              then Reflect_get n st' (VObj target) prop
              else Some (Normal VUndefined)) ∧
        (∀ n, Reflect_ownKeys (S n) st' (VObj view)
              = Reflect_ownKeys n st' (VObj target))
    end.
Proof.
  intros Hm Ht Hinv Hobj.
  rewrite (dynamicExport_skips module (VObj target) object st Hobj).
  unfold ensureDynamicExports, newProxy. unfold_M. rewrite Hm.
  destruct (REEXPORTED_OBJECTS m) as [a|] eqn:Ha.
  { exists st, m. split; [done|]. split; [done|]. split; [|done].
    apply Hinv. done. }
  simpl. rewrite Ht, lookup_insert_eq. simpl.
  assert (Hb : bool_decide ((if cell_callable ct then "function" else "object") = "function")
               = cell_callable ct) by (by destruct (cell_callable ct)).
  rewrite Hb. eexists _, _. split; [done|]. simpl. rewrite lookup_insert_eq.
  split; [done|].
  assert (Hp : (heap st ++ [CProxy target (cell_callable ct) (length (arrays st))])
               !! length (heap st)
               = Some (CProxy target (cell_callable ct) (length (arrays st))))
    by apply lookup_snoc.
  assert (Harr : (arrays st ++ [[]]) !! length (arrays st) = Some [])
    by apply lookup_snoc.
  split.
  { exists (length (arrays st)), (length (heap st)), target, (cell_callable ct).
    split; [done|]. exact Hp. }
  split; [done|]. split; [done|]. split; [done|]. split.
  { unfold reexported_of. simpl. rewrite lookup_insert_eq. simpl. exact Harr. }
  split.
  - intros n prop own Hown. rewrite Hp, Harr.
    unfold handler_get. by rewrite Hown.
  - intros n. rewrite Hp, Harr. unfold handler_ownKeys. simpl.
    match goal with
    | |- context [Reflect_ownKeys n ?s (VObj target)] =>
        by destruct (Reflect_ownKeys n s (VObj target)) as [[]|]
    end.
Qed.

(** C4. A module without a dynamic view registers the sources [R1], then
    [R2], with [dynamicExport].  Its exports are then the view, and
    - reading through the view a property that the target does not own
      and that is neither ["default"] nor ["__esModule"] gives what
      [Reflect.get] gives on [R1] when that is not [undefined], and
      otherwise what it gives on [R2] ([undefined] when [R2] has nothing
      either);
    - enumerating the view gives the target's own keys, then the keys
      [R1] introduces, then the keys [R2] introduces, ["default"] never
      being introduced by a source, and no key is listed twice. *)
Theorem dynamic_view_precedence (module : ModuleId) (target : loc)
    (R1 R2 : value) (st0 : State) (m : Module) (ct : Cell) :
  modules st0 !! module = Some m →
  REEXPORTED_OBJECTS m = None →
  heap st0 !! target = Some ct →
  is_object st0 R1 = true →
  is_object st0 R2 = true →
  ∃ st1 st2,
    dynamicExport module (VObj target) R1 st0 = Some (Normal tt, st1) ∧
    dynamicExport module (VObj target) R2 st1 = Some (Normal tt, st2) ∧
    let view := VObj (length (heap st0)) in
    exports_of <$> modules st2 !! module = Some view ∧
    (∀ n prop v1,
        hasOwnProperty n st2 (VObj target) prop = Some (Normal false) →
        prop ≠ KStr "default" → prop ≠ KStr "__esModule" →
        Reflect_get n st2 R1 prop = Some (Normal v1) →
        (v1 ≠ VUndefined →
         Reflect_get (S n) st2 view prop = Some (Normal v1)) ∧
        (v1 = VUndefined →
         ∀ v2, Reflect_get n st2 R2 prop = Some (Normal v2) →
               Reflect_get (S n) st2 view prop = Some (Normal v2))) ∧
    (∀ n own ks1 ks2,
        Reflect_ownKeys n st2 (VObj target) = Some (Normal own) →
        Reflect_ownKeys n st2 R1 = Some (Normal ks1) →
        Reflect_ownKeys n st2 R2 = Some (Normal ks2) →
        NoDup own → NoDup ks1 → NoDup ks2 →
        Reflect_ownKeys (S n) st2 view
        = Some (Normal (own ++ introduced own ks1 ++ introduced (own ++ ks1) ks2)) ∧
        NoDup (own ++ introduced own ks1 ++ introduced (own ++ ks1) ks2)).
Proof.
  intros Hm Hre Ht HR1 HR2.
  destruct (dynamicExport_first module target R1 st0 m ct Hm Hre Ht HR1)
    as (st1 & E1 & Hh1 & Ha1 & Hm1).
  assert (HR2' : is_object st1 R2 = true).
  { eapply is_object_mono; [|done]. intros l c Hl. rewrite Hh1.
    by apply lookup_snoc_Some. }
  destruct (dynamicExport_next module (VObj target) R2 st1 _ (length (arrays st0)) [R1]
              Hm1 eq_refl) as (st2 & E2 & Hh2 & Hm2 & Ha2); [|done|].
  { rewrite Ha1. apply lookup_snoc. }
  exists st1, st2. split; [done|]. split; [done|]. cbv zeta.
  assert (Hp : heap st2 !! length (heap st0)
               = Some (CProxy target (cell_callable ct) (length (arrays st0)))).
  { rewrite Hh2, Hh1. apply lookup_snoc. }
  assert (Ha : arrays st2 !! length (arrays st0) = Some [R1; R2]).
  { rewrite Ha2, Ha1. apply list_lookup_insert_eq. rewrite length_app. simpl. lia. }
  split. { by rewrite Hm2, Hm1. }
  split.
  - intros n prop v1 Hown Hd He H1.
    rewrite (Reflect_get_proxy _ _ _ _ _ _ _ _ Hp Ha).
    by apply handler_get_two.
  - intros n own ks1 ks2 Ho H1 H2 Hno Hn1 Hn2.
    rewrite (Reflect_ownKeys_proxy _ _ _ _ _ _ _ Hp Ha).
    split; [by apply handler_ownKeys_two|].
    rewrite app_assoc, <- introduced_after.
    apply NoDup_introduced; [|done]. by apply NoDup_introduced.
Qed.

(** ** [interopEsm]: the names it collects *)

Lemma set_getter_keys gs key g key' :
  key' ∈ (set_getter gs key g).*1 ↔ key' = key ∨ key' ∈ gs.*1.
Proof.
  induction gs as [|[k g'] gs IH]; simpl.
  - rewrite list_elem_of_singleton, elem_of_nil. tauto.
  - destruct (decide (k = key)) as [->|Hne]; simpl.
    + rewrite !elem_of_cons. tauto.
    + rewrite !elem_of_cons, IH. tauto.
Qed.

Lemma set_getter_NoDup gs key g : NoDup gs.*1 → NoDup (set_getter gs key g).*1.
Proof.
  induction gs as [|[k g'] gs IH]; simpl; intros Hnd.
  - apply NoDup_singleton.
  - apply NoDup_cons in Hnd as [Hk Hnd].
    destruct (decide (k = key)) as [->|Hne]; simpl.
    + by apply NoDup_cons.
    + apply NoDup_cons. split; [|by apply IH].
      rewrite set_getter_keys. intros [?|?]; done.
Qed.

Lemma set_getter_Forall (P : string * Getter → Prop) gs key g :
  P (key, g) → Forall P gs → Forall P (set_getter gs key g).
Proof.
  intros Hp. induction 1 as [|[k g'] gs Hx Hgs IH]; simpl.
  - by repeat constructor.
  - destruct (decide (k = key)) as [->|Hne]; constructor; done.
Qed.

Lemma set_getter_getters_of raw gs key :
  getters_of raw gs → getters_of raw (set_getter gs key (createGetter raw (KStr key))).
Proof.
  intros [Hnd Hall]. split; [by apply set_getter_NoDup|].
  by apply set_getter_Forall.
Qed.

Lemma collect_names raw names gs :
  getters_of raw gs →
  let gs' := foldl (λ gs key, set_getter gs key (createGetter raw (KStr key))) gs names in
  getters_of raw gs' ∧ ∀ key, key ∈ gs'.*1 ↔ key ∈ gs.*1 ∨ key ∈ names.
Proof.
  revert gs. induction names as [|name names IH]; intros gs Hgs; simpl.
  - split; [done|]. intros key. rewrite elem_of_nil. tauto.
  - destruct (IH _ (set_getter_getters_of raw gs name Hgs)) as [H1 H2].
    split; [done|]. intros key. rewrite H2, set_getter_keys, elem_of_cons. tauto.
Qed.

Lemma getOwnPropertyNames_cell n st l c :
  heap st !! l = Some c → is_proxy c = false →
  getOwnPropertyNames n st (VObj l) = Some (Normal (own_names c)).
Proof. intros Hl Hp. unfold getOwnPropertyNames. rewrite Hl. by destruct c. Qed.

Lemma getProto_cell n st l c :
  heap st !! l = Some c → is_proxy c = false →
  getProto n st (VObj l) = Some (Normal (cell_proto c)).
Proof. intros Hl Hp. destruct n; simpl; rewrite Hl; by destruct c. Qed.

Lemma typeof_object_or_function st l :
  bool_decide (typeof st (VObj l) = "object")
  || bool_decide (typeof st (VObj l) = "function") = true.
Proof.
  simpl. destruct (heap st !! l) as [c|]; [|done].
  destruct (cell_callable c); done.
Qed.

Lemma interopEsm_loop_stops fuel st raw v gs :
  (∀ l, v = VObj l → v ∈ LEAF_PROTOTYPES) →
  interopEsm_loop fuel st raw v gs = Some (Normal gs).
Proof.
  intros Hend.
  assert (Hc : (bool_decide (typeof st v = "object")
                || bool_decide (typeof st v = "function"))
               && negb (bool_decide (v ∈ LEAF_PROTOTYPES)) = false).
  { destruct v as [| | | | |l]; try done.
    rewrite (bool_decide_eq_true_2 _ (Hend l eq_refl)). by rewrite andb_false_r. }
  destruct fuel; simpl; by rewrite Hc.
Qed.

Lemma interopEsm_loop_chain (fuel : nat) st raw current levels gs :
  prototype_chain st current levels →
  (length levels ≤ fuel)%nat →
  getters_of raw gs →
  ∃ gs', interopEsm_loop fuel st raw current gs = Some (Normal gs') ∧
         getters_of raw gs' ∧
         ∀ key, key ∈ gs'.*1 ↔ key ∈ gs.*1 ∨ ∃ c, c ∈ levels ∧ key ∈ own_names c.
Proof.
  intros Hchain. revert fuel gs.
  induction Hchain as [v Hend|l c levels Hleaf Hl Hp Hchain IH]; intros fuel gs Hfuel Hgs.
  - exists gs. split; [by apply interopEsm_loop_stops|]. split; [done|].
    intros key. split; [tauto|]. intros [?|(c & Hc & _)]; [done|].
    by apply elem_of_nil in Hc.
  - destruct fuel as [|n]; [simpl in Hfuel; lia|]. simpl in Hfuel.
    destruct (collect_names raw (own_names c) gs Hgs) as [Hgs1 Hkeys1].
    destruct (IH n _ ltac:(lia) Hgs1) as (gs' & Hrun & Hgs' & Hkeys').
    exists gs'. split; [|split; [done|]].
    + cbn [interopEsm_loop]. rewrite typeof_object_or_function.
      rewrite (bool_decide_eq_false_2 _ Hleaf). simpl andb. cbv iota.
      rewrite (getOwnPropertyNames_cell _ _ _ _ Hl Hp).
      rewrite (getProto_cell _ _ _ _ Hl Hp). exact Hrun.
    + intros key. rewrite Hkeys', Hkeys1. split.
      * intros [[?|?]|(c' & Hc' & ?)]; [by left|right..].
        -- exists c. split; [apply elem_of_cons; by left|done].
        -- exists c'. split; [apply elem_of_cons; by right|done].
      * intros [?|(c' & Hc' & ?)]; [by left; left|].
        apply elem_of_cons in Hc' as [->|Hc']; [by left; right|].
        right. by exists c'.
Qed.

(** ** [esm] on an ordinary object *)

Lemma lookup_insert_string_prop k s p ps :
  lookup_prop (KStr s) ps = None →
  lookup_prop k (insert_string_prop (KStr s, p) ps)
  = if decide (k = KStr s) then Some p else lookup_prop k ps.
Proof.
  induction ps as [|[k' q] ps IH]; simpl; intros Hnone.
  - repeat case_decide; congruence.
  - destruct (decide (k' = KStr s)) as [->|Hne]; [done|].
    destruct k' as [s'|y]; simpl; [rewrite IH by done|];
      repeat case_decide; congruence.
Qed.

Lemma lookup_snoc_prop k k' p ps :
  lookup_prop k' ps = None →
  lookup_prop k (ps ++ [(k', p)])
  = if decide (k = k') then Some p else lookup_prop k ps.
Proof.
  induction ps as [|[k0 q] ps IH]; simpl; intros Hnone.
  - repeat case_decide; congruence.
  - destruct (decide (k0 = k')) as [->|Hne]; [done|].
    rewrite IH by done. repeat case_decide; congruence.
Qed.

Lemma lookup_add_prop k k' p ps :
  lookup_prop k' ps = None →
  lookup_prop k (add_prop k' p ps)
  = if decide (k = k') then Some p else lookup_prop k ps.
Proof.
  destruct k'; simpl; [apply lookup_insert_string_prop|apply lookup_snoc_prop].
Qed.

Lemma lookup_define_absent k ps kp :
  lookup_prop k (define_absent ps kp)
  = match lookup_prop k ps with
    | Some q => Some q
    | None => if decide (k = kp.1) then Some kp.2 else None
    end.
Proof.
  unfold define_absent. destruct (lookup_prop kp.1 ps) as [q|] eqn:Hk; simpl.
  - destruct (lookup_prop k ps) eqn:Hk'; [done|].
    destruct (decide (k = kp.1)) as [->|]; congruence.
  - rewrite lookup_add_prop by done.
    destruct (decide (k = kp.1)) as [->|]; [by rewrite Hk|].
    by destruct (lookup_prop k ps).
Qed.

Lemma lookup_foldl_define_absent k defs ps :
  lookup_prop k (foldl define_absent ps defs)
  = match lookup_prop k ps with
    | Some q => Some q
    | None => lookup_prop k defs
    end.
Proof.
  revert ps. induction defs as [|[k' p] defs IH]; intros ps; simpl.
  - by destruct (lookup_prop k ps).
  - rewrite IH, lookup_define_absent. simpl.
    destruct (lookup_prop k ps); [done|].
    destruct (decide (k = k')), (decide (k' = k)); congruence.
Qed.

Lemma hasOwnProperty_object fuel st l o k :
  heap st !! l = Some (CObject o) →
  hasOwnProperty fuel st (VObj l) k = Some (Normal (isSome (lookup_prop k (props o)))).
Proof. intros Hl. destruct fuel; simpl; by rewrite Hl. Qed.

Lemma defineProp_object fuel st l o k p :
  heap st !! l = Some (CObject o) →
  ∃ st', defineProp fuel (VObj l) k p st = Some (Normal tt, st') ∧
         heap st' = <[l := CObject (set_props (define_absent (props o) (k, p)) o)]> (heap st).
Proof.
  intros Hl. unfold defineProp, bind, query, ret.
  rewrite (hasOwnProperty_object _ _ _ _ _ Hl). unfold define_absent. simpl.
  destruct (isSome (lookup_prop k (props o))) eqn:Hown; simpl.
  - exists st. split; [done|]. symmetry. destruct o. by apply list_insert_id.
  - destruct fuel; simpl; rewrite Hl; eauto.
Qed.

Lemma esm_getters_object fuel st l o getters :
  heap st !! l = Some (CObject o) →
  ∃ st', esm_getters fuel (VObj l) getters st = Some (Normal tt, st') ∧
         heap st' = <[l := CObject (set_props
                       (foldl define_absent (props o)
                          ((λ kg : string * Getter, (KStr kg.1, AccessorProp kg.2 true))
                             <$> getters)) o)]> (heap st).
Proof.
  revert st o. induction getters as [|[key g] rest IH]; intros st o Hl; simpl.
  - exists st. split; [done|]. symmetry. destruct o. by apply list_insert_id.
  - destruct (defineProp_object fuel st l o (KStr key) (AccessorProp g true) Hl)
      as (st1 & Hd & Hh1).
    unfold bind. rewrite Hd.
    assert (Hl1 : heap st1 !! l
                  = Some (CObject (set_props (define_absent (props o)
                                     (KStr key, AccessorProp g true)) o))).
    { rewrite Hh1. apply list_lookup_insert_eq. by eapply lookup_lt_Some. }
    destruct (IH st1 _ Hl1) as (st' & Hrun & Hh'). exists st'. split; [done|].
    rewrite Hh', Hh1, list_insert_insert_eq. done.
Qed.

Lemma esm_object fuel st l o getters :
  heap st !! l = Some (CObject o) →
  ∃ st', esm fuel (VObj l) getters st = Some (Normal tt, st') ∧
         heap st' = <[l := CObject (set_props
                       (foldl define_absent (props o) (esm_definitions getters)) o)]>
                      (heap st).
Proof.
  intros Hl. unfold esm, toStringTag.
  destruct (defineProp_object fuel st l o (KStr "__esModule")
              (DataProp (VBool true) false) Hl) as (st1 & Hd1 & Hh1).
  unfold bind at 1. rewrite Hd1.
  assert (Hl1 : heap st1 !! l
                = Some (CObject (set_props (define_absent (props o)
                          (KStr "__esModule", DataProp (VBool true) false)) o))).
  { rewrite Hh1. apply list_lookup_insert_eq. by eapply lookup_lt_Some. }
  destruct (defineProp_object fuel st1 l _ (KSym SymToStringTag)
              (DataProp (VStr "Module") false) Hl1) as (st2 & Hd2 & Hh2).
  unfold bind. rewrite Hd2.
  assert (Hl2 : heap st2 !! l
                = Some (CObject (set_props (define_absent
                          (define_absent (props o)
                             (KStr "__esModule", DataProp (VBool true) false))
                          (KSym SymToStringTag, DataProp (VStr "Module") false)) o))).
  { rewrite Hh2. apply list_lookup_insert_eq. rewrite Hh1, length_insert.
    by eapply lookup_lt_Some. }
  destruct (esm_getters_object fuel st2 l _ getters Hl2) as (st' & Hrun & Hh').
  exists st'. split; [done|].
  rewrite Hh', Hh2, Hh1, !list_insert_insert_eq. done.
Qed.

Lemma lookup_set_getter_eq key gs g : lookup_getter key (set_getter gs key g) = Some g.
Proof.
  induction gs as [|[k g'] gs IH]; simpl.
  - by rewrite decide_True.
  - destruct (decide (k = key)) as [->|Hne]; simpl.
    + by rewrite decide_True.
    + by rewrite decide_False.
Qed.

Lemma lookup_set_getter_ne key key' gs g :
  key ≠ key' → lookup_getter key (set_getter gs key' g) = lookup_getter key gs.
Proof.
  intros Hne. induction gs as [|[k g'] gs IH]; simpl.
  - by rewrite decide_False.
  - destruct (decide (k = key')) as [->|Hne']; simpl.
    + by rewrite !decide_False.
    + by rewrite IH.
Qed.

Lemma lookup_getter_Forall (P : string * Getter → Prop) key gs :
  key ∈ gs.*1 → Forall P gs → ∃ g, lookup_getter key gs = Some g ∧ P (key, g).
Proof.
  intros Hin Hall. induction Hall as [|[k g] gs Hx Hall IH]; simpl in *.
  - by apply elem_of_nil in Hin.
  - destruct (decide (k = key)) as [->|Hne]; [by eauto|].
    apply elem_of_cons in Hin as [?|Hin]; [congruence|]. by apply IH.
Qed.

Lemma lookup_getter_elem key g gs : lookup_getter key gs = Some g → (key, g) ∈ gs.
Proof.
  induction gs as [|[k g'] gs IH]; simpl; [done|].
  destruct (decide (k = key)) as [->|Hne].
  - intros [= ->]. apply elem_of_cons. by left.
  - intros H. apply elem_of_cons. right. by apply IH.
Qed.

Lemma lookup_getter_fmap key gs :
  lookup_prop (KStr key)
    ((λ kg : string * Getter, (KStr kg.1, AccessorProp kg.2 true)) <$> gs)
  = (λ g, AccessorProp g true) <$> lookup_getter key gs.
Proof.
  induction gs as [|[k g] gs IH]; simpl; [done|].
  destruct (decide (k = key)) as [->|Hne].
  - by rewrite decide_True.
  - rewrite decide_False by congruence. done.
Qed.

Lemma lookup_esm_definitions key getters :
  key ≠ "__esModule" →
  lookup_prop (KStr key) (esm_definitions getters)
  = (λ g, AccessorProp g true) <$> lookup_getter key getters.
Proof.
  intros Hne. unfold esm_definitions. simpl.
  rewrite decide_False by congruence. apply lookup_getter_fmap.
Qed.

Lemma chain_owns_spec levels key :
  chain_owns levels key = true ↔ ∃ c, c ∈ levels ∧ key ∈ own_names c.
Proof.
  unfold chain_owns. induction levels as [|c levels IH]; simpl.
  - split; [done|]. intros (c & Hc & _). by apply elem_of_nil in Hc.
  - rewrite orb_true_iff, IH, bool_decide_eq_true. split.
    + intros [?|(c' & ? & ?)].
      * exists c. split; [apply elem_of_cons; by left|done].
      * exists c'. split; [apply elem_of_cons; by right|done].
    + intros (c' & Hc' & ?). apply elem_of_cons in Hc' as [->|?]; [by left|].
      right. by exists c'.
Qed.

(** What [interopEsm] does to a namespace object [ns] that owns nothing
    yet, for a [raw] whose chain is [levels]. *)
Lemma interopEsm_object (fuel : nat) st raw ns o allow levels :
  heap st !! ns = Some (CObject o) →
  props o = [] →
  prototype_chain st raw levels →
  (length levels ≤ fuel)%nat →
  ∃ collected st' o',
    interopEsm_loop fuel st raw raw [] = Some (Normal collected) ∧
    getters_of raw collected ∧
    (∀ key, key ∈ collected.*1 ↔ ∃ c, c ∈ levels ∧ key ∈ own_names c) ∧
    interopEsm fuel raw (VObj ns) allow st = Some (Normal (VObj ns), st') ∧
    heap st' !! ns = Some (CObject o') ∧
    ∀ key, key ≠ "__esModule" →
      lookup_prop (KStr key) (props o')
      = (λ g, AccessorProp g true)
          <$> lookup_getter key
                (if negb (truthy allow && has_getter collected "default")
                 then set_getter collected "default" (RawGetter raw)
                 else collected).
Proof.
  intros Hns Hprops Hchain Hfuel.
  destruct (interopEsm_loop_chain fuel st raw raw levels [] Hchain Hfuel)
    as (collected & Hloop & Hgs & Hkeys).
  { split; [apply NoDup_nil_2|apply Forall_nil_2]. }
  set (getters := if negb (truthy allow && has_getter collected "default")
                  then set_getter collected "default" (RawGetter raw)
                  else collected).
  destruct (esm_object fuel st ns o getters Hns) as (st' & Hesm & Hh').
  eexists collected, st', _. split; [done|]. split; [done|]. split.
  { intros key. rewrite Hkeys. simpl. rewrite elem_of_nil. tauto. }
  split.
  { unfold interopEsm, bind, query, ret. rewrite Hloop. fold getters. by rewrite Hesm. }
  split.
  { rewrite Hh'. apply list_lookup_insert_eq. by eapply lookup_lt_Some. }
  intros key Hne. unfold set_props. cbn [props].
  rewrite lookup_foldl_define_absent, Hprops. cbn [lookup_prop].
  by apply lookup_esm_definitions.
Qed.

Lemma Reflect_get_create_getter n st l o k r key e :
  heap st !! l = Some (CObject o) →
  lookup_prop k (props o) = Some (AccessorProp (CreateGetter (VObj r) key) e) →
  Reflect_get (S n) st (VObj l) k = Reflect_get n st (VObj r) key.
Proof. intros Hl Hk. cbn [Reflect_get]. rewrite Hl. cbn [own_property]. by rewrite Hk. Qed.

Lemma Reflect_get_raw_getter n st l o k raw e :
  heap st !! l = Some (CObject o) →
  lookup_prop k (props o) = Some (AccessorProp (RawGetter raw) e) →
  Reflect_get n st (VObj l) k = Some (Normal raw).
Proof. intros Hl Hk. destruct n; cbn [Reflect_get]; rewrite Hl; cbn [own_property]; by rewrite Hk. Qed.

Lemma prototype_chain_raw st raw levels c :
  prototype_chain st raw levels → c ∈ levels → ∃ l, raw = VObj l.
Proof.
  intros Hchain Hc. destruct Hchain; [by apply elem_of_nil in Hc|eauto].
Qed.

(** ** [interopEsm]: the levels it expands *)

Lemma getProto_fuel_mono st : ∀ n m v r,
  n ≤ m → getProto n st v = Some r → getProto m st v = Some r.
Proof.
  induction n as [|n IH]; intros m v r Hle H.
  - destruct m; destruct v as [| | | | |l]; simpl in *; try done;
      destruct (heap st !! l) as [[]|]; done.
  - destruct m as [|m]; [lia|]. destruct v as [| | | | |l]; simpl in *; try done.
    destruct (heap st !! l) as [[]|]; try done. apply IH; [lia|done].
Qed.

Lemma ownKeys_from_reexported_mono
    (ownKeys ownKeys' : value → option (completion (list PropertyKey))) reexported :
  (∀ o r, ownKeys o = Some r → ownKeys' o = Some r) →
  ∀ keys r, ownKeys_from_reexported ownKeys reexported keys = Some r →
            ownKeys_from_reexported ownKeys' reexported keys = Some r.
Proof.
  intros Hk. induction reexported as [|obj rest IH]; intros keys r; simpl; [done|].
  destruct (ownKeys obj) as [[ks|e]|] eqn:Ho; [| |done].
  - rewrite (Hk _ _ Ho). apply IH.
  - by rewrite (Hk _ _ Ho).
Qed.

Lemma Reflect_ownKeys_fuel_mono st : ∀ n m o r,
  n ≤ m → Reflect_ownKeys n st o = Some r → Reflect_ownKeys m st o = Some r.
Proof.
  induction n as [|n IH]; intros m o r Hle H.
  - destruct m; destruct o as [| | | | |l]; simpl in *; try done;
      destruct (heap st !! l) as [[]|]; done.
  - destruct m as [|m]; [lia|]. destruct o as [| | | | |l]; simpl in *; try done.
    destruct (heap st !! l) as [[ob|target b a|? ? ?|?|?|?]|]; try done.
    destruct (arrays st !! a) as [objs|]; [|done].
    assert (Hrec : ∀ o r, Reflect_ownKeys n st o = Some r → Reflect_ownKeys m st o = Some r).
    { intros. apply (IH m); [lia|done]. }
    unfold handler_ownKeys in *.
    destruct (Reflect_ownKeys n st (VObj target)) as [[keys|e]|] eqn:Ht; [| |done].
    + rewrite (Hrec _ _ Ht). by apply (ownKeys_from_reexported_mono (Reflect_ownKeys n st)).
    + by rewrite (Hrec _ _ Ht).
Qed.

Lemma getOwnPropertyNames_fuel_mono st n m o r :
  n ≤ m → getOwnPropertyNames n st o = Some r → getOwnPropertyNames m st o = Some r.
Proof.
  intros Hle. unfold getOwnPropertyNames. destruct o as [| | | | |l]; try done.
  destruct (heap st !! l) as [[]|]; try done.
  destruct (Reflect_ownKeys n st (VObj l)) as [x|] eqn:Hk; [|done].
  by rewrite (Reflect_ownKeys_fuel_mono st n m _ _ Hle Hk).
Qed.

Lemma base_prototype_leaf v :
  v ∈ LEAF_PROTOTYPES ↔ v = VNull ∨ base_prototype v.
Proof.
  unfold LEAF_PROTOTYPES, base_prototype. rewrite !elem_of_cons, elem_of_nil. tauto.
Qed.

Lemma interopEsm_loop_levels st raw current levels :
  levels_below_base st current levels →
  ∀ gs, getters_of raw gs →
  ∃ fuel0, ∀ fuel, fuel0 ≤ fuel →
    ∃ gs', interopEsm_loop fuel st raw current gs = Some (Normal gs') ∧
           getters_of raw gs' ∧
           ∀ key, key ∈ gs'.*1 ↔ key ∈ gs.*1 ∨ ∃ names, names ∈ levels ∧ key ∈ names.
Proof.
  induction 1 as [v Hend|l names next rest Hbase [[n1 Hnames] [n2 Hnext]] Hrest IH];
    intros gs Hgs.
  - exists 0. intros fuel _. exists gs. split.
    { apply interopEsm_loop_stops. intros l Hl. apply base_prototype_leaf. right. eauto. }
    split; [done|]. intros key. split; [tauto|].
    intros [?|(names & Hn & _)]; [done|]. by apply elem_of_nil in Hn.
  - destruct (collect_names raw names gs Hgs) as [Hgs1 Hkeys1].
    destruct (IH _ Hgs1) as (fuel0 & Hrun).
    exists (S (Nat.max (Nat.max n1 n2) fuel0)). intros fuel Hfuel.
    destruct fuel as [|n]; [lia|].
    destruct (Hrun n ltac:(lia)) as (gs' & Hloop & Hgs' & Hkeys').
    exists gs'. split; [|split; [done|]].
    + cbn [interopEsm_loop]. rewrite typeof_object_or_function.
      rewrite bool_decide_eq_false_2.
      2:{ intros Hleaf. apply base_prototype_leaf in Hleaf as [?|?]; done. }
      simpl andb. cbv iota.
      rewrite (getOwnPropertyNames_fuel_mono st n1 n _ _ ltac:(lia) Hnames).
      rewrite (getProto_fuel_mono st n2 n _ _ ltac:(lia) Hnext). exact Hloop.
    + intros key. rewrite Hkeys', Hkeys1. split.
      * intros [[?|?]|(ns & Hns & ?)]; [by left|right..].
        -- exists names. split; [apply elem_of_cons; by left|done].
        -- exists ns. split; [apply elem_of_cons; by right|done].
      * intros [?|(ns & Hns & ?)]; [by left; left|].
        apply elem_of_cons in Hns as [->|Hns]; [by left; right|].
        right. by exists ns.
Qed.

(** What [interopEsm] does to a namespace object that owns nothing yet,
    once its loop has collected [collected]. *)
Lemma interopEsm_fresh fuel st raw ns o allow collected :
  heap st !! ns = Some (CObject o) →
  props o = [] →
  interopEsm_loop fuel st raw raw [] = Some (Normal collected) →
  ∃ st' o',
    interopEsm fuel raw (VObj ns) allow st = Some (Normal (VObj ns), st') ∧
    heap st' !! ns = Some (CObject o') ∧
    ∀ key, key ≠ "__esModule" →
      lookup_prop (KStr key) (props o')
      = (λ g, AccessorProp g true)
          <$> lookup_getter key
                (if negb (truthy allow && has_getter collected "default")
                 then set_getter collected "default" (RawGetter raw)
                 else collected).
Proof.
  intros Hns Hprops Hloop.
  set (getters := if negb (truthy allow && has_getter collected "default")
                  then set_getter collected "default" (RawGetter raw)
                  else collected).
  destruct (esm_object fuel st ns o getters Hns) as (st' & Hesm & Hh').
  eexists st', _. split.
  { unfold interopEsm, bind, query, ret. rewrite Hloop. fold getters. by rewrite Hesm. }
  split.
  { rewrite Hh'. apply list_lookup_insert_eq. by eapply lookup_lt_Some. }
  intros key Hne. unfold set_props. cbn [props].
  rewrite lookup_foldl_define_absent, Hprops. cbn [lookup_prop].
  by apply lookup_esm_definitions.
Qed.

Lemma levels_below_base_raw st raw levels names :
  levels_below_base st raw levels → names ∈ levels → ∃ l, raw = VObj l.
Proof.
  intros Hchain Hc. destruct Hchain; [by apply elem_of_nil in Hc|eauto].
Qed.

(** C6. [levels] being the own property names of the objects on the
    prototype chain of [raw], level by level from [raw] itself up to and
    excluding the first value that is no object or is the shared base
    prototype of plain objects, of arrays or of functions, the loop of
    [interopEsm] terminates, with enough fuel, and collects exactly the
    names of those levels, each once and each with the getter
    [createGetter(raw, name)]; started at a base prototype it collects
    nothing, so no base prototype is ever expanded.  On a fresh namespace
    object every collected name other than ["default"] and
    ["__esModule"] is then an accessor that reads the property off [raw]
    at the time of the read. *)
Theorem interopEsm_collects (st : State) (raw : value) (ns : loc)
    (o : Object) (allow : value) (levels : list (list string)) :
  heap st !! ns = Some (CObject o) →
  props o = [] →
  levels_below_base st raw levels →
  (∀ fuel v gs, base_prototype v → interopEsm_loop fuel st raw v gs = Some (Normal gs)) ∧
  ∃ fuel0, ∀ fuel, fuel0 ≤ fuel →
    ∃ collected st',
      interopEsm_loop fuel st raw raw [] = Some (Normal collected) ∧
      NoDup collected.*1 ∧
      (∀ key, key ∈ collected.*1 ↔ ∃ names, names ∈ levels ∧ key ∈ names) ∧
      (∀ key g, (key, g) ∈ collected → g = createGetter raw (KStr key)) ∧
      interopEsm fuel raw (VObj ns) allow st = Some (Normal (VObj ns), st') ∧
      (∀ key, key ∈ collected.*1 → key ≠ "default" → key ≠ "__esModule" →
              ∀ n, Reflect_get (S n) st' (VObj ns) (KStr key)
                   = Reflect_get n st' raw (KStr key)).
Proof.
  intros Hns Hprops Hchain. split.
  { intros fuel v gs Hbase. apply interopEsm_loop_stops.
    intros l _. apply base_prototype_leaf. by right. }
  destruct (interopEsm_loop_levels st raw raw levels Hchain [])
    as (fuel0 & Hrun).
  { split; [apply NoDup_nil_2|apply Forall_nil_2]. }
  exists fuel0. intros fuel Hfuel.
  destruct (Hrun fuel Hfuel) as (collected & Hloop & [Hnd Hall] & Hkeys).
  destruct (interopEsm_fresh fuel st raw ns o allow collected Hns Hprops Hloop)
    as (st' & o' & Hesm & Hns' & Hlook).
  exists collected, st'. split; [done|]. split; [done|]. split.
  { intros key. rewrite Hkeys. simpl. rewrite elem_of_nil. tauto. }
  split.
  { intros key g Hin. rewrite Forall_forall in Hall. by apply (Hall (key, g)). }
  split; [done|].
  intros key Hin Hd He n.
  destruct (proj1 (Hkeys key) Hin) as [Hnil|(names & Hnames & _)];
    [by apply elem_of_nil in Hnil|].
  destruct (levels_below_base_raw _ _ _ _ Hchain Hnames) as [r ->].
  destruct (lookup_getter_Forall _ key collected Hin Hall) as (g & Hg & Hgeq).
  simpl in Hgeq. subst g.
  eapply Reflect_get_create_getter; [done|].
  rewrite Hlook by done.
  destruct (negb _); [rewrite lookup_set_getter_ne by done|]; by rewrite Hg.
Qed.

Lemma has_getter_chain_owns collected levels key :
  (∀ key, key ∈ collected.*1 ↔ ∃ c, c ∈ levels ∧ key ∈ own_names c) →
  has_getter collected key = chain_owns levels key.
Proof.
  intros Hkeys. unfold has_getter.
  destruct (chain_owns levels key) eqn:Hc.
  - apply bool_decide_eq_true. apply Hkeys. by apply chain_owns_spec.
  - apply bool_decide_eq_false. intros Hin. apply Hkeys in Hin.
    apply chain_owns_spec in Hin. congruence.
Qed.

(** C5, as the code has it.  On a fresh namespace object, [interopEsm]
    with a falsy [allowExportDefault] makes [default] read [raw] itself.
    With a truthy one, [default] reads [raw.default] when the name
    ["default"] is owned by [raw] or by any other level of its prototype
    chain below the leaf prototypes; otherwise [default] reads [raw]. *)
Theorem interopEsm_default (fuel : nat) (st : State) (raw : value) (ns : loc)
    (o : Object) (allow : value) (levels : list Cell) :
  heap st !! ns = Some (CObject o) →
  props o = [] →
  prototype_chain st raw levels →
  (length levels ≤ fuel)%nat →
  ∃ st',
    interopEsm fuel raw (VObj ns) allow st = Some (Normal (VObj ns), st') ∧
    if truthy allow && chain_owns levels "default"
    then ∀ n, Reflect_get (S n) st' (VObj ns) (KStr "default")
              = Reflect_get n st' raw (KStr "default")
    else ∀ n, Reflect_get n st' (VObj ns) (KStr "default") = Some (Normal raw).
Proof.
  intros Hns Hprops Hchain Hfuel.
  destruct (interopEsm_object fuel st raw ns o allow levels Hns Hprops Hchain Hfuel)
    as (collected & st' & o' & Hloop & [Hnd Hall] & Hkeys & Hrun & Hns' & Hlook).
  exists st'. split; [done|].
  specialize (Hlook "default" ltac:(done)).
  rewrite (has_getter_chain_owns collected levels "default" Hkeys) in Hlook.
  destruct (truthy allow && chain_owns levels "default") eqn:Hb; simpl in Hlook.
  - apply andb_true_iff in Hb as [_ Hown].
    apply chain_owns_spec in Hown as (c & Hc & Hin).
    destruct (prototype_chain_raw _ _ _ _ Hchain Hc) as [r ->].
    assert (Hin' : "default" ∈ collected.*1) by (apply Hkeys; eauto).
    destruct (lookup_getter_Forall _ "default" collected Hin' Hall) as (g & Hg & Hgeq).
    simpl in Hgeq. subst g. rewrite Hg in Hlook. simpl in Hlook.
    intros n. by eapply Reflect_get_create_getter.
  - rewrite lookup_set_getter_eq in Hlook. simpl in Hlook.
    intros n. by eapply Reflect_get_raw_getter.
Qed.

Ltac by_compute := compute_done.

(** C5, counterexample.  [raw] does not own ["default"], it inherits it
    from its prototype [{ default: 7 }]; with [allowExportDefault = true]
    the namespace's [default] reads 7, not [raw] itself. *)
Lemma interopEsm_default_inherited :
  hasOwnProperty 0 inherited_default_state (VObj 6) (KStr "default")
    = Some (Normal false) ∧
  fst <$> interopEsm 3 (VObj 6) (VObj 7) (VBool true) inherited_default_state
    = Some (Normal (VObj 7)) ∧
  Reflect_get 3 inherited_default_interop (VObj 7) (KStr "default")
    = Some (Normal (VNum 7)) ∧
  VNum 7 ≠ VObj 6.
Proof. repeat split; try (vm_compute; reflexivity). discriminate. Qed.

Lemma inherited_default_chain :
  prototype_chain inherited_default_state (VObj 6)
    [CObject (emptyObject (VObj 5));
     plainObject [(KStr "default", DataProp (VNum 7) true)]].
Proof.
  eapply chain_level; [by_compute|reflexivity|reflexivity|].
  eapply (chain_level _ 5); [by_compute|reflexivity|reflexivity|].
  apply chain_end. intros l _. by_compute.
Qed.

Lemma interopEsm_default_witness :
  ∃ st',
    interopEsm 3 (VObj 6) (VObj 7) (VBool true) inherited_default_state
      = Some (Normal (VObj 7), st') ∧
    ∀ n, Reflect_get (S n) st' (VObj 7) (KStr "default")
         = Reflect_get n st' (VObj 6) (KStr "default").
Proof.
  destruct (interopEsm_default 3 inherited_default_state (VObj 6) 7
              (emptyObject (VObj ObjectPrototype)) (VBool true) _
              eq_refl eq_refl inherited_default_chain ltac:(simpl; lia))
    as (st' & Hrun & Hdefault).
  exists st'. split; [exact Hrun|exact Hdefault].
Defined.

Lemma inherited_default_levels :
  levels_below_base inherited_default_state (VObj 6) [[]; ["default"]].
Proof.
  apply (levels_step _ 6 [] (VObj 5)).
  - intros [H|[H|H]]; discriminate H.
  - split; exists 0; reflexivity.
  - apply (levels_step _ 5 ["default"] (VObj ObjectPrototype)).
    + intros [H|[H|H]]; discriminate H.
    + split; exists 0; reflexivity.
    + apply levels_end. intros l _. by left.
Qed.

(** The view of ["m"] as [raw]: its one level below the base prototype
    of plain objects is the proxy, whose names are those of the target
    and of the two sources. *)
Lemma view_levels :
  levels_below_base view_state_fresh (VObj 8) [["own"; "x"; "y"]].
Proof.
  apply (levels_step _ 8 ["own"; "x"; "y"] (VObj ObjectPrototype)).
  - intros [H|[H|H]]; discriminate H.
  - split; exists 1; vm_compute; reflexivity.
  - apply levels_end. intros l _. by left.
Qed.

Lemma interopEsm_collects_witness :
  (∃ fuel0, ∀ fuel, fuel0 ≤ fuel →
     ∃ collected st',
       interopEsm_loop fuel inherited_default_state (VObj 6) (VObj 6) []
         = Some (Normal collected) ∧
       "default" ∈ collected.*1 ∧
       interopEsm fuel (VObj 6) (VObj 7) VUndefined inherited_default_state
         = Some (Normal (VObj 7), st')) ∧
  (∃ fuel0, ∀ fuel, fuel0 ≤ fuel →
     ∃ collected st',
       interopEsm_loop fuel view_state_fresh (VObj 8) (VObj 8) []
         = Some (Normal collected) ∧
       "x" ∈ collected.*1 ∧
       interopEsm fuel (VObj 8) (VObj 9) VUndefined view_state_fresh
         = Some (Normal (VObj 9), st')).
Proof.
  split.
  - destruct (interopEsm_collects inherited_default_state (VObj 6) 7
                (emptyObject (VObj ObjectPrototype)) VUndefined _
                eq_refl eq_refl inherited_default_levels) as (_ & fuel0 & H).
    exists fuel0. intros fuel Hfuel.
    destruct (H fuel Hfuel) as (collected & st' & Hloop & _ & Hkeys & _ & Hrun & _).
    exists collected, st'. split; [exact Hloop|]. split; [|exact Hrun].
    apply Hkeys. exists ["default"]. split; [|by left].
    apply elem_of_cons; right. by left.
  - destruct (interopEsm_collects view_state_fresh (VObj 8) 9
                (emptyObject (VObj ObjectPrototype)) VUndefined _
                ltac:(vm_compute; reflexivity) eq_refl view_levels) as (_ & fuel0 & H).
    exists fuel0. intros fuel Hfuel.
    destruct (H fuel Hfuel) as (collected & st' & Hloop & _ & Hkeys & _ & Hrun & _).
    exists collected, st'. split; [exact Hloop|]. split; [|exact Hrun].
    apply Hkeys. exists ["own"; "x"; "y"]. split; [by left|].
    apply elem_of_cons; right. by left.
Defined.

Lemma dynamicExport_non_object_witness :
  (∃ st',
      dynamicExport "m" (VObj 5) (VNum 3) view_state = Some (Normal tt, st') ∧
      heap st' !! 8 = Some (CProxy 5 false 0) ∧
      exports <$> modules st' !! "m" = Some (VObj 8) ∧
      reexported_of st' "m" = Some [] ∧
      Reflect_get 1 st' (VObj 8) (KStr "x") = Some (Normal VUndefined)) ∧
  dynamicExport "m" (VObj 5) VNull view_state_1 = Some (Normal tt, view_state_1).
Proof.
  split.
  - destruct (dynamicExport_non_object "m" 5 (VNum 3) view_state (mkModule "m" (VObj 5))
                (plainObject [(KStr "own", DataProp (VNum 1) true)]))
      as (st' & m' & Hrun & Hm' & _ & Hheap & _ & -> & Hsrc & Hget & _).
    + vm_compute; reflexivity.
    + reflexivity.
    + intros H. by destruct H.
    + left. vm_compute. discriminate.
    + exists st'. split; [exact Hrun|]. split; [by rewrite Hheap|].
      split; [by rewrite Hm'|]. split; [exact Hsrc|].
      refine (Hget 0 (KStr "x") false _). simpl. by rewrite Hheap.
  - destruct (dynamicExport_non_object "m" 5 VNull view_state_1
                (set_exports (VObj 8)
                   (set_namespaceObject (VObj 8)
                      (set_REEXPORTED_OBJECTS (Some 0) (mkModule "m" (VObj 5)))))
                (plainObject [(KStr "own", DataProp (VNum 1) true)]))
      as (st' & m' & Hrun & _ & _ & ->).
    + vm_compute; reflexivity.
    + vm_compute; reflexivity.
    + intros _. exists 0, 8, 5, false. split; vm_compute; reflexivity.
    + by right.
    + exact Hrun.
Defined.

Lemma dynamic_view_precedence_witness :
  Reflect_get 2 view_state_2 (VObj 8) (KStr "x") = Some (Normal (VNum 10)) ∧
  Reflect_get 2 view_state_2 (VObj 8) (KStr "y") = Some (Normal (VNum 21)) ∧
  Reflect_ownKeys 1 view_state_2 (VObj 8)
  = Some (Normal [KStr "own"; KStr "x"; KStr "y"]).
Proof.
  destruct (dynamic_view_precedence "m" 5 (VObj 6) (VObj 7) view_state
              (mkModule "m" (VObj 5)) _
              ltac:(vm_compute; reflexivity) eq_refl eq_refl eq_refl eq_refl)
    as (st1 & st2 & E1 & E2 & _ & Hget & Hkeys).
  assert (st1 = view_state_1) as ->.
  { unfold view_state_1. by rewrite E1. }
  assert (st2 = view_state_2) as ->.
  { unfold view_state_2. by rewrite E2. }
  split; [|split].
  - destruct (Hget 1 (KStr "x") (VNum 10)) as [H _];
      [vm_compute; reflexivity|done|done|vm_compute; reflexivity|].
    by apply H.
  - destruct (Hget 1 (KStr "y") VUndefined) as [_ H];
      [vm_compute; reflexivity|done|done|vm_compute; reflexivity|].
    apply (H eq_refl (VNum 21)). vm_compute; reflexivity.
  - destruct (Hkeys 0 [KStr "own"] [KStr "x"; KStr "default"] [KStr "x"; KStr "y"])
      as [Hk _];
      [vm_compute; reflexivity|vm_compute; reflexivity|vm_compute; reflexivity
      |by_compute|by_compute|by_compute|].
    etrans; [exact Hk|]. vm_compute. reflexivity.
Defined.

(** ** Resolver: what the heap operations leave alone *)

Lemma same_resolver_refl st : same_resolver st st.
Proof. by repeat split. Qed.

Lemma same_resolver_trans st1 st2 st3 :
  same_resolver st1 st2 → same_resolver st2 st3 → same_resolver st1 st3.
Proof.
  unfold same_resolver. intros (?&?&?&?) (?&?&?&?). repeat split; congruence.
Qed.

Lemma settlePromise_resolver p o st : same_resolver st (settlePromise p o st).
Proof. unfold settlePromise. repeat case_match; by repeat split. Qed.

Lemma promise_then_resolver p r st : same_resolver st (promise_then p r st).
Proof. unfold promise_then. repeat case_match; by repeat split. Qed.

Lemma set_ext_resolver d g st : same_resolver st (set_ext d g st).
Proof. unfold set_ext. repeat case_match; by repeat split. Qed.

Lemma alloc_resolver c st : same_resolver st (alloc c st).2.
Proof. by repeat split. Qed.

Lemma ensureDynamicExports_resolver module exports st c st' :
  ensureDynamicExports module exports st = Some (c, st') → same_resolver st st'.
Proof.
  unfold ensureDynamicExports, newProxy. unfold_M. intros H.
  repeat (case_match; simplify_eq; simpl in *); by repeat split.
Qed.

Lemma getResult_resolver currentDeps st c st' :
  getResult currentDeps st = Some (c, st') → same_resolver st st'.
Proof.
  unfold getResult. unfold_M. intros H.
  repeat (case_match; simplify_eq; simpl in *); by repeat split.
Qed.

(** ** Resolver: properties kept by every step of a loop *)

Lemma foldl_preserves {A} (Φ : State → Prop) (f : State → A → State) l st :
  (∀ s a, Φ s → Φ (f s a)) → Φ st → Φ (foldl f st l).
Proof. intros Hf. revert st. induction l as [|a l IH]; simpl; eauto. Qed.

Lemma call_turbopackQueues_preserves (Φ : State → Prop) qf fn st :
  (∀ q s, Φ s → Φ (fn q s)) → Φ st → Φ (call_turbopackQueues qf fn st).
Proof.
  intros Hfn H. destruct qf as [|q|[q|] sid]; simpl; eauto;
    case_match; eauto; apply foldl_preserves; eauto.
Qed.

Lemma register_deps_preserves (Φ : State → Prop) queue sid f ds st :
  (∀ q s, Φ s → Φ (fnQueue queue sid f q s)) →
  Φ st → Φ (register_deps queue sid f ds st).
Proof.
  intros Hfn. unfold register_deps. apply foldl_preserves.
  intros s d Hs. case_match; [|done]. by apply call_turbopackQueues_preserves.
Qed.

Lemma wrapDep_preserves (Φ : State → Prop) dep st :
  (∀ s s', same_resolver s s' → Φ s → Φ s') →
  (∀ s, Φ s → Φ (allocQueue false s).2) →
  Φ st → Φ (wrapDep dep st).2.
Proof.
  intros Hheap Hq H. unfold wrapDep.
  assert (Hplain : ∀ c, Φ (alloc c st).2).
  { intros c. apply (Hheap st); [by repeat split|done]. }
  destruct dep; try apply Hplain.
  repeat case_match; simplify_eq; simpl; try apply Hplain; try done.
  match goal with H : allocQueue false st = (?q, ?s1) |- _ =>
    pose proof (Hq st ltac:(done)) as Hq'; rewrite H in Hq'; simpl in Hq';
    apply (Hheap s1); [|done] end.
  eapply same_resolver_trans; [|apply promise_then_resolver].
  unfold alloc in *. simplify_eq. by repeat split.
Qed.

Lemma wrapDeps_preserves (Φ : State → Prop) deps st :
  (∀ s s', same_resolver s s' → Φ s → Φ s') →
  (∀ s, Φ s → Φ (allocQueue false s).2) →
  Φ st → Φ (wrapDeps deps st).2.
Proof.
  intros Hheap Hq. revert st. induction deps as [|dep deps IH]; intros st H; simpl.
  - done.
  - pose proof (wrapDep_preserves Φ dep st Hheap Hq H) as H1.
    destruct (wrapDep dep st) as [d st1]. simpl in H1.
    specialize (IH st1 H1). destruct (wrapDeps deps st1) as [ds st2]. done.
Qed.

(** ** Counting in lists *)

Lemma filter_length_alter {A} (P : A → Prop) `{!∀ x, Decision (P x)}
    (g : A → A) (i : nat) (l : list A) (x : A) :
  l !! i = Some x →
  length (filter P (alter g i l)) + (if decide (P x) then 1 else 0)
  = length (filter P l) + (if decide (P (g x)) then 1 else 0).
Proof.
  revert i. induction l as [|y l IH]; intros [|i] Hi; simplify_eq/=.
  - rewrite !filter_cons. destruct (decide (P x)), (decide (P (g x))); simpl; lia.
  - rewrite !filter_cons. specialize (IH i Hi). destruct (decide (P y)); simpl; lia.
Qed.

Lemma filter_length_alter_iff {A} (P : A → Prop) `{!∀ x, Decision (P x)}
    (g : A → A) (i : nat) (l : list A) :
  (∀ x, l !! i = Some x → (P (g x) ↔ P x)) →
  length (filter P (alter g i l)) = length (filter P l).
Proof.
  intros Hg. destruct (l !! i) as [x|] eqn:Hi.
  - pose proof (filter_length_alter P g i l x Hi) as Hlen.
    specialize (Hg x eq_refl).
    destruct (decide (P x)), (decide (P (g x))); try lia; tauto.
  - apply lookup_ge_None_1 in Hi. f_equal. f_equal.
    revert i Hi. induction l as [|y l IH]; intros [|i] Hi; simpl in *; try done; try lia.
    f_equal. apply IH. lia.
Qed.

Lemma occ_nil fn : occ fn [] = 0.
Proof. done. Qed.

Lemma occ_cons fn f l : occ fn (f :: l) = (if decide (f = fn) then 1 else 0) + occ fn l.
Proof. unfold occ. rewrite filter_cons. by destruct (decide (f = fn)). Qed.

Lemma occ_snoc fn f l : occ fn (l ++ [f]) = occ fn l + (if decide (f = fn) then 1 else 0).
Proof.
  unfold occ. rewrite filter_app, length_app, filter_cons, filter_nil.
  by destruct (decide (f = fn)).
Qed.

Lemma occ_elem_of fn l : fn ∈ l ↔ 1 ≤ occ fn l.
Proof.
  induction l as [|f l IH].
  - rewrite elem_of_nil, occ_nil. lia.
  - rewrite elem_of_cons, occ_cons, IH. destruct (decide (f = fn)); [|split].
    + split; [lia|by left].
    + intros [?|?]; [congruence|lia].
    + intros ?. right. lia.
Qed.

Lemma occ_not_elem_of fn l : fn ∉ l ↔ occ fn l = 0.
Proof. rewrite occ_elem_of. lia. Qed.

(** ** Resolver: the count and the calls of one continuation *)

Lemma fn_count_update_ne f fn g st :
  f ≠ fn → fn_count (update_fn f g st) fn = fn_count st fn.
Proof. intros Hne. unfold fn_count, update_fn. simpl. by rewrite list_lookup_alter_ne. Qed.

Lemma fn_count_update_eq fn g st x :
  fns st !! fn = Some x → fn_count (update_fn fn g st) fn = queueCount (g x).
Proof.
  intros Hx. unfold fn_count, update_fn. simpl. by rewrite list_lookup_alter_eq, Hx.
Qed.

Lemma fn_count_Some st fn x : fns st !! fn = Some x → fn_count st fn = queueCount x.
Proof. intros Hx. unfold fn_count. by rewrite Hx. Qed.

Lemma decrement_fn_step fn f st :
  fn < length (fns st) →
  fn_step fn st (decrement_fn f st)
    (fn_count st fn - (if decide (f = fn) then 1 else 0)) (calls_of st fn).
Proof.
  intros Hfn. apply lookup_lt_is_Some_2 in Hfn as [x Hx].
  unfold decrement_fn. repeat split; simpl; [by rewrite length_alter|].
  destruct (decide (f = fn)) as [->|Hne].
  - rewrite (fn_count_update_eq _ _ _ _ Hx), (fn_count_Some _ _ _ Hx). done.
  - rewrite fn_count_update_ne by done. lia.
Qed.

Lemma fold_decrement_step fn l st :
  fn < length (fns st) →
  fn_step fn st (foldl (λ s f, decrement_fn f s) st l)
    (fn_count st fn - Z.of_nat (occ fn l)) (calls_of st fn).
Proof.
  revert st. induction l as [|f l IH]; intros st Hfn; simpl.
  - repeat split. rewrite occ_nil. lia.
  - destruct (decrement_fn_step fn f st Hfn) as (Hq & Hi & Hl & Hc & Hk).
    destruct (IH (decrement_fn f st) ltac:(lia)) as (Hq' & Hi' & Hl' & Hc' & Hk').
    repeat split; try congruence.
    rewrite Hc', Hc, occ_cons. destruct (decide (f = fn)); lia.
Qed.

Lemma call_fn_step fn f st :
  fn_step fn st (call_fn f st) (fn_count st fn)
    (calls_of st fn + (if decide (f = fn) then (if isSome (fns st !! f) then 1 else 0) else 0)).
Proof.
  unfold call_fn. destruct (fns st !! f) as [x|] eqn:Hx.
  - destruct (settlePromise_resolver (fn_promise x) (Fulfilled (VObj (fn_getResult x)))
                (with_called (called st ++ [f]) st)) as (Hq & Hf & Hi & Hc).
    repeat split; simpl in *; try congruence.
    + unfold fn_count. by rewrite Hf.
    + unfold calls_of. rewrite Hc, occ_snoc. done.
  - repeat split. destruct (decide (f = fn)); simpl; lia.
Qed.

Lemma fire_fn_step fn f st :
  fn < length (fns st) →
  fn_step fn st (fire_fn f st)
    (if decide (f = fn) then (if (fn_count st fn =? 0)%Z then -1 else fn_count st fn)
     else fn_count st fn)%Z
    (calls_of st fn + (if decide (f = fn)
                       then (if (fn_count st fn =? 0)%Z then 1 else 0) else 0)).
Proof.
  intros Hfn. unfold fire_fn.
  destruct (fns st !! f) as [x|] eqn:Hx.
  2:{ destruct (decide (f = fn)) as [->|].
      - apply lookup_lt_is_Some_2 in Hfn as [? ?]. congruence.
      - repeat split. lia. }
  destruct (decrement_fn_step fn f st Hfn) as (Hq & Hi & Hl & Hc & Hk).
  assert (Hx' : fns (decrement_fn f st) !! f = Some (set_queueCount (queueCount x - 1) x)).
  { unfold decrement_fn, update_fn. simpl. by rewrite list_lookup_alter_eq, Hx. }
  destruct (decide (f = fn)) as [->|Hne].
  - rewrite (fn_count_Some _ _ _ Hx) in *.
    destruct (queueCount x =? 0)%Z eqn:Hz.
    + destruct (call_fn_step fn fn (decrement_fn fn st)) as (Hq' & Hi' & Hl' & Hc' & Hk').
      rewrite Hx', decide_True in Hk' by done.
      apply Z.eqb_eq in Hz. simpl in Hk'.
      repeat split; try congruence; lia.
    + repeat split; simpl; try done.
      all: try (by rewrite !length_alter).
      all: try (rewrite (fn_count_update_eq _ _ _ _ Hx'); simpl; lia).
      all: try (unfold calls_of in *; simpl in *; lia).
  - destruct (queueCount x =? 0)%Z.
    + destruct (call_fn_step fn f (decrement_fn f st)) as (Hq' & Hi' & Hl' & Hc' & Hk').
      rewrite decide_False in Hk' by done.
      repeat split; try congruence; lia.
    + repeat split; simpl; try done.
      all: try (by rewrite !length_alter).
      all: try (rewrite fn_count_update_ne by done; lia).
      all: try (unfold calls_of in *; simpl in *; lia).
Qed.

Lemma fold_fire_step fn l st :
  fn < length (fns st) →
  occ fn l ≤ 1 →
  let fires := bool_decide (occ fn l = 1) && (fn_count st fn =? 0)%Z in
  fn_step fn st (foldl (λ s f, fire_fn f s) st l)
    (if fires then -1 else fn_count st fn)%Z
    (calls_of st fn + (if fires then 1 else 0)).
Proof.
  revert st. induction l as [|f l IH]; intros st Hfn Hocc; simpl.
  - repeat split. lia.
  - rewrite occ_cons in Hocc.
    destruct (fire_fn_step fn f st Hfn) as (Hq & Hi & Hl & Hc & Hk).
    destruct (IH (fire_fn f st) ltac:(lia) ltac:(destruct (decide (f = fn)); lia))
      as (Hq' & Hi' & Hl' & Hc' & Hk').
    rewrite occ_cons.
    destruct (decide (f = fn)) as [->|Hne].
    + assert (Hz : occ fn l = 0) by lia. rewrite Hz in *. simpl in *.
      repeat split; try congruence.
      all: try (rewrite Hc', Hc; by destruct (fn_count st fn =? 0)%Z).
      all: try (rewrite Hk', Hk; destruct (fn_count st fn =? 0)%Z; lia).
    + simpl in *. rewrite Hc in Hc', Hk'.
      repeat split; try congruence; lia.
Qed.

(** What [resolveQueue] does to an unresolved queue [q], seen from the
    continuation [fn]. *)
Lemma resolveQueue_step fn q aq st :
  queues st !! q = Some aq →
  resolved aq = false →
  fn < length (fns st) →
  occ fn (entries aq) ≤ 1 →
  let left := (fn_count st fn - Z.of_nat (occ fn (entries aq)))%Z in
  let fires := bool_decide (occ fn (entries aq) = 1) && (left =? 0)%Z in
  let st' := resolveQueue (Some q) st in
  queues st' = alter (λ aq, {| resolved := true; entries := entries aq |}) q (queues st) ∧
  instances st' = instances st ∧
  length (fns st') = length (fns st) ∧
  fn_count st' fn = (if fires then -1 else left)%Z ∧
  calls_of st' fn = calls_of st fn + (if fires then 1 else 0).
Proof.
  intros Hq Hres Hfn Hocc left fires st'.
  unfold st', resolveQueue. rewrite Hq, Hres. simpl.
  set (st1 := update_queue q _ st).
  destruct (fold_decrement_step fn (entries aq) st1 Hfn) as (Hq1 & Hi1 & Hl1 & Hc1 & Hk1).
  set (st2 := foldl _ st1 (entries aq)) in *.
  assert (Hfn2 : fn < length (fns st2)) by (rewrite Hl1; exact Hfn).
  destruct (fold_fire_step fn (entries aq) st2 Hfn2 Hocc)
    as (Hq2 & Hi2 & Hl2 & Hc2 & Hk2).
  change (fn_count st1 fn) with (fn_count st fn) in Hc1.
  change (calls_of st1 fn) with (calls_of st fn) in Hk1.
  rewrite Hc1 in Hc2. rewrite Hk1, Hc1 in Hk2.
  split; [by rewrite Hq2, Hq1|]. split; [by rewrite Hi2, Hi1|].
  split; [by rewrite Hl2, Hl1|]. split; [exact Hc2|exact Hk2].
Qed.

(** ** Resolver: the invariant of a registered continuation *)

Lemma fn_inv_ext fn st st' :
  queues st' = queues st → fns st' = fns st → called st' = called st →
  fn_inv fn st → fn_inv fn st'.
Proof.
  unfold fn_inv, calls_of, fn_count, unresolved_holders.
  intros -> -> ->. done.
Qed.

Lemma unresolved_holders_resolve fn q aq qs :
  qs !! q = Some aq →
  resolved aq = false →
  occ fn (entries aq) ≤ 1 →
  length (filter (λ aq, fn ∈ entries aq ∧ resolved aq = false)
            (alter (λ aq, {| resolved := true; entries := entries aq |}) q qs))
  + occ fn (entries aq)
  = length (filter (λ aq, fn ∈ entries aq ∧ resolved aq = false) qs).
Proof.
  intros Hq Hres Hocc.
  pose proof (filter_length_alter (λ aq, fn ∈ entries aq ∧ resolved aq = false)
                (λ aq, {| resolved := true; entries := entries aq |}) q qs aq Hq) as Hlen.
  simpl in Hlen.
  destruct (decide (fn ∈ entries aq ∧ true = false)) as [[_ ?]|_]; [done|].
  destruct (decide (fn ∈ entries aq ∧ resolved aq = false)) as [[Hin _]|Hn].
  - apply occ_elem_of in Hin. lia.
  - assert (fn ∉ entries aq) as Hnin by tauto.
    apply occ_not_elem_of in Hnin. lia.
Qed.

Lemma fn_inv_resolveQueue fn queue st :
  fn_inv fn st → fn_inv fn (resolveQueue queue st).
Proof.
  intros (Hfn & Honce & Hcases).
  destruct queue as [q|]; [|done].
  destruct (queues st !! q) as [aq|] eqn:Hq; [|by unfold resolveQueue; rewrite Hq].
  destruct (resolved aq) eqn:Hres;
    [by unfold resolveQueue; rewrite Hq, Hres|].
  pose proof (Honce q aq Hq) as Hocc.
  destruct (resolveQueue_step fn q aq st Hq Hres Hfn Hocc) as (Hq' & Hi' & Hl' & Hc' & Hk').
  pose proof (unresolved_holders_resolve fn q aq (queues st) Hq Hres Hocc) as Huh.
  split; [lia|]. split.
  { intros q' aq' Hq''. rewrite Hq' in Hq''.
    destruct (decide (q = q')) as [<-|Hne].
    - rewrite list_lookup_alter_eq, Hq in Hq''. simplify_eq/=. done.
    - rewrite list_lookup_alter_ne in Hq'' by done. eauto. }
  unfold unresolved_holders in *. rewrite Hq'.
  set (uh' := length (filter _ (alter _ q (queues st)))) in *.
  set (uh := length (filter _ (queues st))) in *.
  rewrite Hc', Hk'.
  destruct Hcases as [(Hk0 & Hc0 & Hpos)|(Hk1 & Hc1 & Hz)].
  - rewrite Hk0, Hc0.
    destruct (decide (occ fn (entries aq) = 1)) as [H1|H1].
    + rewrite (bool_decide_eq_true_2 _ H1). simpl.
      destruct (Z.of_nat uh - Z.of_nat (occ fn (entries aq)) =? 0)%Z eqn:Hz.
      * right. apply Z.eqb_eq in Hz. repeat split; lia.
      * left. apply Z.eqb_neq in Hz. repeat split; lia.
    + rewrite (bool_decide_eq_false_2 _ H1). simpl. left. repeat split; lia.
  - rewrite Hk1, Hc1.
    assert (H0 : occ fn (entries aq) = 0) by lia.
    rewrite bool_decide_eq_false_2 by lia. simpl. right. repeat split; lia.
Qed.

Lemma fnQueue_cases queue sid f q st :
  let st' := fnQueue queue sid f q st in
  instances st' = instances st ∧ called st' = called st ∧
  ((queues st' = queues st ∧ fns st' = fns st) ∨
   (∃ aq, queues st !! q = Some aq ∧ resolved aq = false ∧
          queues st' = alter (λ aq, {| resolved := resolved aq;
                                       entries := entries aq ++ [f] |}) q (queues st) ∧
          fns st' = alter (λ x, set_queueCount (queueCount x + 1) x) f (fns st))).
Proof.
  unfold fnQueue. simpl.
  destruct (sets st !! sid) as [s|]; [|by auto].
  destruct (_ && _); [|by auto]. simpl.
  destruct (queues st !! q) as [aq|] eqn:Hq; [|by auto].
  destruct (resolved aq) eqn:Hres; simpl; [by auto|].
  split; [done|]. split; [done|]. right. by exists aq.
Qed.

Lemma fn_inv_fnQueue fn queue sid f q st :
  f ≠ fn → fn_inv fn st → fn_inv fn (fnQueue queue sid f q st).
Proof.
  intros Hne Hinv.
  destruct (fnQueue_cases queue sid f q st) as (Hi & Hc & [[Hq Hf]|(aq & Hq & Hres & Hq' & Hf')]).
  { by apply (fn_inv_ext fn st). }
  destruct Hinv as (Hfn & Honce & Hcases).
  assert (Hcount : fn_count (fnQueue queue sid f q st) fn = fn_count st fn).
  { unfold fn_count. by rewrite Hf', list_lookup_alter_ne. }
  assert (Huh : unresolved_holders (fnQueue queue sid f q st) fn = unresolved_holders st fn).
  { unfold unresolved_holders. rewrite Hq'. apply filter_length_alter_iff.
    intros x _. simpl. rewrite elem_of_app, list_elem_of_singleton. split; [|tauto].
    intros [[?|?] ?]; [done|congruence]. }
  split; [by rewrite Hf', length_alter|]. split.
  - intros q' aq' Hq''. rewrite Hq' in Hq''.
    destruct (decide (q = q')) as [<-|Hneq].
    + rewrite list_lookup_alter_eq, Hq in Hq''. simplify_eq/=.
      rewrite occ_snoc, decide_False by done. specialize (Honce q aq Hq). lia.
    + rewrite list_lookup_alter_ne in Hq'' by done. eauto.
  - unfold calls_of in *. by rewrite Hc, Hcount, Huh.
Qed.

Lemma fn_inv_allocQueue fn r st : fn_inv fn st → fn_inv fn (allocQueue r st).2.
Proof.
  intros (Hfn & Honce & Hcases). split; [done|]. split.
  - intros q aq. simpl. intros Hq. apply lookup_app_Some in Hq as [Hq|[_ Hq]]; [eauto|].
    destruct (q - length (queues st)) as [|?]; simplify_eq/=. rewrite occ_nil. lia.
  - unfold calls_of, fn_count, unresolved_holders in *. simpl.
    rewrite filter_app, length_app, filter_cons_False, filter_nil; simpl.
    + by rewrite Nat.add_0_r.
    + rewrite elem_of_nil. tauto.
Qed.

Lemma fn_inv_newfn fn x st : fn_inv fn st → fn_inv fn (with_fns (fns st ++ [x]) st).
Proof.
  intros (Hfn & Honce & Hcases). split; [simpl; rewrite length_app; lia|].
  split; [done|].
  unfold calls_of, fn_count, unresolved_holders in *. simpl.
  by rewrite lookup_app_l.
Qed.

Lemma fn_inv_end fn i st :
  own_queues_ok st → fn_inv fn st → fn_inv fn (asyncModule_end i st).
Proof.
  intros Hok Hinv. unfold asyncModule_end.
  destruct (instances st !! i) as [inst|] eqn:Hi; [|done].
  destruct (inst_running inst) eqn:Hrun; [|done].
  destruct (inst_queue inst) as [q|] eqn:Hq; [|by apply (fn_inv_ext fn st)].
  destruct (Hok i inst q Hi Hq) as (_ & Hempty & _). specialize (Hempty Hrun).
  destruct Hinv as (Hfn & Honce & Hcases). split; [done|]. split.
  - intros q' aq'. simpl. intros Hq'.
    destruct (decide (q = q')) as [<-|Hneq].
    + rewrite list_lookup_alter_eq, Hempty in Hq'. simplify_eq/=. rewrite occ_nil. lia.
    + rewrite list_lookup_alter_ne in Hq' by done. eauto.
  - unfold calls_of, fn_count, unresolved_holders in *. simpl.
    rewrite filter_length_alter_iff; [done|].
    intros x Hx. rewrite Hempty in Hx. simplify_eq/=. rewrite elem_of_nil. tauto.
Qed.

(** ** Resolver: well-formedness is kept *)

Lemma decrement_fn_frame f st :
  queues (decrement_fn f st) = queues st ∧
  instances (decrement_fn f st) = instances st ∧
  length (fns (decrement_fn f st)) = length (fns st).
Proof. unfold decrement_fn. simpl. by rewrite length_alter. Qed.

Lemma fire_fn_frame f st :
  queues (fire_fn f st) = queues st ∧
  instances (fire_fn f st) = instances st ∧
  length (fns (fire_fn f st)) = length (fns st).
Proof.
  unfold fire_fn. destruct (fns st !! f) as [x|]; [|done].
  destruct (queueCount x =? 0)%Z.
  - unfold call_fn. destruct (fns (decrement_fn f st) !! f) as [y|].
    + destruct (settlePromise_resolver (fn_promise y) (Fulfilled (VObj (fn_getResult y)))
                  (with_called (called (decrement_fn f st) ++ [f]) (decrement_fn f st)))
        as (-> & -> & -> & _).
      simpl. by rewrite length_alter.
    + apply decrement_fn_frame.
  - simpl. by rewrite !length_alter.
Qed.

Lemma resolveQueue_frame queue st :
  instances (resolveQueue queue st) = instances st ∧
  length (fns (resolveQueue queue st)) = length (fns st) ∧
  (queues (resolveQueue queue st) = queues st ∨
   ∃ q aq, queues st !! q = Some aq ∧ resolved aq = false ∧
           queues (resolveQueue queue st)
           = alter (λ aq, {| resolved := true; entries := entries aq |}) q (queues st)).
Proof.
  destruct queue as [q|]; [|by auto]. unfold resolveQueue.
  destruct (queues st !! q) as [aq|] eqn:Hq; [|by auto].
  destruct (resolved aq) eqn:Hres; simpl; [by auto|].
  set (st1 := update_queue q _ st).
  set (Φ := λ s, queues s = queues st1 ∧ instances s = instances st1 ∧
                 length (fns s) = length (fns st1)).
  assert (H2 : Φ (foldl (λ s f, fire_fn f s)
                    (foldl (λ s f, decrement_fn f s) st1 (entries aq)) (entries aq))).
  { apply foldl_preserves.
    - intros s f (H1 & H2 & H3). unfold Φ.
      destruct (fire_fn_frame f s) as (-> & -> & ->). done.
    - apply foldl_preserves; [|done].
      intros s f (H1 & H2 & H3). unfold Φ.
      destruct (decrement_fn_frame f s) as (-> & -> & ->). done. }
  destruct H2 as (H1 & H2 & H3). split; [done|]. split; [done|].
  right. by exists q, aq.
Qed.

Lemma own_queues_ok_ext st st' :
  queues st' = queues st → instances st' = instances st →
  own_queues_ok st → own_queues_ok st'.
Proof. unfold own_queues_ok. intros -> ->. done. Qed.

(** A change of the queues that leaves every queue flagged [resolved]
    as it is, and removes none. *)
Lemma own_queues_ok_queues st st' :
  instances st' = instances st →
  (∀ q aq, queues st !! q = Some aq → resolved aq = true → queues st' !! q = Some aq) →
  length (queues st) ≤ length (queues st') →
  own_queues_ok st → own_queues_ok st'.
Proof.
  intros Hi Hkeep Hlen Hok i inst q Hinst Hq. rewrite Hi in *.
  destruct (Hok i inst q Hinst Hq) as (Hb & Hrun & Hinj).
  split; [lia|]. split; [|done].
  intros Hr. apply Hkeep; [by apply Hrun|done].
Qed.

Lemma own_queues_ok_alter st st' q aq g :
  instances st' = instances st →
  queues st !! q = Some aq →
  resolved aq = false →
  queues st' = alter g q (queues st) →
  own_queues_ok st → own_queues_ok st'.
Proof.
  intros Hi Hq Hres Hq'. apply own_queues_ok_queues; [done| |by rewrite Hq', length_alter].
  intros q' aq' Hq'' Hres'. rewrite Hq'.
  rewrite list_lookup_alter_ne; [done|]. intros ->. congruence.
Qed.

Lemma own_queues_ok_resolveQueue queue st :
  own_queues_ok st → own_queues_ok (resolveQueue queue st).
Proof.
  destruct (resolveQueue_frame queue st) as (Hi & _ & [Hq|(q & aq & Hq & Hres & Hq')]).
  - by apply own_queues_ok_ext.
  - by eapply own_queues_ok_alter.
Qed.

Lemma own_queues_ok_fnQueue queue sid f q st :
  own_queues_ok st → own_queues_ok (fnQueue queue sid f q st).
Proof.
  destruct (fnQueue_cases queue sid f q st) as (Hi & _ & [[Hq _]|(aq & Hq & Hres & Hq' & _)]).
  - by apply own_queues_ok_ext.
  - by eapply own_queues_ok_alter.
Qed.

Lemma own_queues_ok_allocQueue r st :
  own_queues_ok st → own_queues_ok (allocQueue r st).2.
Proof.
  apply own_queues_ok_queues; simpl; [done| |rewrite length_app; lia].
  intros q aq Hq _. by apply lookup_app_l_Some.
Qed.

Lemma own_queues_ok_end i st :
  own_queues_ok st → own_queues_ok (asyncModule_end i st).
Proof.
  intros Hok. unfold asyncModule_end.
  destruct (instances st !! i) as [inst|] eqn:Hi; [|done].
  destruct (inst_running inst) eqn:Hrun; [|done].
  set (inst0 := {| inst_queue := inst_queue inst; inst_depQueues := inst_depQueues inst;
                   inst_promise := inst_promise inst; inst_exports := inst_exports inst;
                   inst_running := false |}).
  assert (Hlook : ∀ j x, <[i := inst0]> (instances st) !! j = Some x →
                         ∃ y, instances st !! j = Some y ∧ inst_queue y = inst_queue x ∧
                              (j ≠ i → x = y) ∧ (j = i → inst_running x = false)).
  { intros j x Hj. destruct (decide (i = j)) as [<-|Hne].
    - rewrite list_lookup_insert_eq in Hj by (by eapply lookup_lt_Some).
      simplify_eq. exists inst. by repeat split.
    - rewrite list_lookup_insert_ne in Hj by done. exists x. by repeat split. }
  intros j x q Hj Hq.
  assert (Hj' : <[i := inst0]> (instances st) !! j = Some x).
  { destruct (inst_queue inst); exact Hj. }
  destruct (Hlook j x Hj') as (y & Hy & Hqy & Hsame & Hstopped).
  destruct (Hok j y q Hy ltac:(congruence)) as (Hb & Hrunning & Hinj).
  assert (Hlen : length (queues
            match inst_queue inst with
            | Some q0 => update_queue q0 (λ aq, {| resolved := false; entries := entries aq |})
                           (with_instances (<[i := inst0]> (instances st)) st)
            | None => with_instances (<[i := inst0]> (instances st)) st
            end) = length (queues st)).
  { destruct (inst_queue inst); simpl; [by rewrite length_alter|done]. }
  split; [lia|]. split.
  - intros Hr. destruct (decide (j = i)) as [->|Hne].
    { rewrite Hstopped in Hr; done. }
    rewrite (Hsame Hne) in Hr. specialize (Hrunning Hr).
    destruct (inst_queue inst) as [q0|] eqn:Hq0; simpl; [|done].
    rewrite list_lookup_alter_ne; [done|]. intros ->.
    destruct (Hok i inst q Hi Hq0) as (_ & _ & Hinj'). apply Hne.
    apply (Hinj' j y); [done|congruence].
  - intros j' x' Hj'' Hq'.
    assert (Hj3 : <[i := inst0]> (instances st) !! j' = Some x').
    { destruct (inst_queue inst); exact Hj''. }
    destruct (Hlook j' x' Hj3) as (y' & Hy' & Hqy' & _ & _).
    apply (Hinj j' y'); [done|congruence].
Qed.

(** What [asyncModule] does before it calls [body], seen from the
    resolver: it may add its own queue, empty and flagged resolved, and
    then the activation that owns it. *)
Lemma asyncModule_begin_frame module hasAwait st c st' :
  asyncModule_begin module hasAwait st = Some (c, st') →
  fns st' = fns st ∧ called st' = called st ∧
  queues st' = queues st ++ (if hasAwait then [{| resolved := true; entries := [] |}] else []) ∧
  (instances st' = instances st ∨
   ∃ inst, instances st' = instances st ++ [inst] ∧ inst_running inst = true ∧
           inst_queue inst = if hasAwait then Some (length (queues st)) else None).
Proof.
  unfold asyncModule_begin, allocSet, allocInstance, allocQueue. unfold_M. intros H.
  destruct hasAwait; simpl in H.
  all: repeat (case_match; simplify_eq; simpl in * ).
  all: repeat match goal with He : ensureDynamicExports _ _ _ = Some _ |- _ =>
         apply ensureDynamicExports_resolver in He as (?&?&?&?); simpl in * end.
  all: rewrite ?app_nil_r.
  all: repeat split; try done.
  all: try (right; eexists; split; [by f_equal|done]).
  all: by left.
Qed.

Lemma own_queues_ok_begin module hasAwait st c st' :
  asyncModule_begin module hasAwait st = Some (c, st') →
  own_queues_ok st → own_queues_ok st'.
Proof.
  intros H Hok.
  destruct (asyncModule_begin_frame _ _ _ _ _ H) as (_ & _ & Hq & [Hi|(inst & Hi & Hrun & Hqi)]).
  { revert Hok. apply own_queues_ok_queues; [done| |rewrite Hq, length_app; lia].
    intros q aq Hlook _. rewrite Hq. by apply lookup_app_l_Some. }
  assert (Hlook : ∀ j x, instances st' !! j = Some x →
            (instances st !! j = Some x) ∨ (j = length (instances st) ∧ x = inst)).
  { intros j x Hj. rewrite Hi in Hj. apply lookup_app_Some in Hj as [?|[Hge Hj]]; [by left|].
    right. destruct (j - length (instances st)) as [|?] eqn:Hd; simplify_eq/=.
    split; [lia|done]. }
  intros j x q Hj Hqx.
  destruct (Hlook j x Hj) as [Hold|[-> ->]].
  - destruct (Hok j x q Hold Hqx) as (Hb & Hrunning & Hinj).
    split; [rewrite Hq, length_app; lia|]. split.
    + intros Hr. rewrite Hq. apply lookup_app_l_Some. by apply Hrunning.
    + intros j' x' Hj' Hqx'. destruct (Hlook j' x' Hj') as [Hold'|[-> ->]]; [by eapply Hinj|].
      rewrite Hqi in Hqx'. destruct hasAwait; simplify_eq. lia.
  - rewrite Hqi in Hqx. destruct hasAwait; simplify_eq.
    split; [rewrite Hq, length_app; simpl; lia|]. split.
    + intros _. rewrite Hq. apply lookup_snoc.
    + intros j' x' Hj' Hqx'. destruct (Hlook j' x' Hj') as [Hold'|[-> ->]]; [|done].
      destruct (Hok j' x' _ Hold' Hqx') as (Hb & _ & _). lia.
Qed.

Lemma entries_bounded_mono st st' :
  (∀ q aq', queues st' !! q = Some aq' →
            entries aq' = [] ∨ ∃ aq, queues st !! q = Some aq ∧ entries aq' = entries aq) →
  length (fns st) ≤ length (fns st') →
  entries_bounded st → entries_bounded st'.
Proof.
  intros Hq Hlen Hb q aq' f Hlook Hf.
  destruct (Hq q aq' Hlook) as [Hnil|(aq & Hlook' & Heq)].
  - rewrite Hnil in Hf. by apply elem_of_nil in Hf.
  - rewrite Heq in Hf. specialize (Hb q aq f Hlook' Hf). lia.
Qed.

Lemma entries_bounded_ext st st' :
  queues st' = queues st → length (fns st) ≤ length (fns st') →
  entries_bounded st → entries_bounded st'.
Proof.
  intros Hq. apply entries_bounded_mono. intros q aq' Hlook. right. exists aq'.
  by rewrite <- Hq.
Qed.

Lemma entries_bounded_append st st' extra :
  queues st' = queues st ++ extra →
  Forall (λ aq, entries aq = []) extra →
  length (fns st) ≤ length (fns st') →
  entries_bounded st → entries_bounded st'.
Proof.
  intros Hq Hextra. apply entries_bounded_mono. intros q aq' Hlook.
  rewrite Hq in Hlook. apply lookup_app_Some in Hlook as [?|[_ Hlook]]; [by eauto|].
  left. rewrite Forall_forall in Hextra. apply Hextra.
  by eapply list_elem_of_lookup_2.
Qed.

Lemma entries_bounded_alter st st' q (g : AsyncQueue → AsyncQueue) :
  queues st' = alter g q (queues st) →
  (∀ aq, entries (g aq) = entries aq) →
  length (fns st) ≤ length (fns st') →
  entries_bounded st → entries_bounded st'.
Proof.
  intros Hq Hg. apply entries_bounded_mono. intros q' aq' Hlook. right.
  rewrite Hq in Hlook. destruct (decide (q = q')) as [<-|Hne].
  - rewrite list_lookup_alter_eq in Hlook.
    destruct (queues st !! q) as [aq|]; simplify_eq/=. eauto.
  - rewrite list_lookup_alter_ne in Hlook by done. eauto.
Qed.

Lemma entries_bounded_resolveQueue queue st :
  entries_bounded st → entries_bounded (resolveQueue queue st).
Proof.
  destruct (resolveQueue_frame queue st) as (_ & Hl & [Hq|(q & aq & _ & _ & Hq)]).
  - apply entries_bounded_ext; [done|lia].
  - eapply entries_bounded_alter; [done|done|lia].
Qed.

Lemma entries_bounded_fnQueue queue sid f q st :
  f < length (fns st) →
  entries_bounded st → entries_bounded (fnQueue queue sid f q st).
Proof.
  intros Hf Hb.
  destruct (fnQueue_cases queue sid f q st) as (_ & _ & [[Hq Hfns]|(aq & Hq & _ & Hq' & Hf')]).
  { revert Hb. apply entries_bounded_ext; [done|by rewrite Hfns]. }
  intros q' aq' f' Hlook Hin. rewrite Hf', length_alter. rewrite Hq' in Hlook.
  destruct (decide (q = q')) as [<-|Hne].
  - rewrite list_lookup_alter_eq, Hq in Hlook. simplify_eq/=.
    apply elem_of_app in Hin as [Hin|Hin]; [by eapply Hb|].
    apply list_elem_of_singleton in Hin as ->. done.
  - rewrite list_lookup_alter_ne in Hlook by done. by eapply Hb.
Qed.

Lemma entries_bounded_end i st :
  entries_bounded st → entries_bounded (asyncModule_end i st).
Proof.
  unfold asyncModule_end.
  destruct (instances st !! i) as [inst|]; [|done].
  destruct (inst_running inst); [|done].
  destruct (inst_queue inst) as [q|].
  - eapply entries_bounded_alter; [done|done|done].
  - by apply entries_bounded_ext.
Qed.

Lemma entries_bounded_begin module hasAwait st c st' :
  asyncModule_begin module hasAwait st = Some (c, st') →
  entries_bounded st → entries_bounded st'.
Proof.
  intros H. destruct (asyncModule_begin_frame _ _ _ _ _ H) as (Hf & _ & Hq & _).
  eapply entries_bounded_append; [done| |by rewrite Hf].
  destruct hasAwait; by repeat constructor.
Qed.

(** ** Resolver: properties kept by the runtime's calls *)

Lemma fnQueue_fns_length queue sid f q st :
  length (fns (fnQueue queue sid f q st)) = length (fns st).
Proof.
  destruct (fnQueue_cases queue sid f q st) as (_ & _ & [[_ ->]|(aq & _ & _ & _ & ->)]);
    [done|by rewrite length_alter].
Qed.

Lemma handleAsyncDependencies_setup_preserves (Φ : State → Prop) inst deps st :
  (∀ s s', same_resolver s s' → Φ s → Φ s') →
  (∀ s, Φ s → Φ (allocQueue false s).2) →
  (∀ s x, fns s = fns st → Φ s → Φ (with_fns (fns s ++ [x]) s)) →
  (∀ queue sid q s, length (fns s) = S (length (fns st)) → Φ s →
                    Φ (fnQueue queue sid (length (fns st)) q s)) →
  Φ st →
  (handleAsyncDependencies_setup inst deps st).1.1.2 = length (fns st) ∧
  Φ (handleAsyncDependencies_setup inst deps st).2 ∧
  length (fns (handleAsyncDependencies_setup inst deps st).2) = S (length (fns st)).
Proof.
  intros Hext Hqueue Hnew HfnQueue H.
  unfold handleAsyncDependencies_setup.
  pose proof (wrapDeps_preserves (λ s, Φ s ∧ fns s = fns st) deps st) as Hw.
  destruct (wrapDeps deps st) as [currentDeps st1]. simpl in Hw.
  destruct Hw as [H1 Hf1]; [| |done|].
  { intros s s' Hs [? ?]. split; [by eapply Hext|]. destruct Hs as (_ & -> & _). done. }
  { intros s [? ?]. split; [by apply Hqueue|done]. }
  simpl.
  set (st3 := with_heap _ (with_heap _ st1)).
  set (x := {| queueCount := 0; fn_promise := _; fn_getResult := _ |}).
  assert (H3 : Φ st3) by (apply (Hext st1); [by repeat split|done]).
  assert (H4 : Φ (with_fns (fns st3 ++ [x]) st3)) by (by apply Hnew).
  change (fns st3) with (fns st1) in *. rewrite Hf1 in *.
  split; [done|].
  pose proof (register_deps_preserves
                (λ s, Φ s ∧ length (fns s) = S (length (fns st)))
                (inst_queue inst) (inst_depQueues inst) (length (fns st)) currentDeps
                (with_fns (fns st ++ [x]) st3)) as Hr.
  apply Hr.
  - intros q s [? Hlen]. split; [by apply HfnQueue|]. by rewrite fnQueue_fns_length.
  - split; [done|]. simpl. rewrite length_app. simpl. lia.
Qed.

Lemma handleAsyncDependencies_preserves (Φ : State → Prop) i deps st c st' :
  (∀ s s', same_resolver s s' → Φ s → Φ s') →
  (∀ s, Φ s → Φ (allocQueue false s).2) →
  (∀ s x, fns s = fns st → Φ s → Φ (with_fns (fns s ++ [x]) s)) →
  (∀ queue sid q s, length (fns s) = S (length (fns st)) → Φ s →
                    Φ (fnQueue queue sid (length (fns st)) q s)) →
  Φ st →
  handleAsyncDependencies i deps st = Some (c, st') → Φ st'.
Proof.
  intros Hext Hqueue Hnew HfnQueue H. unfold handleAsyncDependencies.
  destruct (instances st !! i) as [inst|]; [|done].
  destruct (handleAsyncDependencies_setup_preserves Φ inst deps st
              Hext Hqueue Hnew HfnQueue H) as (_ & H1 & _).
  destruct (handleAsyncDependencies_setup inst deps st) as [[[currentDeps fn] promise] st1].
  simpl in H1. destruct (negb _).
  - intros ?. by simplify_eq.
  - intros Hg. apply getResult_resolver in Hg. by eapply Hext.
Qed.

Lemma asyncResult_preserves (Φ : State → Prop) i err st c st' :
  (∀ s s', same_resolver s s' → Φ s → Φ s') →
  (∀ q s, Φ s → Φ (resolveQueue q s)) →
  Φ st →
  asyncResult i err st = Some (c, st') → Φ st'.
Proof.
  intros Hext Hres H. unfold asyncResult.
  destruct (instances st !! i) as [inst|]; [|done].
  intros ?. simplify_eq. apply Hres.
  destruct (truthy err).
  - eapply Hext; [|done].
    eapply same_resolver_trans; [apply set_ext_resolver|apply settlePromise_resolver].
  - eapply Hext; [apply settlePromise_resolver|done].
Qed.

Lemma run_job_preserves (Φ : State → Prop) st :
  (∀ s s', same_resolver s s' → Φ s → Φ s') →
  (∀ q s, Φ s → Φ (resolveQueue q s)) →
  Φ st → Φ (run_job st).
Proof.
  intros Hext Hres H. unfold run_job.
  destruct (jobs st) as [|[r outcome] rest]; [done|].
  assert (H1 : Φ (with_jobs rest st)) by (apply (Hext st); [by repeat split|done]).
  destruct r as [e derived|obj queue], outcome as [|v|v]; cbn [run_reaction]; try done.
  - eapply Hext; [apply settlePromise_resolver|done].
  - eapply Hext; [apply settlePromise_resolver|done].
  - apply Hres. eapply Hext; [apply set_ext_resolver|done].
  - apply Hres. eapply Hext; [apply set_ext_resolver|done].
Qed.

Lemma same_resolver_entries_bounded s s' :
  same_resolver s s' → entries_bounded s → entries_bounded s'.
Proof. intros (Hq & Hf & _ & _). apply entries_bounded_ext; [done|by rewrite Hf]. Qed.

Lemma same_resolver_own_queues_ok s s' :
  same_resolver s s' → own_queues_ok s → own_queues_ok s'.
Proof. intros (Hq & _ & Hi & _). by apply own_queues_ok_ext. Qed.

Lemma same_resolver_fn_inv fn s s' :
  same_resolver s s' → fn_inv fn s → fn_inv fn s'.
Proof. intros (Hq & Hf & _ & Hc). by apply fn_inv_ext. Qed.

Lemma called_bounded_ext st st' :
  called st' = called st → length (fns st) ≤ length (fns st') →
  called_bounded st → called_bounded st'.
Proof. intros Hc Hl Hb f Hf. rewrite Hc in Hf. specialize (Hb f Hf). lia. Qed.

Lemma same_resolver_called_bounded s s' :
  same_resolver s s' → called_bounded s → called_bounded s'.
Proof. intros (_ & Hf & _ & Hc). apply called_bounded_ext; [done|by rewrite Hf]. Qed.

Lemma called_bounded_fire_fn f st : called_bounded st → called_bounded (fire_fn f st).
Proof.
  intros Hb. unfold fire_fn. destruct (fns st !! f) as [x|] eqn:Hx; [|done].
  assert (Hd : called_bounded (decrement_fn f st)).
  { revert Hb. apply called_bounded_ext; [done|]. simpl. by rewrite length_alter. }
  destruct (queueCount x =? 0)%Z.
  - unfold call_fn. destruct (fns (decrement_fn f st) !! f) as [y|] eqn:Hy; [|done].
    eapply same_resolver_called_bounded; [apply settlePromise_resolver|].
    intros f' Hf'. simpl in *. apply elem_of_app in Hf' as [Hf'|Hf']; [by apply Hd|].
    apply list_elem_of_singleton in Hf' as ->. by eapply lookup_lt_Some.
  - revert Hd. apply called_bounded_ext; [done|]. simpl. by rewrite !length_alter.
Qed.

Lemma called_bounded_resolveQueue queue st :
  called_bounded st → called_bounded (resolveQueue queue st).
Proof.
  intros Hb. destruct queue as [q|]; [|done]. unfold resolveQueue.
  destruct (queues st !! q) as [aq|]; [|done].
  destruct (negb (resolved aq)); [|done].
  apply foldl_preserves; [intros s f; apply called_bounded_fire_fn|].
  apply foldl_preserves; [|done].
  intros s f. apply called_bounded_ext; [done|]. simpl. by rewrite length_alter.
Qed.

Lemma called_bounded_fnQueue queue sid f q st :
  called_bounded st → called_bounded (fnQueue queue sid f q st).
Proof.
  destruct (fnQueue_cases queue sid f q st) as (_ & Hc & _).
  apply called_bounded_ext; [done|]. by rewrite fnQueue_fns_length.
Qed.

Lemma called_bounded_end i st : called_bounded st → called_bounded (asyncModule_end i st).
Proof.
  unfold asyncModule_end.
  destruct (instances st !! i) as [inst|]; [|done].
  destruct (inst_running inst); [|done].
  destruct (inst_queue inst); by apply called_bounded_ext.
Qed.

(** Every call of the runtime keeps the resolver well formed. *)
Lemma wf_handleAsyncDependencies i deps st c st' :
  wf st → handleAsyncDependencies i deps st = Some (c, st') → wf st'.
Proof.
  intros (Hb & Hok & Hcb) H. split; [|split].
  - eapply (handleAsyncDependencies_preserves entries_bounded); [| | | |exact Hb|exact H].
    + apply same_resolver_entries_bounded.
    + intros s. apply (entries_bounded_append _ _ [{| resolved := false; entries := [] |}]);
        [done|by repeat constructor|done].
    + intros s x _. apply entries_bounded_ext; [done|simpl; rewrite length_app; lia].
    + intros queue sid q s Hlen. apply entries_bounded_fnQueue. lia.
  - eapply (handleAsyncDependencies_preserves own_queues_ok); [| | | |exact Hok|exact H].
    + apply same_resolver_own_queues_ok.
    + intros s. apply own_queues_ok_allocQueue.
    + intros s x _. by apply own_queues_ok_ext.
    + intros queue sid q s _. apply own_queues_ok_fnQueue.
  - eapply (handleAsyncDependencies_preserves called_bounded); [| | | |exact Hcb|exact H].
    + apply same_resolver_called_bounded.
    + intros s. by apply called_bounded_ext.
    + intros s x _. apply called_bounded_ext; [done|simpl; rewrite length_app; lia].
    + intros queue sid q s _. apply called_bounded_fnQueue.
Qed.

Lemma wf_resolveQueue queue st : wf st → wf (resolveQueue queue st).
Proof.
  intros (Hb & Hok & Hcb). split; [|split].
  - by apply entries_bounded_resolveQueue.
  - by apply own_queues_ok_resolveQueue.
  - by apply called_bounded_resolveQueue.
Qed.

Lemma same_resolver_wf s s' : same_resolver s s' → wf s → wf s'.
Proof.
  intros Hs (Hb & Hok & Hcb). split; [|split].
  - by eapply same_resolver_entries_bounded.
  - by eapply same_resolver_own_queues_ok.
  - by eapply same_resolver_called_bounded.
Qed.

Lemma wf_run_call c st : wf st → wf (run_call c st).
Proof.
  intros Hwf. destruct c as [module hasAwait|i|i deps|i err|p outcome|]; simpl.
  - destruct (asyncModule_begin module hasAwait st) as [[c st']|] eqn:H; simpl; [|done].
    destruct Hwf as (Hb & Hok & Hcb).
    split; [by eapply entries_bounded_begin|]. split; [by eapply own_queues_ok_begin|].
    destruct (asyncModule_begin_frame _ _ _ _ _ H) as (Hf & Hc & _).
    revert Hcb. apply called_bounded_ext; [done|by rewrite Hf].
  - destruct Hwf as (Hb & Hok & Hcb).
    split; [by apply entries_bounded_end|].
    split; [by apply own_queues_ok_end|by apply called_bounded_end].
  - destruct (handleAsyncDependencies i deps st) as [[c st']|] eqn:H; simpl; [|done].
    by eapply wf_handleAsyncDependencies.
  - destruct (asyncResult i err st) as [[c st']|] eqn:H; simpl; [|done].
    eapply (asyncResult_preserves wf); [| |exact Hwf|exact H].
    + apply same_resolver_wf.
    + intros q s. apply wf_resolveQueue.
  - destruct (_ && _); [|done].
    eapply same_resolver_wf; [apply settlePromise_resolver|done].
  - apply (run_job_preserves wf); [| |done].
    + apply same_resolver_wf.
    + intros q s. apply wf_resolveQueue.
Qed.

Lemma wf_initialState : wf initialState.
Proof.
  split; [|split].
  - intros q aq f Hq. by destruct q.
  - intros i inst q Hi. by destruct i.
  - intros f Hf. by apply elem_of_nil in Hf.
Qed.

Lemma wf_run_calls cs st : wf st → wf (run_calls cs st).
Proof.
  unfold run_calls. revert st. induction cs as [|c cs IH]; intros st H; simpl; [done|].
  apply IH. by apply wf_run_call.
Qed.

(** Every call of the runtime keeps the invariant of a continuation that
    is registered already. *)
Lemma fn_inv_run_call fn c st :
  own_queues_ok st → fn_inv fn st → fn_inv fn (run_call c st).
Proof.
  intros Hok Hinv. destruct c as [module hasAwait|i|i deps|i err|p outcome|]; simpl.
  - destruct (asyncModule_begin module hasAwait st) as [[c st']|] eqn:H; simpl; [|done].
    destruct (asyncModule_begin_frame _ _ _ _ _ H) as (Hf & Hc & Hq & _).
    destruct hasAwait.
    + apply (fn_inv_ext fn (allocQueue true st).2); [done..|].
      by apply fn_inv_allocQueue.
    + rewrite app_nil_r in Hq. by apply (fn_inv_ext fn st).
  - by apply fn_inv_end.
  - destruct (handleAsyncDependencies i deps st) as [[c st']|] eqn:H; simpl; [|done].
    eapply (handleAsyncDependencies_preserves (fn_inv fn)); [| | | |exact Hinv|exact H].
    + apply same_resolver_fn_inv.
    + intros s. apply fn_inv_allocQueue.
    + intros s x _. apply fn_inv_newfn.
    + intros queue sid q s _. apply fn_inv_fnQueue. destruct Hinv as (Hfn & _). lia.
  - destruct (asyncResult i err st) as [[c st']|] eqn:H; simpl; [|done].
    eapply (asyncResult_preserves (fn_inv fn)); [| |exact Hinv|exact H].
    + apply same_resolver_fn_inv.
    + intros q s. apply fn_inv_resolveQueue.
  - destruct (_ && _); [|done].
    eapply same_resolver_fn_inv; [apply settlePromise_resolver|done].
  - apply (run_job_preserves (fn_inv fn)); [| |done].
    + apply same_resolver_fn_inv.
    + intros q s. apply fn_inv_resolveQueue.
Qed.

Lemma fn_inv_run_calls fn cs st :
  wf st → fn_inv fn st → wf (run_calls cs st) ∧ fn_inv fn (run_calls cs st).
Proof.
  unfold run_calls. revert st. induction cs as [|c cs IH]; intros st Hwf Hinv; simpl; [done|].
  apply IH; [by apply wf_run_call|]. apply fn_inv_run_call; [by destruct Hwf as (_ & ? & _)|done].
Qed.

(** ** Resolver: registration *)

Lemma filter_length_ext {A} (P Q : A → Prop)
    `{!∀ x, Decision (P x)} `{!∀ x, Decision (Q x)} (l : list A) :
  (∀ x, x ∈ l → (P x ↔ Q x)) → length (filter P l) = length (filter Q l).
Proof.
  induction l as [|x l IH]; intros Hl; [done|].
  rewrite !filter_cons.
  pose proof (Hl x ltac:(apply elem_of_cons; by left)) as Hx.
  assert (IH' : length (filter P l) = length (filter Q l))
    by (apply IH; intros y Hy; apply Hl, elem_of_cons; by right).
  destruct (decide (P x)), (decide (Q x)); simpl; try tauto; by rewrite IH'.
Qed.

Lemma filter_length_none {A} (P : A → Prop) `{!∀ x, Decision (P x)} (l : list A) :
  (∀ x, x ∈ l → ¬ P x) → length (filter P l) = 0.
Proof.
  induction l as [|x l IH]; intros Hl; [done|].
  rewrite filter_cons_False by (apply Hl, elem_of_cons; by left).
  apply IH. intros y Hy. apply Hl, elem_of_cons. by right.
Qed.

Lemma registering_fresh sid x st :
  entries_bounded st → called_bounded st →
  queueCount x = 0%Z →
  registering sid (length (fns st)) (with_fns (fns st ++ [x]) st).
Proof.
  intros Hb Hcb Hx.
  assert (Hnone : ∀ q aq, queues st !! q = Some aq → length (fns st) ∉ entries aq).
  { intros q aq Hq Hin. specialize (Hb q aq _ Hq Hin). lia. }
  split; [simpl; rewrite length_app; simpl; lia|]. split; [|split].
  - unfold fn_count, holders. simpl. rewrite lookup_snoc, Hx.
    rewrite filter_length_none; [done|].
    intros aq Haq. apply list_elem_of_lookup_1 in Haq as [q Hq]. by apply Hnone in Hq.
  - unfold calls_of. simpl. apply occ_not_elem_of. intros Hin.
    specialize (Hcb _ Hin). lia.
  - simpl. intros q aq Hq Hin. by apply Hnone in Hq.
Qed.

Lemma registering_fnQueue queue sid fn q st :
  registering sid fn st → registering sid fn (fnQueue queue sid fn q st).
Proof.
  intros Hreg. pose proof Hreg as (Hfn & Hcount & Hcalls & Hheld). unfold fnQueue.
  destruct (sets st !! sid) as [set|] eqn:Hset; [|done].
  destruct (bool_decide (Some q ≠ queue) && negb (bool_decide (q ∈ set))) eqn:Hcond;
    [|done].
  apply andb_true_iff in Hcond as [_ Hnin]. apply negb_true_iff in Hnin.
  apply bool_decide_eq_false in Hnin.
  assert (Hset' : <[sid := set ++ [q]]> (sets st) !! sid = Some (set ++ [q])).
  { apply list_lookup_insert_eq. by eapply lookup_lt_Some. }
  assert (Hgrow : ∀ q0 aq0, queues st !! q0 = Some aq0 → fn ∈ entries aq0 →
            resolved aq0 = false ∧ occ fn (entries aq0) = 1 ∧
            ∃ set', <[sid := set ++ [q]]> (sets st) !! sid = Some set' ∧ q0 ∈ set').
  { intros q0 aq0 Hq0 Hin. destruct (Hheld q0 aq0 Hq0 Hin) as (? & ? & set0 & Hs0 & ?).
    assert (set0 = set) as -> by congruence.
    repeat split; try done. exists (set ++ [q]). split; [done|].
    apply elem_of_app. by left. }
  assert (Hst1 : registering sid fn (with_sets (<[sid := set ++ [q]]> (sets st)) st)).
  { split; [done|]. split; [done|]. split; [done|]. exact Hgrow. }
  simpl. destruct (queues st !! q) as [aq|] eqn:Hq; [|done].
  destruct (resolved aq) eqn:Hres; simpl; [done|].
  assert (Hfresh : fn ∉ entries aq).
  { intros Hin. destruct (Hheld q aq Hq Hin) as (_ & _ & set0 & Hs0 & ?).
    assert (set0 = set) as -> by congruence. done. }
  apply lookup_lt_is_Some_2 in Hfn as Hx. destruct Hx as [x Hx].
  split; [simpl; by rewrite length_alter|]. split; [|split].
  - unfold holders, fn_count in *. simpl. rewrite list_lookup_alter_eq, Hx. simpl.
    rewrite Hx in Hcount.
    pose proof (filter_length_alter (λ aq, fn ∈ entries aq)
                  (λ aq, {| resolved := resolved aq; entries := entries aq ++ [fn] |})
                  q (queues st) aq Hq) as Hlen.
    simpl in Hlen. rewrite decide_False in Hlen by done.
    rewrite decide_True in Hlen by (apply elem_of_app; right; by apply list_elem_of_singleton).
    lia.
  - done.
  - simpl. intros q0 aq0 Hq0 Hin. destruct (decide (q = q0)) as [<-|Hne].
    + rewrite list_lookup_alter_eq, Hq in Hq0. simplify_eq/=.
      split; [done|]. split.
      * rewrite occ_snoc, decide_True by done. apply occ_not_elem_of in Hfresh. lia.
      * exists (set ++ [q]). split; [done|]. apply elem_of_app. right.
        by apply list_elem_of_singleton.
    + rewrite list_lookup_alter_ne in Hq0 by done. by apply Hgrow.
Qed.

Lemma registering_unresolved_holders sid fn st :
  registering sid fn st → unresolved_holders st fn = holders st fn.
Proof.
  intros (_ & _ & _ & Hheld). unfold unresolved_holders, holders.
  apply filter_length_ext. intros aq Haq.
  apply list_elem_of_lookup_1 in Haq as [q Hq]. split; [tauto|].
  intros Hin. split; [done|]. by destruct (Hheld q aq Hq Hin).
Qed.

Lemma registering_fn_inv sid fn st :
  registering sid fn st → 1 ≤ holders st fn → fn_inv fn st.
Proof.
  intros Hreg Hpos. pose proof (registering_unresolved_holders _ _ _ Hreg) as Huh.
  destruct Hreg as (Hfn & Hcount & Hcalls & Hheld).
  split; [done|]. split.
  - intros q aq Hq. destruct (decide (fn ∈ entries aq)) as [Hin|Hnin].
    + destruct (Hheld q aq Hq Hin) as (_ & -> & _). done.
    + apply occ_not_elem_of in Hnin. lia.
  - left. rewrite Huh. done.
Qed.

(** ** Resolver: the queues holding a continuation do not change *)

Lemma held_by_ext fn n st st' :
  queues st' = queues st → length (fns st) ≤ length (fns st') →
  held_by fn n st → held_by fn n st'.
Proof. unfold held_by, holders. intros -> Hl [? ?]. split; [lia|done]. Qed.

Lemma same_resolver_held_by fn n s s' :
  same_resolver s s' → held_by fn n s → held_by fn n s'.
Proof. intros (Hq & Hf & _ & _). apply held_by_ext; [done|by rewrite Hf]. Qed.

Lemma held_by_alter fn n st st' q (g : AsyncQueue → AsyncQueue) :
  queues st' = alter g q (queues st) →
  (∀ aq, fn ∈ entries (g aq) ↔ fn ∈ entries aq) →
  length (fns st) ≤ length (fns st') →
  held_by fn n st → held_by fn n st'.
Proof.
  unfold held_by, holders. intros -> Hg Hl [? <-]. split; [lia|].
  apply filter_length_alter_iff. intros x _. apply Hg.
Qed.

Lemma held_by_append fn n st st' extra :
  queues st' = queues st ++ extra →
  Forall (λ aq, entries aq = []) extra →
  length (fns st) ≤ length (fns st') →
  held_by fn n st → held_by fn n st'.
Proof.
  unfold held_by, holders. intros -> Hextra Hl [? <-]. split; [lia|].
  rewrite filter_app, length_app, (filter_length_none _ extra); [lia|].
  intros aq Haq. rewrite Forall_forall in Hextra. rewrite (Hextra aq Haq).
  apply not_elem_of_nil.
Qed.

Lemma held_by_resolveQueue fn n queue st :
  held_by fn n st → held_by fn n (resolveQueue queue st).
Proof.
  destruct (resolveQueue_frame queue st) as (_ & Hl & [Hq|(q & aq & _ & _ & Hq)]).
  - apply held_by_ext; [done|lia].
  - eapply held_by_alter; [done|done|lia].
Qed.

Lemma held_by_fnQueue fn n queue sid f q st :
  f ≠ fn → held_by fn n st → held_by fn n (fnQueue queue sid f q st).
Proof.
  intros Hne.
  destruct (fnQueue_cases queue sid f q st) as (_ & _ & [[Hq Hf]|(aq & _ & _ & Hq & Hf)]).
  - apply held_by_ext; [done|by rewrite Hf].
  - eapply held_by_alter; [done| |by rewrite Hf, length_alter].
    intros x. simpl. rewrite elem_of_app, list_elem_of_singleton. split; [|tauto].
    intros [?|?]; [done|congruence].
Qed.

Lemma held_by_run_call fn n c st : held_by fn n st → held_by fn n (run_call c st).
Proof.
  intros Hh. destruct c as [module hasAwait|i|i deps|i err|p outcome|]; simpl.
  - destruct (asyncModule_begin module hasAwait st) as [[c st']|] eqn:H; simpl; [|done].
    destruct (asyncModule_begin_frame _ _ _ _ _ H) as (Hf & _ & Hq & _).
    eapply held_by_append; [done| |by rewrite Hf|done].
    destruct hasAwait; by repeat constructor.
  - unfold asyncModule_end.
    destruct (instances st !! i) as [inst|]; [|done].
    destruct (inst_running inst); [|done].
    destruct (inst_queue inst) as [q|].
    + eapply held_by_alter; [done|done|done|done].
    + by apply (held_by_ext fn n st).
  - destruct (handleAsyncDependencies i deps st) as [[c st']|] eqn:H; simpl; [|done].
    eapply (handleAsyncDependencies_preserves (held_by fn n)); [| | | |exact Hh|exact H].
    + apply same_resolver_held_by.
    + intros s. apply (held_by_append _ _ _ _ [{| resolved := false; entries := [] |}]);
        [done|by repeat constructor|done].
    + intros s x _. apply held_by_ext; [done|simpl; rewrite length_app; lia].
    + intros queue sid q s _. apply held_by_fnQueue. destruct Hh as [? _]. lia.
  - destruct (asyncResult i err st) as [[c st']|] eqn:H; simpl; [|done].
    eapply (asyncResult_preserves (held_by fn n)); [| |exact Hh|exact H].
    + apply same_resolver_held_by.
    + intros q s. apply held_by_resolveQueue.
  - destruct (_ && _); [|done].
    eapply same_resolver_held_by; [apply settlePromise_resolver|done].
  - apply (run_job_preserves (held_by fn n)); [| |done].
    + apply same_resolver_held_by.
    + intros q s. apply held_by_resolveQueue.
Qed.

Lemma held_by_run_calls fn n cs st : held_by fn n st → held_by fn n (run_calls cs st).
Proof.
  unfold run_calls. revert st. induction cs as [|c cs IH]; intros st H; simpl; [done|].
  apply IH. by apply held_by_run_call.
Qed.

Lemma handleAsyncDependencies_setup_registering inst deps st :
  wf st →
  (handleAsyncDependencies_setup inst deps st).1.1.2 = length (fns st) ∧
  registering (inst_depQueues inst) (length (fns st))
              (handleAsyncDependencies_setup inst deps st).2.
Proof.
  intros (Hb & _ & Hcb). unfold handleAsyncDependencies_setup.
  pose proof (wrapDeps_preserves
                (λ s, entries_bounded s ∧ called_bounded s ∧ fns s = fns st) deps st) as Hw.
  destruct (wrapDeps deps st) as [currentDeps st1]. simpl in Hw.
  destruct Hw as (Hb1 & Hcb1 & Hf1); [| |done|].
  { intros s s' Hs (? & ? & ?). split; [by eapply same_resolver_entries_bounded|].
    split; [by eapply same_resolver_called_bounded|]. destruct Hs as (_ & -> & _). done. }
  { intros s (? & ? & ?). split; [|split; [|done]].
    - eapply (entries_bounded_append s _ [{| resolved := false; entries := [] |}]);
        [done|by repeat constructor|done|done].
    - by apply (called_bounded_ext s). }
  simpl.
  set (st3 := with_heap _ (with_heap _ st1)).
  set (x := {| queueCount := 0; fn_promise := _; fn_getResult := _ |}).
  change (fns st3) with (fns st1). rewrite Hf1. split; [done|].
  apply register_deps_preserves; [intros q s; apply registering_fnQueue|].
  rewrite <- Hf1. change (fns st1) with (fns st3).
  apply registering_fresh; [| |done].
  - revert Hb1. by apply entries_bounded_ext.
  - revert Hcb1. by apply called_bounded_ext.
Qed.

(** C1. [handleAsyncDependencies(deps)] creates one continuation [fn].
    When it has registered [fn], the [queueCount] of [fn] is the number
    of queues that hold it, each of these queues is unresolved and holds
    it once, and [fn] has not run.  If that number is positive the call
    returns the promise, and after any sequence of calls of the runtime,
    in any order, the queues holding [fn] are still the same in number;
    [fn] has run once if all of them are resolved and has not run
    otherwise, and until it runs its [queueCount] is the number of them
    that are still unresolved. *)
Theorem fan_in_exactly_once (st : State) (i : iid) (inst : AsyncInstance)
    (deps : list value) :
  wf st →
  instances st !! i = Some inst →
  let setup := handleAsyncDependencies_setup inst deps st in
  let fn := setup.1.1.2 in
  let promise := setup.1.2 in
  let st' := setup.2 in
  fn_count st' fn = Z.of_nat (holders st' fn) ∧
  calls_of st' fn = 0 ∧
  (∀ q aq, queues st' !! q = Some aq → fn ∈ entries aq →
           resolved aq = false ∧ occ fn (entries aq) = 1) ∧
  (1 ≤ holders st' fn →
   handleAsyncDependencies i deps st = Some (Normal (VObj promise), st') ∧
   ∀ cs,
     let s := run_calls cs st' in
     holders s fn = holders st' fn ∧
     calls_of s fn = (if unresolved_holders s fn =? 0 then 1 else 0) ∧
     fn_count s fn = (if unresolved_holders s fn =? 0 then (-1)%Z
                      else Z.of_nat (unresolved_holders s fn))).
Proof.
  intros Hwf Hi setup fn promise st'.
  destruct (handleAsyncDependencies_setup_registering inst deps st Hwf) as [Hfn Hreg].
  fold setup in Hfn, Hreg. fold fn in Hfn. fold st' in Hreg. rewrite <- Hfn in Hreg.
  pose proof Hreg as (Hlt & Hcount & Hcalls & Hheld).
  split; [done|]. split; [done|]. split.
  { intros q aq Hq Hin. destruct (Hheld q aq Hq Hin) as (? & ? & _). done. }
  intros Hpos.
  assert (Hrun : handleAsyncDependencies i deps st = Some (Normal (VObj promise), st')).
  { unfold handleAsyncDependencies. rewrite Hi.
    unfold fn, promise, st', setup in *.
    destruct (handleAsyncDependencies_setup inst deps st) as [[[cd f] p] s1]. simpl in *.
    rewrite Hcount. destruct (Z.of_nat (holders s1 f) =? 0)%Z eqn:Hz; [|done].
    apply Z.eqb_eq in Hz. lia. }
  split; [done|]. intros cs s.
  assert (Hwf' : wf st') by (by eapply wf_handleAsyncDependencies).
  destruct (fn_inv_run_calls fn cs st' Hwf' (registering_fn_inv _ _ _ Hreg Hpos))
    as (_ & _ & _ & Hcases).
  destruct (held_by_run_calls fn (holders st' fn) cs st' ltac:(by split)) as [_ Hheld'].
  fold s in Hcases, Hheld'. split; [done|].
  destruct Hcases as [(Hk & Hc & Hp)|(Hk & Hc & Hz)].
  - rewrite Hk, Hc. destruct (unresolved_holders s fn =? 0) eqn:Hz; [|done].
    apply Nat.eqb_eq in Hz. lia.
  - rewrite Hk, Hc, Hz. done.
Qed.

(** ** Resolver: faults *)

Lemma ext_of_settlePromise p o st d : ext_of (settlePromise p o st) d = ext_of st d.
Proof.
  unfold settlePromise.
  destruct (heap st !! p) as [[| |[] rs ext| | |]|] eqn:Hp; try done.
  unfold ext_of. simpl. destruct (decide (p = d)) as [<-|Hne].
  - rewrite list_lookup_insert_eq by (by eapply lookup_lt_Some). by rewrite Hp.
  - by rewrite list_lookup_insert_ne.
Qed.

Lemma ext_of_heap st st' d : heap st' = heap st → ext_of st' d = ext_of st d.
Proof. unfold ext_of. by intros ->. Qed.

Lemma ext_of_fire_fn f st d : ext_of (fire_fn f st) d = ext_of st d.
Proof.
  unfold fire_fn. destruct (fns st !! f) as [x|]; [|done].
  destruct (queueCount x =? 0)%Z; [|done].
  unfold call_fn. destruct (fns (decrement_fn f st) !! f) as [y|]; [|done].
  by rewrite ext_of_settlePromise.
Qed.

Lemma ext_of_resolveQueue queue st d : ext_of (resolveQueue queue st) d = ext_of st d.
Proof.
  destruct queue as [q|]; [|done]. unfold resolveQueue.
  destruct (queues st !! q) as [aq|]; [|done].
  destruct (negb (resolved aq)); [|done].
  apply (foldl_preserves (λ s, ext_of s d = ext_of st d)).
  - intros s f Hs. by rewrite ext_of_fire_fn.
  - by apply (foldl_preserves (λ s, ext_of s d = ext_of st d)).
Qed.

Lemma ext_of_set_ext_wrapper st obj e g :
  heap st !! obj = Some (CWrapper e) → ext_of (set_ext obj g st) obj = Some (g e).
Proof.
  intros Hobj. unfold set_ext, ext_of. rewrite Hobj. simpl.
  by rewrite list_lookup_insert_eq by (by eapply lookup_lt_Some).
Qed.

Lemma ext_of_set_ext_promise st p s rs e g :
  heap st !! p = Some (CPromise s rs (Some e)) → ext_of (set_ext p g st) p = Some (g e).
Proof.
  intros Hp. unfold set_ext, ext_of. rewrite Hp. simpl.
  by rewrite list_lookup_insert_eq by (by eapply lookup_lt_Some).
Qed.

Lemma getResult_map_spec st ds exts :
  Forall2 (λ d e, ext_of st d = Some e) ds exts →
  getResult_map st ds = Some (getResult_of exts).
Proof.
  unfold getResult_of. induction 1 as [|d e ds exts Hd Hrest IH]; simpl; [done|].
  rewrite Hd. destruct (truthy (turbopackError e)) eqn:He.
  - rewrite decide_True by done. done.
  - rewrite decide_False by congruence. rewrite IH.
    destruct (list_find _ exts) as [[i e']|]; done.
Qed.

Lemma ext_of_set_ext_ne st obj g d : d ≠ obj → ext_of (set_ext obj g st) d = ext_of st d.
Proof.
  intros Hne. unfold set_ext, ext_of.
  destruct (heap st !! obj) as [[| |s rs [e|]| e | |]|]; try done;
    simpl; by rewrite list_lookup_insert_ne.
Qed.

Lemma no_new_rejection_refl st : no_new_rejection st st.
Proof. intros p x rs ext H. eauto. Qed.

Lemma no_new_rejection_trans st1 st2 st3 :
  no_new_rejection st1 st2 → no_new_rejection st2 st3 → no_new_rejection st1 st3.
Proof.
  intros H12 H23 p x rs ext H.
  destruct (H23 _ _ _ _ H) as (rs' & ext' & H'). eauto.
Qed.

Lemma no_new_rejection_heap st st' : heap st' = heap st → no_new_rejection st st'.
Proof. intros Hh p x rs ext H. rewrite Hh in H. eauto. Qed.

Lemma no_new_rejection_fulfil st p v : no_new_rejection st (settlePromise p (Fulfilled v) st).
Proof.
  unfold settlePromise.
  destruct (heap st !! p) as [[| |[] rs0 ext0| | |]|] eqn:Hp;
    try apply no_new_rejection_refl.
  intros p' x rs ext H. simpl in H.
  destruct (decide (p = p')) as [<-|Hne].
  - rewrite list_lookup_insert_eq in H by (by eapply lookup_lt_Some). simplify_eq.
  - rewrite list_lookup_insert_ne in H by done. eauto.
Qed.

Lemma no_new_rejection_set_ext st obj g : no_new_rejection st (set_ext obj g st).
Proof.
  unfold set_ext.
  destruct (heap st !! obj) as [[| |s rs0 [e|]| e | |]|] eqn:Hp;
    try apply no_new_rejection_refl.
  - intros p' x rs ext H. simpl in H.
    destruct (decide (obj = p')) as [<-|Hne].
    + rewrite list_lookup_insert_eq in H by (by eapply lookup_lt_Some). simplify_eq. eauto.
    + rewrite list_lookup_insert_ne in H by done. eauto.
  - intros p' x rs ext H. simpl in H.
    destruct (decide (obj = p')) as [<-|Hne].
    + rewrite list_lookup_insert_eq in H by (by eapply lookup_lt_Some). simplify_eq.
    + rewrite list_lookup_insert_ne in H by done. eauto.
Qed.

Lemma no_new_rejection_fire_fn st0 f st :
  no_new_rejection st0 st → no_new_rejection st0 (fire_fn f st).
Proof.
  intros H0. eapply no_new_rejection_trans; [exact H0|].
  unfold fire_fn. destruct (fns st !! f) as [x|]; [|apply no_new_rejection_refl].
  destruct (queueCount x =? 0)%Z; [|by apply no_new_rejection_heap].
  unfold call_fn. destruct (fns (decrement_fn f st) !! f) as [y|];
    [|by apply no_new_rejection_heap].
  eapply no_new_rejection_trans; [|apply no_new_rejection_fulfil].
  by apply no_new_rejection_heap.
Qed.

Lemma no_new_rejection_resolveQueue queue st : no_new_rejection st (resolveQueue queue st).
Proof.
  destruct queue as [q|]; [|apply no_new_rejection_refl]. unfold resolveQueue.
  destruct (queues st !! q) as [aq|]; [|apply no_new_rejection_refl].
  destruct (negb (resolved aq)); [|apply no_new_rejection_refl].
  apply (foldl_preserves (no_new_rejection st)).
  - intros s f Hs. by apply no_new_rejection_fire_fn.
  - apply (foldl_preserves (no_new_rejection st)).
    + intros s f Hs. eapply no_new_rejection_trans; [exact Hs|].
      by apply no_new_rejection_heap.
    + by apply no_new_rejection_heap.
Qed.

Lemma getResult_map_throws st ds D e :
  D ∈ ds → ext_of st D = Some e → truthy (turbopackError e) = true →
  (∀ d, d ∈ ds → d ≠ D → ∃ x, ext_of st d = Some x ∧ truthy (turbopackError x) = false) →
  getResult_map st ds = Some (Throw (Thrown (turbopackError e))).
Proof.
  intros Hin HD He. induction ds as [|d ds IH]; intros Hsib; [by inversion Hin|].
  simpl. destruct (decide (d = D)) as [->|Hne].
  - by rewrite HD, He.
  - destruct (Hsib d) as (x & Hx & Hxf); [left|done|]. rewrite Hx, Hxf.
    rewrite IH; [done| |].
    + apply elem_of_cons in Hin as [?|?]; [congruence|done].
    + intros d' Hd'. apply Hsib. by right.
Qed.

Lemma getResult_map_exports st ds :
  (∀ d, d ∈ ds → ∃ x, ext_of st d = Some x ∧ truthy (turbopackError x) = false) →
  getResult_map st ds = Some (Normal (handle_exports st <$> ds)).
Proof.
  induction ds as [|d ds IH]; intros H; simpl; [done|].
  destruct (H d) as (x & Hx & Hfalse); [by left|].
  unfold handle_exports at 1. rewrite Hx, Hfalse. simpl.
  rewrite IH; [done|]. intros d' Hd'. apply H. by right.
Qed.

(** C3 (as amended).  When the promise wrapped as handle [D] of a fan-in
    set rejects with [err] while the other handles of the set carry no
    error, the callback of [wrapDeps] stores [err] on [D], leaves every
    other handle as it was and rejects no promise, so nothing is raised
    while the fan-in completes.  The result function of the set then
    raises [err] and yields no value of any sibling when [err] is truthy;
    when [err] is falsy it raises nothing and yields the exports of every
    handle, [D] included. *)
Theorem fault_stored_then_raised_by_getResult
    (st : State) (ds : list loc) (D : loc) (queue : qid) (e : AsyncModuleExt) (err : value) :
  heap st !! D = Some (CWrapper e) →
  D ∈ ds →
  (∀ d, d ∈ ds → d ≠ D →
        ∃ x, ext_of st d = Some x ∧ truthy (turbopackError x) = false) →
  let st' := run_reaction (ReactWrapDep D queue) (Rejected err) st in
  ext_of st' D = Some (set_turbopackError err e) ∧
  (∀ d, d ≠ D → ext_of st' d = ext_of st d) ∧
  no_new_rejection st st' ∧
  getResult_map st' ds
  = Some (if truthy err then Throw (Thrown err)
          else Normal (handle_exports st <$> ds)).
Proof.
  intros HD Hin Hsib st'. subst st'. cbn [run_reaction].
  assert (ext_of (resolveQueue (Some queue) (set_ext D (set_turbopackError err) st)) D
          = Some (set_turbopackError err e)) as Hstored.
  { rewrite ext_of_resolveQueue. by apply ext_of_set_ext_wrapper. }
  assert (∀ d, d ≠ D →
            ext_of (resolveQueue (Some queue) (set_ext D (set_turbopackError err) st)) d
            = ext_of st d) as Hothers.
  { intros d Hne. rewrite ext_of_resolveQueue. by apply ext_of_set_ext_ne. }
  split; [exact Hstored|]. split; [exact Hothers|]. split.
  - eapply no_new_rejection_trans; [apply no_new_rejection_set_ext|].
    apply no_new_rejection_resolveQueue.
  - destruct (truthy err) eqn:Herr.
    + apply (getResult_map_throws _ ds D (set_turbopackError err e)); try done.
      intros d Hd Hne. rewrite Hothers by done. by apply Hsib.
    + rewrite getResult_map_exports.
      * f_equal. f_equal. apply list_fmap_ext. intros k d Hd.
        unfold handle_exports. destruct (decide (d = D)) as [->|Hne].
        -- rewrite Hstored. unfold ext_of. by rewrite HD.
        -- by rewrite Hothers.
      * intros d Hd. destruct (decide (d = D)) as [->|Hne].
        -- eexists. split; [exact Hstored|]. done.
        -- rewrite Hothers by done. by apply Hsib.
Qed.

(** ** The resolver scenario *)

Lemma wf_async_started : wf async_started.
Proof.
  split; [|split].
  - intros q aq f Hq Hf. destruct q as [|[|q]]; simpl in Hq; simplify_eq;
      by apply elem_of_nil in Hf.
  - intros i inst q Hi Hq.
    assert (q = i ∧ i < 2) as [-> Hlt].
    { destruct i as [|[|i]]; simpl in Hi; simplify_eq; simpl in Hq; simplify_eq;
        split; lia. }
    split; [simpl; lia|]. split.
    + intros Hrun. destruct i as [|[|i]]; simpl in Hi; simplify_eq; done.
    + intros i' inst' Hi' Hq'.
      destruct i' as [|[|i']]; simpl in Hi'; simplify_eq; simpl in Hq'; by simplify_eq.
  - intros f Hf. by apply elem_of_nil in Hf.
Qed.

Lemma fan_in_exactly_once_witness :
  let setup :=
    handleAsyncDependencies_setup
      {| inst_queue := Some 1; inst_depQueues := 1; inst_promise := 11;
         inst_exports := VObj 10; inst_running := true |}
      [VObj 9; VObj 7; VNum 3] async_started in
  let fn := setup.1.1.2 in
  let st' := setup.2 in
  fn_count st' fn = 2%Z ∧
  calls_of st' fn = 0 ∧
  calls_of (run_calls [CallAsyncResult 0 VUndefined;
                       CallSettle 7 (Rejected (VStr "boom"));
                       CallRunJob] st') fn = 1.
Proof.
  intros setup fn st'.
  pose proof (fan_in_exactly_once async_started 1
                {| inst_queue := Some 1; inst_depQueues := 1; inst_promise := 11;
                   inst_exports := VObj 10; inst_running := true |}
                [VObj 9; VObj 7; VNum 3] wf_async_started
                ltac:(vm_compute; reflexivity)) as H.
  cbv zeta in H. subst st' fn setup.
  destruct H as (Hcount & Hcalls & _ & Hlater).
  split; [|split].
  - rewrite Hcount. vm_compute; reflexivity.
  - exact Hcalls.
  - destruct (Hlater ltac:(vm_compute; lia)) as [_ Hrun].
    destruct (Hrun [CallAsyncResult 0 VUndefined;
                    CallSettle 7 (Rejected (VStr "boom"));
                    CallRunJob]) as (_ & Hfired & _).
    rewrite Hfired. vm_compute; reflexivity.
Defined.

(** The result function raises the stored error of the failed
    dependency although both siblings succeeded and their values sit on
    their handles; and when the failed dependency is resolved already,
    the error is raised by the registration itself. *)
Lemma getResult_raises_for_siblings :
  (ext_of async_settled 9 =
     Some {| turbopackQueues := QueuesModule (Some 0) 0; turbopackExports := VObj 8;
             turbopackError := VUndefined |} ∧
   ext_of async_settled 14 =
     Some {| turbopackQueues := QueuesNone; turbopackExports := VNum 3;
             turbopackError := VUndefined |} ∧
   fst <$> call_getResult (VObj 15) async_settled
   = Some (Throw (Thrown (VStr "boom")))) ∧
  fst <$> handleAsyncDependencies 1 [VNum 3; VObj 9] async_failed_early
  = Some (Throw (Thrown (VStr "boom"))).
Proof. repeat split; vm_compute; reflexivity. Qed.

Lemma fault_stored_then_raised_by_getResult_witness :
  let st := run_calls [CallAsyncResult 0 VUndefined;
                       CallSettle 7 (Rejected (VStr "boom"))] async_waiting in
  let st' := run_reaction (ReactWrapDep 13 2) (Rejected (VStr "boom")) st in
  ext_of st' 13 =
    Some {| turbopackQueues := QueuesPrivate 2; turbopackExports := VObj 12;
            turbopackError := VStr "boom" |} ∧
  getResult_map st' [9; 13; 14] = Some (Throw (Thrown (VStr "boom"))).
Proof.
  intros st st'.
  destruct (fault_stored_then_raised_by_getResult st [9; 13; 14] 13 2
              {| turbopackQueues := QueuesPrivate 2; turbopackExports := VObj 12;
                 turbopackError := VUndefined |} (VStr "boom"))
    as (Hstored & _ & _ & Hraised).
  - vm_compute; reflexivity.
  - by_compute.
  - intros d Hd Hne.
    apply elem_of_cons in Hd as [->|Hd]; [eexists; split; vm_compute; reflexivity|].
    apply elem_of_cons in Hd as [->|Hd]; [done|].
    apply list_elem_of_singleton in Hd as ->. eexists; split; vm_compute; reflexivity.
  - split; [exact Hstored|exact Hraised].
Defined.

(** With every dependency resolved, [handleAsyncDependencies] hands the
    caller the array of values itself, which is not callable. *)
Lemma handleAsyncDependencies_sync_returns_array :
  let r := handleAsyncDependencies 1 [VNum 3] async_started in
  let st' := state_after r async_started in
  fst <$> r = Some (Normal (VObj 15)) ∧
  heap st' !! 15 = Some (CArray [VNum 3]) ∧
  cell_callable <$> heap st' !! 15 = Some false ∧
  typeof st' (VObj 15) = "object".
Proof. repeat split; vm_compute; reflexivity. Qed.

(** ** Reads in a heap that has grown *)

Lemma has_property_mono st s k :
  extends st s →
  ∀ n m o b, n ≤ m → has_property n st o k = Some b → has_property m s o k = Some b.
Proof.
  intros [Hh _]. induction n as [|n IH]; intros m o b Hle H.
  - destruct m; simpl in *;
      destruct (heap st !! o) as [c|] eqn:Ho; try done;
      rewrite (Hh _ _ Ho); destruct c; try done;
      repeat case_match; simplify_eq; done.
  - destruct m as [|m]; [lia|]. simpl in *.
    destruct (heap st !! o) as [c|] eqn:Ho; [|done].
    rewrite (Hh _ _ Ho).
    destruct c; try (apply IH; [lia|done]);
      repeat case_match; simplify_eq; try done; apply IH; try lia; done.
Qed.

Lemma hasOwnProperty_mono st s k :
  extends st s →
  ∀ n m o r, n ≤ m → hasOwnProperty n st o k = Some r → hasOwnProperty m s o k = Some r.
Proof.
  intros [Hh _]. induction n as [|n IH]; intros m o r Hle H.
  - destruct m; destruct o as [| | | | |l]; simpl in *; try done;
      destruct (heap st !! l) as [c|] eqn:Ho; try done;
      rewrite (Hh _ _ Ho); destruct c; done.
  - destruct m as [|m]; [lia|]. destruct o as [| | | | |l]; simpl in *; try done.
    destruct (heap st !! l) as [c|] eqn:Ho; [|done].
    rewrite (Hh _ _ Ho). destruct c; try done. apply IH; [lia|done].
Qed.

Lemma get_from_reexported_mono (get get' : value → PropertyKey → option (completion value))
    reexported prop r :
  (∀ o r, get o prop = Some r → get' o prop = Some r) →
  get_from_reexported get reexported prop = Some r →
  get_from_reexported get' reexported prop = Some r.
Proof.
  intros Hget. induction reexported as [|obj rest IH]; simpl; [done|].
  destruct (get obj prop) as [[v|e]|] eqn:Hg; [| |done].
  - rewrite (Hget _ _ Hg). destruct (decide (v = VUndefined)); done.
  - rewrite (Hget _ _ Hg). done.
Qed.

Lemma Reflect_get_mono st s :
  extends st s →
  ∀ n m o k r, n ≤ m → Reflect_get n st o k = Some r → Reflect_get m s o k = Some r.
Proof.
  intros Hext. pose proof Hext as [Hh Ha].
  induction n as [|n IH]; intros m o k r Hle H.
  - destruct m; destruct o as [| | | | |l]; simpl in *; try done;
      destruct (heap st !! l) as [c|] eqn:Ho; try done;
      rewrite (Hh _ _ Ho); destruct c; try done;
      repeat case_match; simplify_eq; done.
  - destruct m as [|m]; [lia|]. destruct o as [| | | | |l]; simpl in *; try done.
    destruct (heap st !! l) as [c|] eqn:Ho; [|done].
    rewrite (Hh _ _ Ho).
    assert (Hrec : ∀ o k r, Reflect_get n st o k = Some r → Reflect_get m s o k = Some r).
    { intros. apply (IH m); [lia|done]. }
    destruct c as [ob|target b a|ps rs ext|e|cd|el].
    2:{ destruct (arrays st !! a) as [objs|] eqn:Harr; [|done].
        rewrite (Ha _ _ Harr). unfold handler_get in *.
        destruct (hasOwnProperty n st (VObj target) k) as [[own|e]|] eqn:Hown; [| |done].
        - rewrite (hasOwnProperty_mono st s k Hext n m _ _ ltac:(lia) Hown).
          destruct (own || _ || _); [by apply Hrec|].
          eapply get_from_reexported_mono; [|done]. intros. by apply Hrec.
        - rewrite (hasOwnProperty_mono st s k Hext n m _ _ ltac:(lia) Hown). done. }
    all: repeat case_match; simplify_eq; try done; by apply Hrec.
Qed.

Lemma quiet_extension_extends st s : quiet_extension st s → extends st s.
Proof.
  intros (_ & _ & _ & Ha & vs & Hh). split.
  - intros l c Hl. rewrite Hh. by apply lookup_app_l_Some.
  - intros a objs. by rewrite Ha.
Qed.

Lemma quiet_extension_cell st s l c :
  quiet_extension st s → heap s !! l = Some c →
  heap st !! l = Some c ∨ (heap st !! l = None ∧ ∃ v, c = plain_wrapper v).
Proof.
  intros (_ & _ & _ & _ & vs & Hh) Hl. rewrite Hh in Hl.
  apply lookup_app_Some in Hl as [Hl|[Hge Hl]]; [by left|right].
  split; [by apply lookup_ge_None_2|].
  rewrite list_lookup_fmap in Hl.
  destruct (vs !! (l - length (heap st))) as [v|]; simpl in Hl; simplify_eq.
  by exists v.
Qed.

Lemma typeof_quiet st s v :
  quiet_extension st s →
  typeof st v ≠ "function" → typeof s v ≠ "function".
Proof.
  intros Hext. destruct v as [| | | | |l]; simpl; try done.
  destruct (heap s !! l) as [c|] eqn:Hl; [|done].
  destruct (quiet_extension_cell st s l c Hext Hl) as [->|[-> [v ->]]]; done.
Qed.

Lemma not_thenable_quiet st s l :
  quiet_extension st s → not_thenable st l = true → isPromise s l = false.
Proof.
  intros Hext Hno. pose proof (quiet_extension_extends st s Hext) as Hgrow.
  assert (length (heap st) ≤ length (heap s)) as Hle.
  { destruct Hext as (_ & _ & _ & _ & vs & ->). rewrite length_app. lia. }
  unfold not_thenable in Hno. unfold isPromise.
  destruct (heap st !! l) as [c|] eqn:Hl; [|done].
  rewrite (proj1 Hgrow _ _ Hl).
  assert (Hgen :
    match has_property (length (heap s)) s l "then" with
    | Some true =>
        match Reflect_get (length (heap s)) s (VObj l) "then" with
        | Some (Normal v) => bool_decide (typeof s v = "function")
        | _ => false
        end
    | _ => false
    end = false).
  { destruct (has_property (length (heap st)) st l "then") as [[]|] eqn:Hhas;
      [| |by destruct c].
    - rewrite (has_property_mono st s _ Hgrow _ _ _ _ Hle Hhas).
      destruct (Reflect_get (length (heap st)) st (VObj l) "then") as [[v|e]|] eqn:Hget;
        [|by destruct c..].
      rewrite (Reflect_get_mono st s Hgrow _ _ _ _ _ Hle Hget).
      apply bool_decide_eq_false. apply (typeof_quiet st s); [done|].
      destruct c; try done; by apply negb_true_iff, bool_decide_eq_false in Hno.
    - by rewrite (has_property_mono st s _ Hgrow _ _ _ _ Hle Hhas). }
  destruct c; try done; rewrite Hgen; apply andb_false_r.
Qed.

(** ** Resolver: the fast path *)

Lemma ext_of_lookup st st' l : heap st' !! l = heap st !! l → ext_of st' l = ext_of st l.
Proof. unfold ext_of. by intros ->. Qed.

Lemma settled_handle_alloc st s c d :
  settled_handle st s d → settled_handle st (alloc c s).2 d.
Proof.
  intros (e & He & Hq). exists e. split; [|done].
  rewrite <- He. apply ext_of_lookup. simpl.
  apply lookup_app_l. unfold ext_of in He.
  destruct (heap s !! d) eqn:Hd; [by eapply lookup_lt_Some|done].
Qed.

Lemma quiet_extension_plain st s v :
  quiet_extension st s → quiet_extension st (alloc (plain_wrapper v) s).2.
Proof.
  intros (Hq & Hs & Hf & Ha & vs & Hheap). repeat split; simpl; try done.
  exists (vs ++ [v]). by rewrite Hheap, fmap_app, app_assoc.
Qed.

Lemma settled_handle_plain st s v :
  settled_handle st (alloc (plain_wrapper v) s).2 (length (heap s)).
Proof.
  eexists. split.
  - unfold ext_of. simpl. rewrite lookup_snoc. reflexivity.
  - reflexivity.
Qed.

Lemma wrapDep_resolved st s dep :
  quiet_extension st s → dep_resolved st dep = true →
  quiet_extension st (wrapDep dep s).2 ∧
  settled_handle st (wrapDep dep s).2 (wrapDep dep s).1 ∧
  (∀ d, settled_handle st s d → settled_handle st (wrapDep dep s).2 d).
Proof.
  intros Hext Hdep.
  assert (Hplain :
    quiet_extension st (alloc (plain_wrapper dep) s).2 ∧
    settled_handle st (alloc (plain_wrapper dep) s).2 (alloc (plain_wrapper dep) s).1 ∧
    (∀ d, settled_handle st s d → settled_handle st (alloc (plain_wrapper dep) s).2 d)).
  { split; [by apply quiet_extension_plain|].
    split; [apply settled_handle_plain|]. intros d. apply settled_handle_alloc. }
  unfold wrapDep. fold (plain_wrapper dep).
  destruct dep as [| | | | |l]; try exact Hplain.
  case_bool_decide as Hty; [|exact Hplain].
  unfold isAsyncModuleExt. destruct (ext_of s l) as [e|] eqn:He; simpl.
  - split; [done|]. split; [|done]. exists e. split; [done|].
    unfold ext_of in He. destruct (heap s !! l) as [c|] eqn:Hl; [|done].
    destruct (quiet_extension_cell st s l c Hext Hl) as [Hsame|[_ [v ->]]].
    + simpl in Hdep. unfold ext_of in Hdep. rewrite Hsame in Hdep.
      destruct c as [| |? ? [?|]| | |]; by simplify_eq.
    + unfold plain_wrapper in He. by simplify_eq.
  - destruct (isPromise s l) eqn:Hp; [|exact Hplain]. exfalso.
    unfold dep_resolved in Hdep.
    assert (typeof st (VObj l) = "object" ∧ ext_of st l = None) as [Hty' He'].
    { simpl in Hty. unfold ext_of in *.
      destruct (heap s !! l) as [c|] eqn:Hl.
      - destruct (quiet_extension_cell st s l c Hext Hl) as [Hsame|[_ [v ->]]];
          [|done]. simpl. by rewrite Hsame.
      - assert (heap st !! l = None) as Hnone.
        { destruct (heap st !! l) as [c|] eqn:Hl'; [|done].
          by rewrite (proj1 (quiet_extension_extends st s Hext) _ _ Hl') in Hl. }
        simpl. by rewrite Hnone. }
    rewrite He', Hty' in Hdep. simpl in Hdep.
    by rewrite (not_thenable_quiet st s l Hext Hdep) in Hp.
Qed.

Lemma wrapDeps_resolved st deps : ∀ s,
  quiet_extension st s → forallb (dep_resolved st) deps = true →
  quiet_extension st (wrapDeps deps s).2 ∧
  (∀ d, d ∈ (wrapDeps deps s).1 → settled_handle st (wrapDeps deps s).2 d) ∧
  (∀ d, settled_handle st s d → settled_handle st (wrapDeps deps s).2 d).
Proof.
  induction deps as [|dep deps IH]; intros s Hext Hall; simpl.
  - split; [done|]. split; [|done]. intros d Hd. by apply elem_of_nil in Hd.
  - simpl in Hall. apply andb_true_iff in Hall as [Hdep Hall].
    destruct (wrapDep_resolved st s dep Hext Hdep) as (Hext1 & Hd1 & Hmono1).
    destruct (wrapDep dep s) as [d1 s1]. simpl in Hext1, Hd1, Hmono1.
    destruct (IH s1 Hext1 Hall) as (Hext2 & Hds & Hmono2).
    destruct (wrapDeps deps s1) as [ds s2]. simpl in *.
    split; [done|]. split.
    + intros d Hd. apply elem_of_cons in Hd as [->|Hd]; eauto.
    + eauto.
Qed.

Lemma fnQueue_quiet st s0 s queue depQueues fn q :
  queues s0 = queues st →
  quiet_registration st s0 s → resolved_in st q = true →
  quiet_registration st s0 (fnQueue queue depQueues fn q s).
Proof.
  intros Hq0 Hs Hres. pose proof Hs as (Hh & Hq & Hf & Hsets). unfold fnQueue.
  destruct (sets s !! depQueues) as [set|] eqn:Hset; [|done].
  destruct (bool_decide (Some q ≠ queue) && negb (bool_decide (q ∈ set))); [|done].
  assert (quiet_registration st s0
            (with_sets (<[depQueues := set ++ [q]]> (sets s)) s)) as H1.
  { repeat split; try done. simpl. intros dq set' q' Hlook Hin.
    destruct (decide (dq = depQueues)) as [->|Hne].
    - rewrite list_lookup_insert_eq in Hlook by (by eapply lookup_lt_Some).
      simplify_eq. apply elem_of_app in Hin as [Hin|Hin]; [eauto|].
      apply list_elem_of_singleton in Hin as ->. by left.
    - rewrite list_lookup_insert_ne in Hlook by done. eauto. }
  simpl. destruct (queues s !! q) as [aq|] eqn:Haq; [|done].
  unfold resolved_in in Hres. rewrite <- Hq0, <- Hq, Haq in Hres.
  by rewrite Hres.
Qed.

Lemma foldl_fnQueue_quiet st s0 queue depQueues fn l : ∀ s,
  queues s0 = queues st →
  quiet_registration st s0 s → (∀ q, q ∈ l → resolved_in st q = true) →
  quiet_registration st s0 (foldl (λ s' q, fnQueue queue depQueues fn q s') s l).
Proof.
  induction l as [|q l IH]; intros s Hq0 Hs Hl; simpl; [done|].
  apply IH; [done| |].
  - apply fnQueue_quiet; [done..|]. apply Hl. by left.
  - intros q' Hq'. apply Hl. by right.
Qed.

Lemma call_turbopackQueues_quiet st s0 s queue depQueues fn qf :
  queues s0 = queues st →
  quiet_registration st s0 s →
  forallb (resolved_in st) (queues_of st qf) = true →
  quiet_registration st s0 (call_turbopackQueues qf (fnQueue queue depQueues fn) s).
Proof.
  intros Hq0 Hs Hall.
  assert (∀ q, q ∈ queues_of st qf → resolved_in st q = true) as Hres.
  { intros q Hin. rewrite forallb_forall in Hall. by apply Hall, list_elem_of_In. }
  clear Hall. destruct qf as [|q|oq dq]; simpl.
  - done.
  - apply fnQueue_quiet; [done..|]. apply Hres. by left.
  - set (s1 := match oq with
               | Some q => fnQueue queue depQueues fn q s
               | None => s
               end).
    assert (quiet_registration st s0 s1) as Hs1.
    { unfold s1. destruct oq as [q|]; [|done].
      apply fnQueue_quiet; [done..|]. apply Hres. simpl. by left. }
    destruct (sets s1 !! dq) as [set|] eqn:Hset; [|done].
    apply foldl_fnQueue_quiet; [done..|].
    intros q Hin. destruct Hs1 as (_ & _ & _ & Hsets).
    destruct (Hsets dq set q Hset Hin) as [|(set0 & Hset0 & Hin0)]; [done|].
    apply Hres. simpl. apply elem_of_app. right. by rewrite Hset0.
Qed.

Lemma register_deps_quiet st s0 queue depQueues fn ds : ∀ s,
  queues s0 = queues st →
  quiet_registration st s0 s →
  (∀ d, d ∈ ds → settled_handle st s0 d) →
  quiet_registration st s0 (register_deps queue depQueues fn ds s).
Proof.
  unfold register_deps.
  induction ds as [|d ds IH]; intros s Hq0 Hs Hds; simpl; [done|].
  apply IH; [done| |].
  - destruct (ext_of s d) as [e|] eqn:He; [|done].
    apply call_turbopackQueues_quiet; [done..|].
    destruct (Hds d) as (e' & He' & Hall); [by left|].
    rewrite (ext_of_heap s0 s) in He by apply Hs. by simplify_eq.
  - intros d' Hd'. apply Hds. by right.
Qed.

Lemma settled_handle_heap st s s' d :
  heap s' = heap s → settled_handle st s d → settled_handle st s' d.
Proof.
  intros Hh (e & He & Hall). exists e. by rewrite (ext_of_heap s s').
Qed.

Lemma handles_exts s ds :
  (∀ d, d ∈ ds → ∃ e, ext_of s d = Some e) →
  ∃ exts, Forall2 (λ d e, ext_of s d = Some e) ds exts.
Proof.
  induction ds as [|d ds IH]; intros H.
  - by exists [].
  - destruct (H d) as [e He]; [by left|].
    destruct IH as [exts Hexts]; [intros d' Hd'; apply H; by right|].
    exists (e :: exts). by constructor.
Qed.

(** With every dependency resolved, the registration leaves the count
    of the new continuation at zero. *)
Lemma handleAsyncDependencies_setup_quiet st inst deps :
  forallb (dep_resolved st) deps = true →
  let setup := handleAsyncDependencies_setup inst deps st in
  fn_count setup.2 setup.1.1.2 = 0%Z ∧
  setup.1.2 < length (heap setup.2) ∧
  ∀ d, d ∈ setup.1.1.1 → ∃ e, ext_of setup.2 d = Some e.
Proof.
  intros Hall.
  assert (quiet_extension st st) as Hrefl.
  { repeat split; try done. exists []. by rewrite app_nil_r. }
  destruct (wrapDeps_resolved st deps st Hrefl Hall) as (Hext & Hds & _).
  unfold handleAsyncDependencies_setup.
  destruct (wrapDeps deps st) as [cds st1]. simpl in Hext, Hds.
  unfold alloc. cbn -[register_deps].
  match goal with
  | |- context [register_deps _ _ _ _ ?s] => set (s4 := s)
  end.
  destruct Hext as (Hq & Hs & Hf & Ha & vs & Hheap).
  assert (quiet_registration st s4 s4) as H4.
  { repeat split; try done. intros dq set q Hset Hin. right. exists set.
    split; [|done]. rewrite <- Hs. exact Hset. }
  assert (∀ d, d ∈ cds → settled_handle st s4 d) as Hds4.
  { intros d Hd. apply (settled_handle_heap st
      (alloc (CPromise Pending [] None) (alloc (CGetResult cds) st1).2).2); [done|].
    by apply settled_handle_alloc, settled_handle_alloc, Hds. }
  pose proof (register_deps_quiet st s4 (inst_queue inst) (inst_depQueues inst)
                (length (fns st1)) cds s4 Hq H4 Hds4) as (Hh' & Hq' & Hf' & _).
  split; [|split].
  - unfold fn_count. rewrite Hf'. simpl. by rewrite lookup_snoc.
  - rewrite Hh'. simpl. rewrite !length_app. simpl. lia.
  - intros d Hd. destruct (Hds4 d Hd) as (e & He & _). exists e.
    by rewrite (ext_of_heap s4).
Qed.

Lemma fnQueue_heap queue depQueues f q st :
  heap (fnQueue queue depQueues f q st) = heap st.
Proof. unfold fnQueue. repeat case_match; done. Qed.

Lemma setup_promise_allocated inst deps st :
  (handleAsyncDependencies_setup inst deps st).1.2
  < length (heap (handleAsyncDependencies_setup inst deps st).2).
Proof.
  unfold handleAsyncDependencies_setup.
  destruct (wrapDeps deps st) as [cds st1]. unfold alloc. cbn -[register_deps].
  match goal with
  | |- context [register_deps ?q ?d ?f ?ds ?s] =>
      assert (heap (register_deps q d f ds s) = heap s) as ->
  end.
  { apply (register_deps_preserves (λ s, heap s = _)); [|done].
    intros q s Hs. by rewrite fnQueue_heap. }
  simpl. rewrite !length_app. simpl. lia.
Qed.

Lemma holders_positive st fn :
  1 ≤ holders st fn → ∃ q aq, queues st !! q = Some aq ∧ fn ∈ entries aq.
Proof.
  unfold holders. intros Hpos.
  destruct (filter (λ aq, fn ∈ entries aq) (queues st)) as [|aq rest] eqn:Hf;
    [simpl in Hpos; lia|].
  assert (aq ∈ filter (λ aq, fn ∈ entries aq) (queues st)) as Hin
    by (rewrite Hf; by left).
  apply list_elem_of_filter in Hin as [Hfn Hin].
  apply list_elem_of_lookup in Hin as [q Hq]. eauto.
Qed.

(** C2 (as amended).  When every dependency is resolved at
    registration time, that is, each is a value that is no object, a
    function, an object that is known to be no thenable, or a handle all
    of whose queues are resolved, the count of the new continuation
    stays at zero and [handleAsyncDependencies] runs [getResult] itself:
    the caller gets the array of the dependencies' values, or the first
    stored error is raised to it.  And when the call returns the
    promise, some dependency is not resolved: it is a handle with an
    unresolved queue, a promise or another thenable, or an object whose
    [then] cannot be read; in a well-formed resolver state some queue is
    then unresolved and holds the new continuation. *)
Theorem handleAsyncDependencies_fast_path
    (st : State) (i : iid) (inst : AsyncInstance) (deps : list value) :
  instances st !! i = Some inst →
  let setup := handleAsyncDependencies_setup inst deps st in
  let currentDeps := setup.1.1.1 in
  let fn := setup.1.1.2 in
  let promise := setup.1.2 in
  let st' := setup.2 in
  (forallb (dep_resolved st) deps = true →
   fn_count st' fn = 0%Z ∧
   ∃ exts, Forall2 (λ d e, ext_of st' d = Some e) currentDeps exts ∧
     handleAsyncDependencies i deps st =
       match getResult_of exts with
       | Normal vs => Some (Normal (VObj (length (heap st'))),
                            with_heap (heap st' ++ [CArray vs]) st')
       | Throw e => Some (Throw e, st')
       end) ∧
  (∀ s, handleAsyncDependencies i deps st = Some (Normal (VObj promise), s) →
        forallb (dep_resolved st) deps = false ∧
        s = st' ∧
        (wf st →
         ∃ q aq, queues st' !! q = Some aq ∧ resolved aq = false ∧ fn ∈ entries aq)).
Proof.
  intros Hi setup currentDeps fn promise st'.
  assert (Hsync : forallb (dep_resolved st) deps = true →
    fn_count st' fn = 0%Z ∧
    ∃ exts, Forall2 (λ d e, ext_of st' d = Some e) currentDeps exts ∧
      handleAsyncDependencies i deps st =
        match getResult_of exts with
        | Normal vs => Some (Normal (VObj (length (heap st'))),
                             with_heap (heap st' ++ [CArray vs]) st')
        | Throw e => Some (Throw e, st')
        end).
  { intros Hall.
    destruct (handleAsyncDependencies_setup_quiet st inst deps Hall) as (Hc & Hp & He).
    fold setup in Hc, Hp, He. fold st' in Hc, Hp, He. fold fn in Hc.
    fold promise in Hp. fold currentDeps in He.
    split; [done|].
    destruct (handles_exts st' currentDeps He) as [exts Hexts].
    exists exts. split; [done|].
    unfold handleAsyncDependencies. rewrite Hi.
    unfold currentDeps, fn, st', setup in *.
    destruct (handleAsyncDependencies_setup inst deps st) as [[[cds f] p] s'].
    simpl in *. rewrite Hc. simpl.
    unfold getResult, bind, query, allocCell, alloc, ret.
    rewrite (getResult_map_spec _ _ _ Hexts).
    by destruct (getResult_of exts). }
  split; [exact Hsync|].
  intros s Hret.
  pose proof (setup_promise_allocated inst deps st) as Hp.
  fold setup in Hp. fold promise in Hp. fold st' in Hp.
  assert (Hcount : fn_count st' fn ≠ 0%Z ∧ s = st').
  { unfold handleAsyncDependencies in Hret. rewrite Hi in Hret.
    unfold promise, fn, st', setup in *.
    destruct (handleAsyncDependencies_setup inst deps st) as [[[cds f] p] s'].
    simpl in *. destruct (fn_count s' f =? 0)%Z eqn:Hz.
    - exfalso. simpl in Hret. unfold getResult, bind, query, allocCell, alloc, ret in Hret.
      destruct (getResult_map s' cds) as [[vs|e]|]; simplify_eq. lia.
    - simpl in Hret. apply Z.eqb_neq in Hz. by simplify_eq. }
  destruct Hcount as [Hcount ->]. split; [|split; [done|]].
  - destruct (forallb (dep_resolved st) deps) eqn:Hall; [|done].
    by destruct (Hsync eq_refl) as [? _].
  - intros Hwf.
    destruct (handleAsyncDependencies_setup_registering inst deps st Hwf) as [Hfn Hreg].
    fold setup in Hfn, Hreg. fold fn in Hfn. fold st' in Hreg. rewrite <- Hfn in Hreg.
    destruct Hreg as (_ & Hheld & _ & Hqueues).
    destruct (holders_positive st' fn) as (q & aq & Hq & Hin); [lia|].
    exists q, aq. split; [done|]. split; [|done].
    by destruct (Hqueues q aq Hq Hin).
Qed.

Lemma handleAsyncDependencies_fast_path_witness :
  let inst :=
    {| inst_queue := Some 1; inst_depQueues := 1; inst_promise := 11;
       inst_exports := VObj 10; inst_running := true |} in
  let setup := handleAsyncDependencies_setup inst [VObj 9; VObj 5; VNum 3] async_done_early in
  fn_count setup.2 setup.1.1.2 = 0%Z ∧
  forallb (dep_resolved async_started) [VObj 9; VObj 7; VNum 3] = false ∧
  forallb (dep_resolved async_thenable) [VObj 13] = false.
Proof.
  intros inst setup. split; [|split].
  - pose proof (handleAsyncDependencies_fast_path async_done_early 1 inst
                  [VObj 9; VObj 5; VNum 3] ltac:(vm_compute; reflexivity)) as H.
    cbv zeta in H. subst setup. destruct H as [Hsync _].
    destruct (Hsync ltac:(vm_compute; reflexivity)) as [Hcount _].
    exact Hcount.
  - pose proof (handleAsyncDependencies_fast_path async_started 1 inst
                  [VObj 9; VObj 7; VNum 3] ltac:(vm_compute; reflexivity)) as H.
    cbv zeta in H. destruct H as [_ Hpromise].
    apply (Hpromise async_waiting). vm_compute; reflexivity.
  - pose proof (handleAsyncDependencies_fast_path async_thenable 1 inst
                  [VObj 13] ltac:(vm_compute; reflexivity)) as H.
    cbv zeta in H. destruct H as [_ Hpromise].
    apply (Hpromise (state_after (handleAsyncDependencies 1 [VObj 13] async_thenable)
                                 async_thenable)).
    vm_compute; reflexivity.
Defined.

(** * Further properties of the runtime *)

(** ** Defining exports *)

(** X1.  [defineProp] never replaces a property: on an ordinary object
    that owns [name] already the call changes nothing at all; otherwise
    the object gains [name] with the given descriptor, and every other
    property and the prototype stay as they were. *)
Theorem defineProp_keeps_owned fuel st l o name options :
  heap st !! l = Some (CObject o) →
  ∃ st' o',
    defineProp fuel (VObj l) name options st = Some (Normal tt, st') ∧
    (isSome (lookup_prop name (props o)) = true → st' = st) ∧
    heap st' !! l = Some (CObject o') ∧
    proto o' = proto o ∧
    ∀ k, lookup_prop k (props o')
         = match lookup_prop k (props o) with
           | Some q => Some q
           | None => if decide (k = name) then Some options else None
           end.
Proof.
  intros Hl. unfold defineProp, bind, query.
  rewrite (hasOwnProperty_object fuel st l o name Hl).
  destruct (lookup_prop name (props o)) as [q|] eqn:Hown; simpl.
  - exists st, o. repeat split; try done.
    intros k. destruct (lookup_prop k (props o)) eqn:Hk; [done|].
    destruct (decide (k = name)) as [->|]; [congruence|done].
  - assert (Object_defineProperty fuel (VObj l) name options st
            = Some (Normal tt,
                    store l (CObject {| proto := proto o; callable := callable o;
                                        props := add_prop name options (props o) |}) st))
      as ->.
    { destruct fuel; simpl; by rewrite Hl. }
    eexists _, _. split; [done|]. split; [done|]. split.
    + rewrite heap_store. apply list_lookup_insert_eq. by eapply lookup_lt_Some.
    + split; [done|]. intros k. simpl. rewrite lookup_add_prop by done.
      destruct (decide (k = name)) as [->|]; [by rewrite Hown|].
      by destruct (lookup_prop k (props o)).
Qed.

Lemma defineProp_keeps_owned_witness :
  defineProp 0 (VObj 5) (KStr "a") (DataProp (VNum 9) true) cjs_state
  = Some (Normal tt, cjs_state).
Proof.
  destruct (defineProp_keeps_owned 0 cjs_state 5
              {| proto := VObj ObjectPrototype; callable := false;
                 props := [(KStr "a", DataProp (VNum 1) true)] |}
              (KStr "a") (DataProp (VNum 9) true) eq_refl)
    as (st' & o' & Hrun & Hsame & _).
  rewrite Hrun. rewrite (Hsame eq_refl). reflexivity.
Defined.

(** X2.  Two calls of [esm] on the same ordinary object: a name keeps
    the property it had before the calls; a name the first call defines
    keeps that definition; only names neither had get the definition of
    the second call. *)
Theorem esm_first_definition_wins fuel st l o getters1 getters2 :
  heap st !! l = Some (CObject o) →
  ∃ st1 st2 o2,
    esm fuel (VObj l) getters1 st = Some (Normal tt, st1) ∧
    esm fuel (VObj l) getters2 st1 = Some (Normal tt, st2) ∧
    heap st2 !! l = Some (CObject o2) ∧
    ∀ k, lookup_prop k (props o2)
         = match lookup_prop k (props o) with
           | Some q => Some q
           | None =>
               match lookup_prop k (esm_definitions getters1) with
               | Some q => Some q
               | None => lookup_prop k (esm_definitions getters2)
               end
           end.
Proof.
  intros Hl.
  destruct (esm_object fuel st l o getters1 Hl) as (st1 & Hrun1 & Hheap1).
  assert (heap st1 !! l
          = Some (CObject (set_props
                    (foldl define_absent (props o) (esm_definitions getters1)) o)))
    as Hl1.
  { rewrite Hheap1. apply list_lookup_insert_eq. by eapply lookup_lt_Some. }
  destruct (esm_object fuel st1 l _ getters2 Hl1) as (st2 & Hrun2 & Hheap2).
  eexists st1, st2, _. split; [done|]. split; [done|]. split.
  - rewrite Hheap2. apply list_lookup_insert_eq. by eapply lookup_lt_Some.
  - intros k. unfold set_props. cbn [props]. rewrite !lookup_foldl_define_absent.
    by destruct (lookup_prop k (props o)).
Qed.

Lemma esm_first_definition_wins_witness :
  ∃ st1 st2 o2,
    esm 0 (VObj 5) [("a", RawGetter (VNum 7)); ("c", RawGetter (VNum 8))] cjs_state
    = Some (Normal tt, st1) ∧
    esm 0 (VObj 5) [("c", RawGetter (VNum 9))] st1 = Some (Normal tt, st2) ∧
    heap st2 !! 5 = Some (CObject o2) ∧
    lookup_prop (KStr "a") (props o2) = Some (DataProp (VNum 1) true) ∧
    lookup_prop (KStr "c") (props o2) = Some (AccessorProp (RawGetter (VNum 8)) true).
Proof.
  destruct (esm_first_definition_wins 0 cjs_state 5
              {| proto := VObj ObjectPrototype; callable := false;
                 props := [(KStr "a", DataProp (VNum 1) true)] |}
              [("a", RawGetter (VNum 7)); ("c", RawGetter (VNum 8))]
              [("c", RawGetter (VNum 9))] eq_refl)
    as (st1 & st2 & o2 & H1 & H2 & Hl & Hprops).
  exists st1, st2, o2. split; [exact H1|]. split; [exact H2|]. split; [exact Hl|].
  split; rewrite Hprops; reflexivity.
Defined.

(** ** Publishing and importing *)

Lemma commonJsRequire_ok sourceModule id st m :
  modules st !! id = Some m →
  truthy (error m) = false →
  commonJsRequire sourceModule id st = Some (Normal (exports m), st).
Proof.
  intros Hm Herr.
  unfold commonJsRequire, getOrInstantiateModuleFromParent, bind, getModule.
  rewrite Hm. cbn beta iota. rewrite Hm. cbn beta iota. by rewrite Herr.
Qed.

(** X3.  After [esmExport(module, exports, getters)] on a module without
    an error whose [module.exports] is truthy, [esmImport] answers with
    [module.exports] itself, whatever object [exports] the getters were
    put on, and changes nothing. *)
Theorem esmExport_then_esmImport fuel fuel' sourceModule id st m l o getters :
  modules st !! id = Some m →
  truthy (error m) = false →
  truthy (exports m) = true →
  heap st !! l = Some (CObject o) →
  ∃ st', esmExport fuel id (VObj l) getters st = Some (Normal tt, st') ∧
         esmImport fuel' sourceModule id st' = Some (Normal (exports m), st').
Proof.
  intros Hm Herr Hex Hl. unfold esmExport, bind, getModule, setModule, modify.
  rewrite Hm. unfold exports_of.
  set (st1 := with_modules (<[id := set_namespaceObject (exports m) m]> (modules st)) st).
  destruct (esm_object fuel st1 l o getters Hl) as (st' & Hrun & _).
  exists st'. split; [done|].
  destruct (esm_frame _ _ _ _ _ _ Hrun) as (Hmods & _).
  apply (esmImport_hit fuel' sourceModule id st' (set_namespaceObject (exports m) m));
    [|done..].
  rewrite Hmods. unfold st1. simpl. apply lookup_insert_eq.
Qed.

Lemma esmExport_then_esmImport_witness :
  ∃ st', esmExport 0 "dep" (VObj 6) [("b", RawGetter (VNum 3))] cjs_state
         = Some (Normal tt, st') ∧
         esmImport 0 "importer" "dep" st' = Some (Normal (VObj 5), st').
Proof.
  apply (esmExport_then_esmImport 0 0 "importer" "dep" cjs_state
           (mkModule "dep" (VObj 5)) 6
           {| proto := VObj ObjectPrototype; callable := false;
              props := [(KStr "b", DataProp (VNum 2) true)] |}
           [("b", RawGetter (VNum 3))]);
    [vm_compute; reflexivity|reflexivity|reflexivity|reflexivity].
Defined.

(** X4.  After [exportValue(module, value)] on a module without an
    error, [commonJsRequire] answers with [value]; the namespace object
    is left alone, so [esmImport] still answers with the namespace the
    module had, when it had one. *)
Theorem exportValue_then_import fuel sourceModule id st m v :
  modules st !! id = Some m →
  truthy (error m) = false →
  ∃ st', exportValue id v st = Some (Normal tt, st') ∧
         heap st' = heap st ∧
         commonJsRequire sourceModule id st' = Some (Normal v, st') ∧
         (truthy (namespaceObject m) = true →
          esmImport fuel sourceModule id st' = Some (Normal (namespaceObject m), st')).
Proof.
  intros Hm Herr. unfold exportValue, bind, getModule, setModule, modify. rewrite Hm.
  eexists. split; [done|]. split; [done|]. split.
  - apply (commonJsRequire_ok sourceModule id _ (set_exports v m)); [|done].
    simpl. apply lookup_insert_eq.
  - intros Hns.
    apply (esmImport_hit fuel sourceModule id _ (set_exports v m)); [|done..].
    simpl. apply lookup_insert_eq.
Qed.

Lemma exportValue_then_import_witness :
  ∃ st', exportValue "dep" (VNum 42) cjs_state_imported = Some (Normal tt, st') ∧
         commonJsRequire "importer" "dep" st' = Some (Normal (VNum 42), st') ∧
         esmImport 0 "importer" "dep" st' = Some (Normal (VObj 7), st').
Proof.
  destruct (exportValue_then_import 0 "importer" "dep" cjs_state_imported
              {| exports := VObj 5; error := VUndefined; loaded := false;
                 module_id := "dep"; children := []; parents := [];
                 namespaceObject := VObj 7; REEXPORTED_OBJECTS := None |}
              (VNum 42) ltac:(vm_compute; reflexivity) eq_refl)
    as (st' & Hrun & _ & Hreq & Hns).
  exists st'. split; [exact Hrun|]. split; [exact Hreq|]. exact (Hns eq_refl).
Defined.

(** X5.  After [exportNamespace(module, namespace)] with a truthy
    [namespace] on a module without an error, both import paths answer
    with [namespace]. *)
Theorem exportNamespace_then_import fuel sourceModule id st m namespace :
  modules st !! id = Some m →
  truthy (error m) = false →
  truthy namespace = true →
  ∃ st', exportNamespace id namespace st = Some (Normal tt, st') ∧
         commonJsRequire sourceModule id st' = Some (Normal namespace, st') ∧
         esmImport fuel sourceModule id st' = Some (Normal namespace, st').
Proof.
  intros Hm Herr Hns. unfold exportNamespace, bind, getModule, setModule, modify.
  rewrite Hm. eexists. split; [done|]. split.
  - apply (commonJsRequire_ok sourceModule id _
             (set_exports namespace (set_namespaceObject namespace m))); [|done].
    simpl. apply lookup_insert_eq.
  - apply (esmImport_hit fuel sourceModule id _
             (set_exports namespace (set_namespaceObject namespace m))); [|done..].
    simpl. apply lookup_insert_eq.
Qed.

Lemma exportNamespace_then_import_witness :
  ∃ st', exportNamespace "dep" (VObj 6) cjs_state = Some (Normal tt, st') ∧
         commonJsRequire "importer" "dep" st' = Some (Normal (VObj 6), st') ∧
         esmImport 0 "importer" "dep" st' = Some (Normal (VObj 6), st').
Proof.
  apply (exportNamespace_then_import 0 "importer" "dep" cjs_state
           (mkModule "dep" (VObj 5)) (VObj 6));
    [vm_compute; reflexivity|reflexivity|reflexivity].
Defined.

(** ** The dynamic view *)

(** X6.  [ensureDynamicExports] creates the view at most once: after a
    call that returned, a further call, with whatever [exports],
    changes nothing. *)
Theorem ensureDynamicExports_idempotent module exports exports' st st' :
  ensureDynamicExports module exports st = Some (Normal tt, st') →
  ensureDynamicExports module exports' st' = Some (Normal tt, st').
Proof.
  unfold ensureDynamicExports, bind, getModule.
  destruct (modules st !! module) as [m|] eqn:Hm; [|done].
  destruct (REEXPORTED_OBJECTS m) as [a|] eqn:Ha.
  - unfold ret. intros [= <-]. by rewrite Hm, Ha.
  - unfold allocArray, setModule, modify, newProxy.
    destruct exports as [| | | | |target]; try done.
    unfold bind, query, allocCell, alloc. simpl.
    rewrite lookup_insert_eq. intros [= <-]. simpl.
    by rewrite lookup_insert_eq.
Qed.

Lemma ensureDynamicExports_idempotent_witness :
  let st' := state_after (ensureDynamicExports "m" (VObj 5) view_state) view_state in
  ensureDynamicExports "m" (VObj 6) st' = Some (Normal tt, st').
Proof.
  intros st'.
  apply (ensureDynamicExports_idempotent "m" (VObj 5) (VObj 6) view_state).
  vm_compute; reflexivity.
Defined.

(** X7.  Reading through the view a property the target owns, or
    [default], or [__esModule], is reading it off the target: the
    registered sources are not consulted, so a source never supplies
    [default] or [__esModule] and never shadows an own export. *)
Theorem view_get_bypasses_sources n st p target b a reexported prop own :
  heap st !! p = Some (CProxy target b a) →
  arrays st !! a = Some reexported →
  hasOwnProperty n st (VObj target) prop = Some (Normal own) →
  own = true ∨ prop = KStr "default" ∨ prop = KStr "__esModule" →
  Reflect_get (S n) st (VObj p) prop = Reflect_get n st (VObj target) prop.
Proof.
  intros Hp Ha Hown Hcase.
  rewrite (Reflect_get_proxy n st p target b a reexported prop Hp Ha).
  unfold handler_get. rewrite Hown.
  destruct Hcase as [->|[->| ->]]; [done| |].
  - rewrite bool_decide_true by done. by rewrite orb_true_r.
  - rewrite (bool_decide_true (KStr "__esModule" = KStr "__esModule")) by done.
    by rewrite orb_true_r.
Qed.

Lemma view_get_bypasses_sources_witness :
  Reflect_get 2 view_state_2 (VObj 8) (KStr "default") = Some (Normal VUndefined).
Proof.
  etrans.
  - apply (view_get_bypasses_sources 1 view_state_2 8 5 false 0 [VObj 6; VObj 7]
             (KStr "default") false);
      [vm_compute; reflexivity|vm_compute; reflexivity|vm_compute; reflexivity|].
    right. left. reflexivity.
  - vm_compute; reflexivity.
Defined.

Lemma get_from_reexported_first_defined get reexported prop vs :
  Forall2 (λ obj v, get obj prop = Some (Normal v)) reexported vs →
  get_from_reexported get reexported prop = Some (Normal (first_defined vs)).
Proof.
  unfold first_defined. induction 1 as [|obj v objs vs Hobj _ IH]; simpl; [done|].
  rewrite Hobj. destruct (decide (v = VUndefined)) as [->|Hv].
  - rewrite IH. by rewrite filter_cons_False by (intros ?; done).
  - by rewrite filter_cons_True.
Qed.

(** X8.  Reading through the view a property the target does not own,
    other than [default] and [__esModule], yields the value of the
    first registered source, in registration order, where the property
    is not [undefined], and [undefined] when there is no such source, in
    particular when no source is registered. *)
Theorem view_get_first_defined n st p target b a reexported prop vs :
  heap st !! p = Some (CProxy target b a) →
  arrays st !! a = Some reexported →
  hasOwnProperty n st (VObj target) prop = Some (Normal false) →
  prop ≠ KStr "default" → prop ≠ KStr "__esModule" →
  Forall2 (λ obj v, Reflect_get n st obj prop = Some (Normal v)) reexported vs →
  Reflect_get (S n) st (VObj p) prop = Some (Normal (first_defined vs)).
Proof.
  intros Hp Ha Hown Hd He Hvs.
  rewrite (Reflect_get_proxy n st p target b a reexported prop Hp Ha).
  unfold handler_get. rewrite Hown.
  rewrite !bool_decide_false by done. simpl.
  by apply get_from_reexported_first_defined.
Qed.

Lemma view_get_first_defined_witness :
  Reflect_get 2 view_state_2 (VObj 8) (KStr "y") = Some (Normal (VNum 21)).
Proof.
  apply (view_get_first_defined 1 view_state_2 8 5 false 0 [VObj 6; VObj 7]
           (KStr "y") [VUndefined; VNum 21]);
    [vm_compute; reflexivity|vm_compute; reflexivity|vm_compute; reflexivity
    |discriminate|discriminate|].
  repeat constructor; vm_compute; reflexivity.
Defined.

Lemma push_key_cases keys k :
  (push_key keys k = keys ∧ (k = KStr "default" ∨ k ∈ keys)) ∨
  (push_key keys k = keys ++ [k] ∧ k ≠ KStr "default" ∧ k ∉ keys).
Proof.
  unfold push_key. repeat case_bool_decide; simpl.
  - left. split; [done|by right].
  - right. done.
  - left. split; [done|by right].
  - left. split; [done|]. left. by destruct (decide (k = KStr "default")).
Qed.

Lemma foldl_push_key_merged ks : ∀ keys,
  keys `prefix_of` foldl push_key keys ks ∧
  (∀ k, k ∈ foldl push_key keys ks ↔ k ∈ keys ∨ (k ≠ KStr "default" ∧ k ∈ ks)) ∧
  (NoDup keys → NoDup (foldl push_key keys ks)).
Proof.
  induction ks as [|k0 ks IH]; intros keys; simpl.
  - split; [done|]. split; [|done]. intros k. split; [by left|].
    intros [?|[_ Hk]]; [done|]. by apply elem_of_nil in Hk.
  - destruct (IH (push_key keys k0)) as (Hpre & Hin & Hnd).
    destruct (push_key_cases keys k0) as [[Heq Hold]|(Heq & Hnd0 & Hnew)];
      rewrite Heq in *.
    + split; [done|]. split; [|done]. intros k. rewrite Hin, elem_of_cons.
      split; [intros [?|[? ?]]; [by left|by right; split; [|right]]|].
      intros [?|[Hk [->|?]]]; [by left| |by right].
      destruct Hold; [done|by left].
    + split; [by etrans; [apply prefix_app_r|exact Hpre]|]. split.
      * intros k. rewrite Hin, elem_of_app, list_elem_of_singleton, elem_of_cons.
        split.
        -- intros [[?| ->]|[? ?]]; [by left|right; split; [done|by left]|].
           right. split; [done|by right].
        -- intros [?|[? [->|?]]]; [by left; left|by left; right|by right].
      * intros Hkeys. apply Hnd. apply NoDup_app. split; [done|].
        split; [|apply NoDup_singleton].
        intros x Hx Hx'. apply list_elem_of_singleton in Hx' as ->. done.
Qed.

Lemma ownKeys_from_reexported_merged ownKeys reexported kss : ∀ keys,
  Forall2 (λ obj ks, ownKeys obj = Some (Normal ks)) reexported kss →
  ∃ result,
    ownKeys_from_reexported ownKeys reexported keys = Some (Normal result) ∧
    keys `prefix_of` result ∧
    (∀ k, k ∈ result ↔ k ∈ keys ∨ (k ≠ KStr "default" ∧ ∃ ks, ks ∈ kss ∧ k ∈ ks)) ∧
    (NoDup keys → NoDup result).
Proof.
  intros keys Hall. revert keys.
  induction Hall as [|obj ks objs kss Hobj _ IH]; intros keys; simpl.
  - exists keys. split; [done|]. split; [done|]. split; [|done].
    intros k. split; [by left|]. intros [?|(_ & ks & Hks & _)]; [done|].
    by apply elem_of_nil in Hks.
  - rewrite Hobj.
    destruct (foldl_push_key_merged ks keys) as (Hpre1 & Hin1 & Hnd1).
    destruct (IH (foldl push_key keys ks)) as (result & Hrun & Hpre & Hin & Hnd).
    exists result. split; [done|]. split; [by etrans|]. split; [|by auto].
    intros k. rewrite Hin, Hin1. split.
    + intros [[?|[? ?]]|(? & ks' & ? & ?)].
      * by left.
      * right. split; [done|]. exists ks. split; [by left|done].
      * right. split; [done|]. exists ks'. split; [by right|done].
    + intros [?|(? & ks' & Hks' & ?)]; [by left; left|].
      apply elem_of_cons in Hks' as [->|?].
      * left. by right.
      * right. split; [done|]. by exists ks'.
Qed.

(** X9.  Enumerating the view with any number of registered sources: the
    target's own keys come first and unchanged; a further key is listed
    exactly when some source has it and it is not [default]; and no key
    is listed twice when the target's keys are distinct. *)
Theorem view_ownKeys_merged n st p target b a reexported keys kss :
  heap st !! p = Some (CProxy target b a) →
  arrays st !! a = Some reexported →
  Reflect_ownKeys n st (VObj target) = Some (Normal keys) →
  Forall2 (λ obj ks, Reflect_ownKeys n st obj = Some (Normal ks)) reexported kss →
  ∃ result,
    Reflect_ownKeys (S n) st (VObj p) = Some (Normal result) ∧
    keys `prefix_of` result ∧
    (∀ k, k ∈ result ↔ k ∈ keys ∨ (k ≠ KStr "default" ∧ ∃ ks, ks ∈ kss ∧ k ∈ ks)) ∧
    (NoDup keys → NoDup result).
Proof.
  intros Hp Ha Hkeys Hall.
  rewrite (Reflect_ownKeys_proxy n st p target b a reexported Hp Ha).
  unfold handler_ownKeys. rewrite Hkeys.
  by apply ownKeys_from_reexported_merged.
Qed.

Lemma view_ownKeys_merged_witness :
  ∃ result, Reflect_ownKeys 1 view_state_2 (VObj 8) = Some (Normal result) ∧
            NoDup result ∧ KStr "default" ∉ result.
Proof.
  destruct (view_ownKeys_merged 0 view_state_2 8 5 false 0 [VObj 6; VObj 7]
              [KStr "own"]
              [[KStr "x"; KStr "default"]; [KStr "x"; KStr "y"]])
    as (result & Hrun & _ & Hin & Hnd).
  - vm_compute; reflexivity.
  - vm_compute; reflexivity.
  - vm_compute; reflexivity.
  - repeat constructor; vm_compute; reflexivity.
  - exists result. split; [exact Hrun|]. split.
    + apply Hnd. apply NoDup_singleton.
    + intros Hd. apply Hin in Hd as [Hd|[Hd _]]; [|done].
      apply list_elem_of_singleton in Hd. discriminate.
Defined.

(** ** Interop namespaces *)

(** X10.  The getters of an interop namespace are live: in any later
    state in which the namespace object is as [interopEsm] left it,
    reading a collected name other than [default] and [__esModule] off
    the namespace is reading that name off the raw exports at that
    moment. *)
Theorem interopEsm_getters_live (fuel : nat) st r ns o allow levels :
  heap st !! ns = Some (CObject o) →
  props o = [] →
  prototype_chain st (VObj r) levels →
  (length levels ≤ fuel)%nat →
  ∃ st',
    interopEsm fuel (VObj r) (VObj ns) allow st = Some (Normal (VObj ns), st') ∧
    ∀ s key n,
      heap s !! ns = heap st' !! ns →
      key ≠ "__esModule" → key ≠ "default" →
      (∃ c, c ∈ levels ∧ key ∈ own_names c) →
      Reflect_get (S n) s (VObj ns) (KStr key) = Reflect_get n s (VObj r) (KStr key).
Proof.
  intros Hns Hempty Hchain Hfuel.
  destruct (interopEsm_object fuel st (VObj r) ns o allow levels Hns Hempty Hchain Hfuel)
    as (collected & st' & o' & _ & [_ Hgetters] & Hkeys & Hrun & Hns' & Hprops).
  exists st'. split; [exact Hrun|].
  intros s key n Hsame Hes Hdef Hown.
  apply Hkeys in Hown.
  destruct (lookup_getter_Forall _ key collected Hown Hgetters) as (g & Hg & Hcreate).
  simpl in Hcreate. subst g.
  apply (Reflect_get_create_getter n s ns o' (KStr key) r (KStr key) true).
  - by rewrite Hsame.
  - rewrite (Hprops key Hes).
    destruct (negb (truthy allow && has_getter collected "default")).
    + rewrite lookup_set_getter_ne by done. by rewrite Hg.
    + by rewrite Hg.
Qed.

Lemma live_state_chain :
  prototype_chain live_state (VObj 5)
    [plainObject [(KStr "a", DataProp (VNum 1) true)]].
Proof.
  eapply chain_level; [by_compute|reflexivity|reflexivity|].
  apply chain_end. intros l _. by_compute.
Qed.

Lemma interopEsm_getters_live_witness :
  let st' := state_after (interopEsm 2 (VObj 5) (VObj 6) VUndefined live_state)
                         live_state in
  let s := store 5 (plainObject [(KStr "a", DataProp (VNum 2) true)]) st' in
  Reflect_get 1 s (VObj 6) (KStr "a") = Some (Normal (VNum 2)).
Proof.
  intros st' s.
  destruct (interopEsm_getters_live 2 live_state 5 6
              (emptyObject (VObj ObjectPrototype)) VUndefined _
              eq_refl eq_refl live_state_chain ltac:(simpl; lia))
    as (st'' & Hrun & Hlive).
  assert (st'' = st') as ->.
  { unfold st'. by rewrite Hrun. }
  etrans.
  - apply (Hlive s "a" 0); [vm_compute; reflexivity|discriminate|discriminate|].
    eexists. split; [by left|]. by_compute.
  - vm_compute; reflexivity.
Defined.

Lemma raw_esModule_primitive fuel v st :
  (∀ l, v ≠ VObj l) → ∃ a, raw_esModule fuel v st = Some (Normal a, st).
Proof.
  intros Hv. unfold raw_esModule.
  destruct (truthy v); [|by eexists].
  destruct v; try (by eexists). by destruct (Hv l).
Qed.

Lemma interopEsm_primitive fuel v allow ns st :
  (∀ l, v ≠ VObj l) →
  heap st !! ns = Some (CObject (emptyObject (VObj ObjectPrototype))) →
  ∃ st',
    interopEsm fuel v (VObj ns) allow st = Some (Normal (VObj ns), st') ∧
    modules st' = modules st ∧
    heap st' !! ns
    = Some (plainObject
              [(KStr "__esModule", DataProp (VBool true) false);
               (KStr "default", AccessorProp (RawGetter v) true);
               (KSym SymToStringTag, DataProp (VStr "Module") false)]).
Proof.
  intros Hv Hns. unfold interopEsm, bind, query.
  rewrite interopEsm_loop_stops by (intros l ->; by destruct (Hv l)).
  cbn [has_getter fmap list_fmap]. rewrite andb_false_r. cbn [negb set_getter].
  destruct (esm_object fuel st ns _ [("default", RawGetter v)] Hns)
    as (st' & Hrun & Hheap).
  rewrite Hrun. exists st'. split; [done|]. split.
  - by destruct (esm_frame _ _ _ _ _ _ Hrun) as (? & _).
  - rewrite Hheap. rewrite list_lookup_insert_eq by (by eapply lookup_lt_Some).
    reflexivity.
Qed.

(** X11.  Importing as a namespace a module whose exports are not an
    object (a number, a string, [null], ...) and that has no namespace
    yet: the module gets a fresh namespace object whose keys are
    [__esModule], [default] and the string tag, whose [default] is the
    exports value itself and whose [__esModule] is [true]. *)
Theorem esmImport_primitive_exports fuel n sourceModule id st m :
  modules st !! id = Some m →
  truthy (error m) = false →
  truthy (namespaceObject m) = false →
  (∀ l, exports m ≠ VObj l) →
  let ns := length (heap st) in
  ∃ st',
    esmImport fuel sourceModule id st = Some (Normal (VObj ns), st') ∧
    (namespaceObject <$> modules st' !! id) = Some (VObj ns) ∧
    Reflect_get n st' (VObj ns) (KStr "default") = Some (Normal (exports m)) ∧
    Reflect_get n st' (VObj ns) (KStr "__esModule") = Some (Normal (VBool true)) ∧
    Reflect_ownKeys n st' (VObj ns)
    = Some (Normal [KStr "__esModule"; KStr "default"; KSym SymToStringTag]).
Proof.
  intros Hm Herr Hnone Hv ns.
  destruct (raw_esModule_primitive fuel (exports m) st Hv) as [allow Hallow].
  set (st1 := (alloc (CObject (emptyObject (VObj ObjectPrototype))) st).2).
  assert (heap st1 !! ns = Some (CObject (emptyObject (VObj ObjectPrototype)))) as Hns.
  { unfold st1, ns. simpl. apply lookup_snoc. }
  destruct (interopEsm_primitive fuel (exports m) allow ns st1 Hv Hns)
    as (st2 & Hrun & Hmods & Hcell).
  exists (with_modules (<[id := set_namespaceObject (VObj ns) m]> (modules st2)) st2).
  split; [|split; [|split; [|split]]].
  - unfold esmImport, bind, getOrInstantiateModuleFromParent, getModule.
    rewrite Hm. cbn beta iota. rewrite Hm. cbn beta iota. rewrite Herr, Hnone.
    unfold exports_of. rewrite Hallow. unfold allocCell, alloc. cbn beta iota.
    fold ns. change (with_heap _ st) with st1. rewrite Hrun.
    assert (modules st2 !! id = Some m) as -> by (by rewrite Hmods).
    done.
  - simpl. by rewrite lookup_insert_eq.
  - eapply Reflect_get_raw_getter; [exact Hcell|reflexivity].
  - destruct n; cbn [Reflect_get]; simpl; rewrite Hcell; reflexivity.
  - destruct n; cbn [Reflect_ownKeys]; simpl; rewrite Hcell; reflexivity.
Qed.

Lemma esmImport_primitive_exports_witness :
  ∃ st', esmImport 0 "importer" "dep" primitive_state = Some (Normal (VObj 5), st') ∧
         Reflect_get 0 st' (VObj 5) (KStr "default") = Some (Normal (VNum 42)).
Proof.
  destruct (esmImport_primitive_exports 0 0 "importer" "dep" primitive_state
              (mkModule "dep" (VNum 42)) ltac:(vm_compute; reflexivity)
              eq_refl eq_refl ltac:(discriminate))
    as (st' & Hrun & _ & Hdefault & _).
  exists st'. split; [exact Hrun|exact Hdefault].
Defined.

(** ** Resolver: repeated notifications *)

Lemma queues_resolveQueue q aq st :
  queues st !! q = Some aq → resolved aq = false →
  queues (resolveQueue (Some q) st)
  = alter (λ aq, {| resolved := true; entries := entries aq |}) q (queues st).
Proof.
  intros Hq Hr. unfold resolveQueue. rewrite Hq, Hr. simpl.
  apply (foldl_preserves (λ s, queues s = alter _ q (queues st))).
  - intros s f Hs. by destruct (fire_fn_frame f s) as (-> & _).
  - apply (foldl_preserves (λ s, queues s = alter _ q (queues st))); [|done].
    intros s f Hs. by destruct (decrement_fn_frame f s) as (-> & _).
Qed.

Lemma resolveQueue_noop queue st :
  (∀ q aq, queue = Some q → queues st !! q = Some aq → resolved aq = true) →
  resolveQueue queue st = st.
Proof.
  intros H. destruct queue as [q|]; [|done]. unfold resolveQueue.
  destruct (queues st !! q) as [aq|] eqn:Hq; [|done].
  by rewrite (H q aq eq_refl Hq).
Qed.

Lemma resolveQueue_resolved q st aq :
  queues (resolveQueue (Some q) st) !! q = Some aq → resolved aq = true.
Proof.
  destruct (queues st !! q) as [aq0|] eqn:Hq.
  - destruct (resolved aq0) eqn:Hr.
    + rewrite resolveQueue_noop; [congruence|]. intros ? ? [= <-] ?. congruence.
    + rewrite (queues_resolveQueue q aq0 st Hq Hr).
      rewrite list_lookup_alter_eq, Hq. simpl. by intros [= <-].
  - rewrite resolveQueue_noop; [congruence|]. intros ? ? [= <-] ?. congruence.
Qed.

(** X12.  Resolving a queue a second time does nothing: the queue is
    marked resolved by the first call and stays so while its
    continuations run, so none of them is notified again. *)
Theorem resolveQueue_idempotent queue st :
  resolveQueue queue (resolveQueue queue st) = resolveQueue queue st.
Proof.
  apply resolveQueue_noop. intros q aq -> Hq. by eapply resolveQueue_resolved.
Qed.

Lemma not_pending_heap st st' p :
  heap st' = heap st → not_pending st p → not_pending st' p.
Proof. unfold not_pending. by intros ->. Qed.

Lemma settlePromise_not_pending p o st :
  o ≠ Pending → not_pending (settlePromise p o st) p.
Proof.
  intros Ho rs ext. unfold settlePromise.
  destruct (heap st !! p) as [[| |[] rs0 ext0| | |]|] eqn:Hp;
    try (rewrite Hp; congruence).
  simpl. rewrite list_lookup_insert_eq by (by eapply lookup_lt_Some). congruence.
Qed.

Lemma settlePromise_keeps_not_pending p p' o st :
  not_pending st p → not_pending (settlePromise p' o st) p.
Proof.
  intros Hnp rs ext. unfold settlePromise.
  destruct (heap st !! p') as [[| |[] rs0 ext0| | |]|] eqn:Hp'; try apply Hnp.
  simpl. destruct (decide (p' = p)) as [->|Hne].
  - by destruct (Hnp rs0 ext0).
  - rewrite list_lookup_insert_ne by done. apply Hnp.
Qed.

Lemma set_ext_not_pending d g st p :
  not_pending st p → not_pending (set_ext d g st) p.
Proof.
  intros Hnp rs ext. unfold set_ext.
  destruct (heap st !! d) as [[| |s rs0 [e|]| e | |]|] eqn:Hd; try apply Hnp.
  - simpl. destruct (decide (d = p)) as [->|Hne].
    + rewrite list_lookup_insert_eq by (by eapply lookup_lt_Some).
      intros [= -> _ _]. by destruct (Hnp rs0 (Some e)).
    + rewrite list_lookup_insert_ne by done. apply Hnp.
  - simpl. destruct (decide (d = p)) as [->|Hne].
    + rewrite list_lookup_insert_eq by (by eapply lookup_lt_Some). done.
    + rewrite list_lookup_insert_ne by done. apply Hnp.
Qed.

Lemma fire_fn_not_pending f st p : not_pending st p → not_pending (fire_fn f st) p.
Proof.
  intros Hnp. unfold fire_fn. destruct (fns st !! f) as [x|]; [|done].
  destruct (queueCount x =? 0)%Z; [|by apply (not_pending_heap st)].
  unfold call_fn. destruct (fns (decrement_fn f st) !! f) as [y|];
    [|by apply (not_pending_heap st)].
  apply settlePromise_keeps_not_pending. by apply (not_pending_heap st).
Qed.

Lemma resolveQueue_not_pending queue st p :
  not_pending st p → not_pending (resolveQueue queue st) p.
Proof.
  intros Hnp. destruct queue as [q|]; [|done]. unfold resolveQueue.
  destruct (queues st !! q) as [aq|]; [|done].
  destruct (negb (resolved aq)); [|done].
  apply (foldl_preserves (λ s, not_pending s p)).
  - intros s f. apply fire_fn_not_pending.
  - apply (foldl_preserves (λ s, not_pending s p)).
    + intros s f. by apply not_pending_heap.
    + by apply (not_pending_heap st).
Qed.

Lemma settlePromise_settled p o st : not_pending st p → settlePromise p o st = st.
Proof.
  intros Hnp. unfold settlePromise.
  destruct (heap st !! p) as [[| |[] rs ext| | |]|] eqn:Hp; try done.
  by destruct (Hnp rs ext).
Qed.

(** X13.  [asyncResult] called twice in a row: in the state its first
    call has left, with nothing run in between, a second call settles no
    promise, touches no queue and runs no continuation; its only effect
    is that a truthy [err] overwrites the error stored on the module's
    promise. *)
Theorem asyncResult_settles_once i inst err1 err2 st c st1 :
  instances st !! i = Some inst →
  asyncResult i err1 st = Some (c, st1) →
  asyncResult i err2 st1
  = Some (Normal tt,
          if truthy err2
          then set_ext (inst_promise inst) (set_turbopackError err2) st1
          else st1).
Proof.
  intros Hi Hrun. unfold asyncResult in Hrun. rewrite Hi in Hrun.
  injection Hrun as _ Hst1.
  assert (instances st1 = instances st) as Hinst.
  { rewrite <- Hst1. destruct (resolveQueue_frame (inst_queue inst)
      (if truthy err1
       then settlePromise (inst_promise inst) (Rejected err1)
              (set_ext (inst_promise inst) (set_turbopackError err1) st)
       else settlePromise (inst_promise inst) (Fulfilled (inst_exports inst)) st))
      as (-> & _).
    destruct (truthy err1).
    - destruct (settlePromise_resolver (inst_promise inst) (Rejected err1)
                  (set_ext (inst_promise inst) (set_turbopackError err1) st))
        as (_ & _ & -> & _).
      by destruct (set_ext_resolver (inst_promise inst) (set_turbopackError err1) st)
        as (_ & _ & -> & _).
    - by destruct (settlePromise_resolver (inst_promise inst)
                     (Fulfilled (inst_exports inst)) st) as (_ & _ & -> & _). }
  assert (not_pending st1 (inst_promise inst)) as Hnp.
  { rewrite <- Hst1. apply resolveQueue_not_pending.
    destruct (truthy err1); by apply settlePromise_not_pending. }
  assert (∀ q aq, inst_queue inst = Some q → queues st1 !! q = Some aq →
                  resolved aq = true) as Hres.
  { intros q aq Hq. rewrite <- Hst1, Hq. apply resolveQueue_resolved. }
  unfold asyncResult. rewrite Hinst, Hi. f_equal. f_equal.
  destruct (truthy err2).
  - rewrite settlePromise_settled by (by apply set_ext_not_pending).
    apply resolveQueue_noop. intros q aq Hq Haq.
    destruct (set_ext_resolver (inst_promise inst) (set_turbopackError err2) st1)
      as (Hqs & _).
    rewrite Hqs in Haq. exact (Hres q aq Hq Haq).
  - rewrite settlePromise_settled by exact Hnp.
    apply resolveQueue_noop. exact Hres.
Qed.

Lemma asyncResult_settles_once_witness :
  let st1 := state_after (asyncResult 0 VUndefined async_waiting) async_waiting in
  asyncResult 0 (VStr "late") st1
  = Some (Normal tt, set_ext 9 (set_turbopackError (VStr "late")) st1).
Proof.
  intros st1.
  pose proof (asyncResult_settles_once 0
                {| inst_queue := Some 0; inst_depQueues := 0; inst_promise := 9;
                   inst_exports := VObj 8; inst_running := false |}
                VUndefined (VStr "late") async_waiting (Normal tt) st1
                ltac:(vm_compute; reflexivity) ltac:(vm_compute; reflexivity)) as H.
  etrans; [exact H|]. vm_compute; reflexivity.
Defined.

(** ** Resolver: dependencies that are plain values *)

Lemma wrapDep_plain v st :
  (∀ l, v ≠ VObj l) → wrapDep v st = alloc (plain_wrapper v) st.
Proof.
  intros Hv. unfold wrapDep, plain_wrapper. destruct v; try done. by destruct (Hv l).
Qed.

Lemma wrapDeps_plain vs : ∀ st,
  Forall (λ v, ∀ l, v ≠ VObj l) vs →
  wrapDeps vs st
  = (seq (length (heap st)) (length vs),
     with_heap (heap st ++ (plain_wrapper <$> vs)) st).
Proof.
  induction vs as [|v vs IH]; intros st Hvs.
  - simpl. destruct st. unfold with_heap. simpl. by rewrite app_nil_r.
  - apply Forall_cons in Hvs as [Hv Hvs]. cbn [wrapDeps].
    rewrite (wrapDep_plain v st Hv). unfold alloc.
    rewrite (IH _ Hvs). simpl. rewrite length_app. simpl.
    rewrite Nat.add_1_r, <- app_assoc. done.
Qed.

Lemma ext_of_plain st h vs rest d :
  heap st = h ++ (plain_wrapper <$> vs) ++ rest →
  d ∈ seq (length h) (length vs) →
  ∃ e, ext_of st d = Some e ∧ turbopackQueues e = QueuesNone.
Proof.
  intros Hh Hd. apply elem_of_seq in Hd as [Hge Hlt].
  destruct (lookup_lt_is_Some_2 vs (d - length h)) as [v Hv]; [lia|].
  exists {| turbopackQueues := QueuesNone; turbopackExports := v;
            turbopackError := VUndefined |}.
  split; [|done]. unfold ext_of. rewrite Hh.
  rewrite lookup_app_r by lia. rewrite lookup_app_l by (rewrite length_fmap; lia).
  rewrite list_lookup_fmap, Hv. done.
Qed.

Lemma register_deps_plain queue depQueues fn ds st :
  (∀ d, d ∈ ds → ∃ e, ext_of st d = Some e ∧ turbopackQueues e = QueuesNone) →
  register_deps queue depQueues fn ds st = st.
Proof.
  unfold register_deps. induction ds as [|d ds IH]; intros H; simpl; [done|].
  destruct (H d) as (e & -> & ->); [by left|]. simpl.
  apply IH. intros d' Hd'. apply H. by right.
Qed.

Lemma getResult_map_plain st vs : ∀ h rest,
  heap st = h ++ (plain_wrapper <$> vs) ++ rest →
  getResult_map st (seq (length h) (length vs)) = Some (Normal vs).
Proof.
  induction vs as [|v vs IH]; intros h rest Hh; simpl; [done|].
  assert (ext_of st (length h)
          = Some {| turbopackQueues := QueuesNone; turbopackExports := v;
                    turbopackError := VUndefined |}) as ->.
  { unfold ext_of. rewrite Hh. simpl. by rewrite list_lookup_middle. }
  simpl. replace (S (length h)) with (length (h ++ [plain_wrapper v]))
    by (rewrite length_app; simpl; lia).
  rewrite (IH (h ++ [plain_wrapper v]) rest); [done|].
  rewrite Hh. simpl. by rewrite <- app_assoc.
Qed.

(** X14.  Dependencies that are not objects come back as they are:
    [handleAsyncDependencies] returns at once an array holding exactly
    the listed values, in order (the empty array for no dependency), and
    registers with no queue, runs no continuation and schedules no
    microtask. *)
Theorem handleAsyncDependencies_plain_values i inst vs st :
  instances st !! i = Some inst →
  Forall (λ v, ∀ l, v ≠ VObj l) vs →
  ∃ a st',
    handleAsyncDependencies i vs st = Some (Normal (VObj a), st') ∧
    heap st' !! a = Some (CArray vs) ∧
    queues st' = queues st ∧ sets st' = sets st ∧
    called st' = called st ∧ jobs st' = jobs st.
Proof.
  intros Hi Hvs. unfold handleAsyncDependencies. rewrite Hi.
  unfold handleAsyncDependencies_setup. rewrite (wrapDeps_plain vs st Hvs).
  unfold alloc. cbn -[register_deps seq].
  match goal with
  | |- context [register_deps _ _ _ _ ?s] => set (s4 := s)
  end.
  assert (heap s4 = heap st ++ (plain_wrapper <$> vs)
                    ++ [CGetResult (seq (length (heap st)) (length vs));
                        CPromise Pending [] None]) as Hheap.
  { unfold s4. simpl. by rewrite <- !app_assoc. }
  rewrite register_deps_plain by (intros d; by apply (ext_of_plain s4 _ vs _ d Hheap)).
  assert (fn_count s4 (length (fns st)) = 0%Z) as ->.
  { unfold fn_count, s4. simpl. by rewrite lookup_snoc. }
  simpl. unfold getResult, bind, query, allocCell, alloc, ret.
  rewrite (getResult_map_plain s4 vs _ _ Hheap).
  eexists _, _. split; [done|]. split; [|done].
  simpl. apply lookup_snoc.
Qed.

Lemma handleAsyncDependencies_plain_values_witness :
  ∃ a st',
    handleAsyncDependencies 1 [VNum 3; VStr "x"; VNull] async_started
    = Some (Normal (VObj a), st') ∧
    heap st' !! a = Some (CArray [VNum 3; VStr "x"; VNull]).
Proof.
  destruct (handleAsyncDependencies_plain_values 1
              {| inst_queue := Some 1; inst_depQueues := 1; inst_promise := 11;
                 inst_exports := VObj 10; inst_running := true |}
              [VNum 3; VStr "x"; VNull] async_started
              ltac:(vm_compute; reflexivity)
              ltac:(repeat constructor; discriminate))
    as (a & st' & Hrun & Harray & _).
  exists a, st'. split; [exact Hrun|exact Harray].
Defined.

(** ** Resolver: what the result function yields *)

(** X15.  [getResult] reads the handles in the order of the dependency
    list: it raises the stored error of the first handle whose error is
    truthy and allocates nothing; with no truthy error it returns a
    fresh array of all the handles' exports.  An error that is stored
    but falsy is not raised. *)
Theorem getResult_first_error st ds exts :
  Forall2 (λ d e, ext_of st d = Some e) ds exts →
  getResult ds st
  = match list_find (λ e, truthy (turbopackError e) = true) exts with
    | Some (_, e) => Some (Throw (Thrown (turbopackError e)), st)
    | None =>
        Some (Normal (VObj (length (heap st))),
              with_heap (heap st ++ [CArray (turbopackExports <$> exts)]) st)
    end.
Proof.
  intros Hexts. unfold getResult, bind, query, allocCell, alloc, ret.
  rewrite (getResult_map_spec st ds exts Hexts). unfold getResult_of.
  by destruct (list_find _ exts) as [[k e]|].
Qed.

Lemma getResult_first_error_witness :
  fst <$> getResult [9; 13; 14] async_settled = Some (Throw (Thrown (VStr "boom"))).
Proof.
  rewrite (getResult_first_error async_settled [9; 13; 14]
             [ {| turbopackQueues := QueuesModule (Some 0) 0; turbopackExports := VObj 8;
                  turbopackError := VUndefined |};
               {| turbopackQueues := QueuesPrivate 2; turbopackExports := VObj 12;
                  turbopackError := VStr "boom" |};
               {| turbopackQueues := QueuesNone; turbopackExports := VNum 3;
                  turbopackError := VUndefined |} ]).
  - reflexivity.
  - repeat constructor; vm_compute; reflexivity.
Defined.

(** X16.  When the promise wrapped as handle [D] fulfils with [res]
    and no handle of the set carries a truthy error, the callback of
    [wrapDeps] stores [res] as the exports of [D], leaves the other
    handles alone and rejects nothing, and the result function then
    yields [res] at the places of [D] and the siblings' exports
    elsewhere. *)
Theorem wrapped_promise_fulfilled
    (st : State) (ds : list loc) (D : loc) (queue : qid) (e : AsyncModuleExt)
    (res : value) :
  heap st !! D = Some (CWrapper e) →
  (∀ d, d ∈ ds → ∃ x, ext_of st d = Some x ∧ truthy (turbopackError x) = false) →
  let st' := run_reaction (ReactWrapDep D queue) (Fulfilled res) st in
  ext_of st' D = Some (set_turbopackExports res e) ∧
  (∀ d, d ≠ D → ext_of st' d = ext_of st d) ∧
  no_new_rejection st st' ∧
  getResult_map st' ds
  = Some (Normal ((λ d, if decide (d = D) then res else handle_exports st d) <$> ds)).
Proof.
  intros HD Hds st'. subst st'. cbn [run_reaction].
  set (st1 := set_ext D (set_turbopackExports res) st).
  assert (ext_of (resolveQueue (Some queue) st1) D = Some (set_turbopackExports res e))
    as Hstored.
  { rewrite ext_of_resolveQueue. by apply ext_of_set_ext_wrapper. }
  assert (∀ d, d ≠ D → ext_of (resolveQueue (Some queue) st1) d = ext_of st d)
    as Hothers.
  { intros d Hne. rewrite ext_of_resolveQueue. by apply ext_of_set_ext_ne. }
  split; [exact Hstored|]. split; [exact Hothers|]. split.
  - eapply no_new_rejection_trans; [apply no_new_rejection_set_ext|].
    apply no_new_rejection_resolveQueue.
  - rewrite getResult_map_exports.
    + f_equal. f_equal. apply list_fmap_ext. intros k d Hd.
      unfold handle_exports. destruct (decide (d = D)) as [->|Hne].
      * by rewrite Hstored.
      * by rewrite Hothers.
    + intros d Hd. destruct (decide (d = D)) as [->|Hne].
      * eexists. split; [exact Hstored|]. simpl.
        destruct (Hds D Hd) as (x & Hx & Hfalse).
        unfold ext_of in Hx. rewrite HD in Hx. by simplify_eq.
      * rewrite Hothers by done. by apply Hds.
Qed.

Lemma wrapped_promise_fulfilled_witness :
  let st := run_calls [CallAsyncResult 0 VUndefined;
                       CallSettle 7 (Fulfilled (VNum 5))] async_waiting in
  let st' := run_reaction (ReactWrapDep 13 2) (Fulfilled (VNum 5)) st in
  getResult_map st' [9; 13; 14] = Some (Normal [VObj 8; VNum 5; VNum 3]).
Proof.
  intros st st'.
  destruct (wrapped_promise_fulfilled st [9; 13; 14] 13 2
              {| turbopackQueues := QueuesPrivate 2; turbopackExports := VObj 12;
                 turbopackError := VUndefined |} (VNum 5))
    as (_ & _ & _ & Hresult).
  - vm_compute; reflexivity.
  - intros d Hd.
    apply elem_of_cons in Hd as [->|Hd]; [eexists; split; vm_compute; reflexivity|].
    apply elem_of_cons in Hd as [->|Hd]; [eexists; split; vm_compute; reflexivity|].
    apply list_elem_of_singleton in Hd as ->. eexists; split; vm_compute; reflexivity.
  - etrans; [exact Hresult|]. vm_compute; reflexivity.
Defined.

(** X17.  A wrapped promise that rejects with a falsy reason
    ([undefined], [null], [0], the empty string, [false]) is not
    reported as a failure: the reason is stored on the handle, yet the
    result function returns normally, with the exports every handle had
    before, the initial exports object of the rejected one included. *)
Theorem falsy_rejection_is_not_raised
    (st : State) (ds : list loc) (D : loc) (queue : qid) (e : AsyncModuleExt)
    (err : value) :
  heap st !! D = Some (CWrapper e) →
  truthy err = false →
  (∀ d, d ∈ ds → ∃ x, ext_of st d = Some x ∧ truthy (turbopackError x) = false) →
  let st' := run_reaction (ReactWrapDep D queue) (Rejected err) st in
  ext_of st' D = Some (set_turbopackError err e) ∧
  getResult_map st' ds = Some (Normal (handle_exports st <$> ds)).
Proof.
  intros HD Herr Hds st'. subst st'. cbn [run_reaction].
  set (st1 := set_ext D (set_turbopackError err) st).
  assert (ext_of (resolveQueue (Some queue) st1) D = Some (set_turbopackError err e))
    as Hstored.
  { rewrite ext_of_resolveQueue. by apply ext_of_set_ext_wrapper. }
  assert (∀ d, d ≠ D → ext_of (resolveQueue (Some queue) st1) d = ext_of st d)
    as Hothers.
  { intros d Hne. rewrite ext_of_resolveQueue. by apply ext_of_set_ext_ne. }
  split; [exact Hstored|].
  rewrite getResult_map_exports.
  - f_equal. f_equal. apply list_fmap_ext. intros k d Hd.
    unfold handle_exports. destruct (decide (d = D)) as [->|Hne].
    + rewrite Hstored. unfold ext_of. by rewrite HD.
    + by rewrite Hothers.
  - intros d Hd. destruct (decide (d = D)) as [->|Hne].
    + eexists. split; [exact Hstored|]. done.
    + rewrite Hothers by done. by apply Hds.
Qed.

Lemma falsy_rejection_is_not_raised_witness :
  let st := run_calls [CallAsyncResult 0 VUndefined;
                       CallSettle 7 (Rejected VUndefined)] async_waiting in
  let st' := run_reaction (ReactWrapDep 13 2) (Rejected VUndefined) st in
  getResult_map st' [9; 13; 14] = Some (Normal [VObj 8; VObj 12; VNum 3]).
Proof.
  intros st st'.
  destruct (falsy_rejection_is_not_raised st [9; 13; 14] 13 2
              {| turbopackQueues := QueuesPrivate 2; turbopackExports := VObj 12;
                 turbopackError := VUndefined |} VUndefined)
    as (_ & Hresult).
  - vm_compute; reflexivity.
  - reflexivity.
  - intros d Hd.
    apply elem_of_cons in Hd as [->|Hd]; [eexists; split; vm_compute; reflexivity|].
    apply elem_of_cons in Hd as [->|Hd]; [eexists; split; vm_compute; reflexivity|].
    apply list_elem_of_singleton in Hd as ->. eexists; split; vm_compute; reflexivity.
  - etrans; [exact Hresult|]. vm_compute; reflexivity.
Defined.

(** ** Resolver: an activation that completes while its body runs *)




Lemma typeof_handle st d e : ext_of st d = Some e → typeof st (VObj d) = "object".
Proof.
  unfold ext_of. simpl. destruct (heap st !! d) as [[| |s rs [x|]| x | |]|]; done.
Qed.




(** ** Resolver: entering an async module *)

(** X19.  When [asyncModule] reaches the call of the body of a module
    that has no dynamic view yet, the module's exports and namespace
    object are a new pending promise, which is what both import paths
    answer with from then on; the promise carries as its exports the
    new dynamic view of the exports object the module had; and with
    [hasAwait] the module's own queue exists, empty and counted as
    resolved. *)
Theorem asyncModule_begin_publishes fuel sourceModule module (hasAwait : bool) st m target ct :
  modules st !! module = Some m →
  REEXPORTED_OBJECTS m = None →
  exports m = VObj target →
  heap st !! target = Some ct →
  truthy (error m) = false →
  let proxy := length (heap st) in
  let p := S (length (heap st)) in
  let queue := if hasAwait then Some (length (queues st)) else None in
  ∃ st',
    asyncModule_begin module hasAwait st = Some (Normal (length (instances st)), st') ∧
    heap st' !! proxy = Some (CProxy target (cell_callable ct) (length (arrays st))) ∧
    heap st' !! p
    = Some (CPromise Pending []
              (Some {| turbopackQueues := QueuesModule queue (length (sets st));
                       turbopackExports := VObj proxy;
                       turbopackError := VUndefined |})) ∧
    instances st' !! length (instances st)
    = Some {| inst_queue := queue; inst_depQueues := length (sets st);
              inst_promise := p; inst_exports := VObj proxy; inst_running := true |} ∧
    (hasAwait = true →
     queues st' !! length (queues st) = Some {| resolved := true; entries := [] |}) ∧
    esmImport fuel sourceModule module st' = Some (Normal (VObj p), st') ∧
    commonJsRequire sourceModule module st' = Some (Normal (VObj p), st').
Proof.
  intros Hm Hre Hex Hct Herr proxy p queue.
  assert (bool_decide (typeof st (VObj target) = "function") = cell_callable ct) as Hty.
  { simpl. rewrite Hct. by destruct (cell_callable ct). }
  assert (length (heap st ++ [CProxy target (cell_callable ct) (length (arrays st))])
          = S (length (heap st))) as Hlen by (rewrite length_app; simpl; lia).
  unfold asyncModule_begin, ensureDynamicExports, newProxy, allocQueue, allocSet,
    allocInstance.
  destruct hasAwait; unfold_M; simpl; rewrite Hm; simpl; rewrite Hm; simpl;
    rewrite Hre; simpl; unfold exports_of; rewrite Hex; simpl;
    repeat (rewrite lookup_insert_eq; simpl); rewrite Hct;
    (assert (bool_decide ((if cell_callable ct then "function" else "object")
                          = "function") = cell_callable ct) as ->
       by (by destruct (cell_callable ct)));
    rewrite Hlen.
  all: eexists; split; [reflexivity|]; simpl; unfold proxy, p, queue.
  all: split; [rewrite lookup_app_l by (rewrite length_app; simpl; lia);
               apply lookup_snoc|].
  all: split; [rewrite <- Hlen; apply lookup_snoc|].
  all: split; [apply lookup_snoc|].
  all: split; [intros ?; try done; apply lookup_snoc|].
  all: match goal with
       | |- context [<[?k := ?m']> _] =>
           split;
           [apply (esmImport_hit _ _ k _ m');
              [simpl; apply lookup_insert_eq|done|done]
           |apply (commonJsRequire_ok _ k _ m');
              [simpl; apply lookup_insert_eq|done]]
       end.
Qed.

Lemma asyncModule_begin_publishes_witness :
  ∃ st',
    asyncModule_begin "dep" true cjs_state = Some (Normal 0, st') ∧
    esmImport 0 "importer" "dep" st' = Some (Normal (VObj 8), st') ∧
    commonJsRequire "importer" "dep" st' = Some (Normal (VObj 8), st').
Proof.
  destruct (asyncModule_begin_publishes 0 "importer" "dep" true cjs_state
              (mkModule "dep" (VObj 5)) 5
              (plainObject [(KStr "a", DataProp (VNum 1) true)])
              ltac:(vm_compute; reflexivity) eq_refl eq_refl eq_refl eq_refl)
    as (st' & Hrun & _ & _ & _ & _ & Himport & Hrequire).
  exists st'. split; [exact Hrun|]. split; [exact Himport|exact Hrequire].
Defined.

(** ** Resolver: waiting for a promise *)

Lemma lookup_app_add {A} (l1 l2 : list A) (k : nat) :
  (l1 ++ l2) !! (length l1 + k) = l2 !! k.
Proof. rewrite lookup_app_r by lia. f_equal. lia. Qed.

Lemma State_ext (a b : State) :
  heap a = heap b → arrays a = arrays b → modules a = modules b →
  queues a = queues b → fns a = fns b → sets a = sets b →
  instances a = instances b → jobs a = jobs b → called a = called b →
  a = b.
Proof. destruct a, b. simpl. by intros -> -> -> -> -> -> -> -> ->. Qed.

Lemma heap_set_ext_ne d g st p : d ≠ p → heap (set_ext d g st) !! p = heap st !! p.
Proof.
  intros Hne. unfold set_ext.
  destruct (heap st !! d) as [[| |s rs [e|]| e | |]|]; try done;
    simpl; by rewrite list_lookup_insert_ne.
Qed.

Lemma heap_settlePromise_other p o st d c :
  heap st !! d = Some c →
  (∀ rs ext, c ≠ CPromise Pending rs ext) →
  heap (settlePromise p o st) !! d = Some c.
Proof.
  intros Hd Hc. unfold settlePromise.
  destruct (heap st !! p) as [[| |[] rs ext| | |]|] eqn:Hp; try done.
  simpl. destruct (decide (p = d)) as [->|Hne].
  - rewrite Hd in Hp. injection Hp as ->. by destruct (Hc rs ext).
  - by rewrite list_lookup_insert_ne.
Qed.

Lemma heap_resolveQueue_other queue st d c :
  heap st !! d = Some c →
  (∀ rs ext, c ≠ CPromise Pending rs ext) →
  heap (resolveQueue queue st) !! d = Some c.
Proof.
  intros Hd Hc. destruct queue as [q|]; [|done]. unfold resolveQueue.
  destruct (queues st !! q) as [aq|]; [|done].
  destruct (negb (resolved aq)); [|done].
  apply (foldl_preserves (λ s, heap s !! d = Some c)).
  - intros s f Hs. unfold fire_fn. destruct (fns s !! f) as [x|]; [|done].
    destruct (queueCount x =? 0)%Z; [|done].
    unfold call_fn. destruct (fns (decrement_fn f s) !! f) as [y|]; [|done].
    by apply heap_settlePromise_other.
  - by apply (foldl_preserves (λ s, heap s !! d = Some c)).
Qed.

(** The last unresolved queue of a continuation resolves: the
    continuation runs and fulfils its promise with the result function. *)
Lemma resolveQueue_fires_single st q fn p g rs ext :
  queues st !! q = Some {| resolved := false; entries := [fn] |} →
  fns st !! fn = Some {| queueCount := 1; fn_promise := p; fn_getResult := g |} →
  heap st !! p = Some (CPromise Pending rs ext) →
  heap (resolveQueue (Some q) st) !! p = Some (CPromise (Fulfilled (VObj g)) [] ext) ∧
  called (resolveQueue (Some q) st) = called st ++ [fn].
Proof.
  intros Hq Hfn Hp. unfold resolveQueue. rewrite Hq.
  cbn [resolved negb entries foldl].
  unfold fire_fn, decrement_fn, update_fn, update_queue.
  cbn [fns with_fns with_queues].
  rewrite list_lookup_alter_eq, Hfn. cbn [fmap option_fmap option_map set_queueCount
                                           queueCount fn_promise fn_getResult].
  change (1 - 1 =? 0)%Z with true. cbn iota.
  unfold call_fn. cbn [fns with_fns with_queues].
  rewrite !list_lookup_alter_eq, Hfn.
  cbn [fmap option_fmap option_map set_queueCount queueCount fn_promise fn_getResult].
  unfold settlePromise. cbn [heap with_called with_fns with_queues].
  rewrite Hp. cbn [heap with_jobs store with_heap called with_called with_fns
                   with_queues].
  split; [|done]. apply list_lookup_insert_eq. by eapply lookup_lt_Some.
Qed.

(** X20.  Waiting for a promise that is fulfilled already, from a state
    with no microtask pending: [handleAsyncDependencies] wraps the
    promise, registers the continuation with the wrapper's new queue
    and returns a pending promise; the one microtask it scheduled then
    stores the promise's value on the wrapper and resolves the queue,
    which fulfils the returned promise with the result function; and
    calling that function yields an array holding the value. *)
Theorem settled_promise_dependency
    st j instj l res rs setj :
  instances st !! j = Some instj →
  heap st !! l = Some (CPromise (Fulfilled res) rs None) →
  sets st !! inst_depQueues instj = Some setj →
  (∀ q, q ∈ setj → q < length (queues st)) →
  (∀ q, inst_queue instj = Some q → q < length (queues st)) →
  jobs st = [] →
  let n := length (heap st) in
  ∃ st1,
    handleAsyncDependencies j [VObj l] st = Some (Normal (VObj (n + 3)), st1) ∧
    heap st1 !! (n + 3) = Some (CPromise Pending [] None) ∧
    let st2 := run_job st1 in
    heap st2 !! (n + 3) = Some (CPromise (Fulfilled (VObj (n + 2))) [] None) ∧
    ∃ a st3,
      call_getResult (VObj (n + 2)) st2 = Some (Normal (VObj a), st3) ∧
      heap st3 !! a = Some (CArray [res]).
Proof.
  intros Hj Hl Hsetj Hbound Hown Hjobs n.
  set (qn := length (queues st)).
  set (fn := length (fns st)).
  assert (l < n) as Hlt by (by eapply lookup_lt_Some).
  unfold handleAsyncDependencies. rewrite Hj.
  unfold handleAsyncDependencies_setup. cbn [wrapDeps].
  assert (wrapDep (VObj l) st
          = (S n,
             with_jobs (jobs st ++ [(ReactWrapDep (S n) qn, Fulfilled res)])
               (with_heap
                  (heap st ++ [CObject (emptyObject (VObj ObjectPrototype));
                               CWrapper {| turbopackQueues := QueuesPrivate qn;
                                           turbopackExports := VObj n;
                                           turbopackError := VUndefined |}])
                  (with_queues (queues st ++ [{| resolved := false; entries := [] |}])
                     st)))) as ->.
  { unfold wrapDep, isAsyncModuleExt, isPromise, ext_of. simpl. rewrite Hl. simpl.
    unfold promise_then. simpl.
    rewrite lookup_app_l by (rewrite length_app; simpl; lia).
    rewrite lookup_app_l by lia. rewrite Hl.
    rewrite length_app. simpl. rewrite Nat.add_1_r, <- app_assoc. done. }
  set (reg :=
    {| heap := heap st ++ [CObject (emptyObject (VObj ObjectPrototype));
                           CWrapper {| turbopackQueues := QueuesPrivate qn;
                                       turbopackExports := VObj n;
                                       turbopackError := VUndefined |};
                           CGetResult [S n];
                           CPromise Pending [] None];
       arrays := arrays st; modules := modules st;
       queues := queues st ++ [{| resolved := false; entries := [fn] |}];
       fns := fns st ++ [{| queueCount := 1; fn_promise := n + 3;
                            fn_getResult := n + 2 |}];
       sets := <[inst_depQueues instj := setj ++ [qn]]> (sets st);
       instances := instances st;
       jobs := [(ReactWrapDep (S n) qn, Fulfilled res)];
       called := called st |}).
  unfold alloc. cbn -[register_deps].
  match goal with
  | |- context [register_deps ?a ?b ?c ?d ?s] =>
      set (s4 := s); set (registered := register_deps a b c d s4)
  end.
  assert (registered = reg) as ->.
  { unfold registered, register_deps. cbn [foldl].
    assert (ext_of s4 (S n)
            = Some {| turbopackQueues := QueuesPrivate qn; turbopackExports := VObj n;
                      turbopackError := VUndefined |}) as ->.
    { unfold ext_of, s4. simpl. rewrite <- !app_assoc. simpl.
      replace (S n) with (length (heap st) + 1) by (unfold n; lia).
      by rewrite lookup_app_add. }
    cbn [call_turbopackQueues turbopackQueues]. unfold fnQueue.
    assert (sets s4 !! inst_depQueues instj = Some setj) as -> by exact Hsetj.
    rewrite bool_decide_true
      by (intros Heq; symmetry in Heq; apply Hown in Heq; unfold qn in Heq; lia).
    rewrite (bool_decide_false (qn ∈ setj))
      by (intros Hin; apply Hbound in Hin; unfold qn in Hin; lia).
    cbn [andb negb]. cbn [queues with_sets].
    assert (queues s4 !! qn = Some {| resolved := false; entries := [] |}) as ->.
    { unfold s4. simpl. apply lookup_snoc. }
    cbn [resolved negb]. unfold update_queue, update_fn, s4, reg.
    apply State_ext; simpl; try done.
    - by rewrite <- !app_assoc.
    - unfold qn. replace (length (queues st)) with (length (queues st) + 0) at 1 by lia.
      by rewrite alter_app_r.
    - unfold fn. replace (length (fns st)) with (length (fns st) + 0) at 1 by lia.
      rewrite alter_app_r. simpl. rewrite !length_app. simpl.
      unfold set_queueCount. simpl. do 3 f_equal. unfold n. lia.
    - by rewrite Hjobs. }
  assert (fn_count reg (length (fns st)) = 1%Z) as ->.
  { unfold fn_count, reg. simpl. by rewrite lookup_snoc. }
  change (negb (1 =? 0)%Z) with true. cbn iota.
  match goal with
  | |- context [VObj (length ?h)] =>
      assert (length h = n + 3) as -> by (rewrite !length_app; simpl; unfold n; lia)
  end.
  exists reg. split; [done|].
  assert (heap reg !! (n + 3) = Some (CPromise Pending [] None)) as Hpromise
    by (unfold reg, n; cbn [heap]; by rewrite lookup_app_add).
  assert (heap reg !! (n + 2) = Some (CGetResult [S n])) as HgetResult
    by (unfold reg, n; cbn [heap]; by rewrite lookup_app_add).
  assert (heap reg !! S n
          = Some (CWrapper {| turbopackQueues := QueuesPrivate qn;
                              turbopackExports := VObj n;
                              turbopackError := VUndefined |})) as Hwrapper.
  { replace (S n) with (n + 1) at 1 by lia.
    unfold reg, n; cbn [heap]; by rewrite lookup_app_add. }
  split; [exact Hpromise|]. cbv zeta.
  set (A := set_ext (S n) (set_turbopackExports res) (with_jobs [] reg)).
  assert (run_job reg = resolveQueue (Some qn) A) as -> by done.
  destruct (set_ext_resolver (S n) (set_turbopackExports res) (with_jobs [] reg))
    as (HqA & HfA & _ & _).
  destruct (resolveQueue_fires_single A qn fn (n + 3) (n + 2) [] None) as [Hfired _].
  { unfold A. rewrite HqA. simpl. apply lookup_snoc. }
  { unfold A. rewrite HfA. simpl. apply lookup_snoc. }
  { unfold A. rewrite heap_set_ext_ne by lia. exact Hpromise. }
  split; [exact Hfired|].
  rewrite (heap_resolveQueue_other (Some qn) A (n + 2) (CGetResult [S n])); [| |done].
  2:{ unfold A. rewrite heap_set_ext_ne by lia. exact HgetResult. }
  unfold getResult, bind, query, allocCell, alloc, ret. cbn [getResult_map].
  rewrite ext_of_resolveQueue.
  unfold A.
  rewrite (ext_of_set_ext_wrapper (with_jobs [] reg) (S n) _
             (set_turbopackExports res) Hwrapper).
  simpl.
  eexists _, _. split; [reflexivity|]. simpl. apply lookup_snoc.
Qed.

Lemma settled_promise_dependency_witness :
  ∃ st1,
    handleAsyncDependencies 1 [VObj 7] async_promise_fulfilled
    = Some (Normal (VObj 15), st1) ∧
    heap (run_job st1) !! 15 = Some (CPromise (Fulfilled (VObj 14)) [] None) ∧
    ∃ a st3,
      call_getResult (VObj 14) (run_job st1) = Some (Normal (VObj a), st3) ∧
      heap st3 !! a = Some (CArray [VNum 5]).
Proof.
  destruct (settled_promise_dependency async_promise_fulfilled 1
              {| inst_queue := Some 1; inst_depQueues := 1; inst_promise := 11;
                 inst_exports := VObj 10; inst_running := true |}
              7 (VNum 5) [] [])
    as (st1 & Hrun & _ & Hfulfilled & a & st3 & Hcall & Harray).
  - vm_compute; reflexivity.
  - vm_compute; reflexivity.
  - vm_compute; reflexivity.
  - intros q Hq. by apply elem_of_nil in Hq.
  - intros q [= <-]. vm_compute. lia.
  - vm_compute; reflexivity.
  - exists st1. split; [exact Hrun|]. split; [exact Hfulfilled|].
    exists a, st3. split; [exact Hcall|exact Harray].
Defined.

(** ** Importing CommonJS exports *)

Lemma interopEsm_heap_other fuel raw ns o allow st c st' l :
  heap st !! ns = Some (CObject o) →
  interopEsm fuel raw (VObj ns) allow st = Some (c, st') →
  l ≠ ns →
  heap st' !! l = heap st !! l.
Proof.
  intros Hns Hrun Hne. unfold interopEsm, bind, query in Hrun.
  destruct (interopEsm_loop fuel st raw raw []) as [[getters|e]|]; simplify_eq;
    [|done].
  match type of Hrun with
  | context [esm fuel (VObj ns) ?gs st] =>
      destruct (esm_object fuel st ns o gs Hns) as (st'' & Hesm & Hheap);
      rewrite Hesm in Hrun
  end.
  unfold ret in Hrun. simplify_eq. rewrite Hheap. by rewrite list_lookup_insert_ne.
Qed.

(** X21.  Importing as a namespace a module without a namespace whose
    exports are a plain object: the flag read as [raw.__esModule]
    decides what [default] is.  With a truthy flag and an own [default]
    on the exports, the namespace's [default] reads [raw.default];
    otherwise it is the exports object itself.  The exports object is
    left as it was. *)
Theorem esmImport_commonjs_default fuel sourceModule id st m r o flag :
  modules st !! id = Some m →
  truthy (error m) = false →
  truthy (namespaceObject m) = false →
  exports m = VObj r →
  heap st !! r = Some (CObject o) →
  proto o = VObj ObjectPrototype →
  VObj r ∉ LEAF_PROTOTYPES →
  Reflect_get fuel st (VObj r) (KStr "__esModule") = Some (Normal flag) →
  (1 ≤ fuel)%nat →
  let ns := length (heap st) in
  ∃ st',
    esmImport fuel sourceModule id st = Some (Normal (VObj ns), st') ∧
    (namespaceObject <$> modules st' !! id) = Some (VObj ns) ∧
    heap st' !! r = Some (CObject o) ∧
    if truthy flag && chain_owns [CObject o] "default"
    then ∀ n, Reflect_get (S n) st' (VObj ns) (KStr "default")
              = Reflect_get n st' (VObj r) (KStr "default")
    else ∀ n, Reflect_get n st' (VObj ns) (KStr "default") = Some (Normal (VObj r)).
Proof.
  intros Hm Herr Hnone Hex Hr Hproto Hleaf Hflag Hfuel ns.
  assert (r < ns) as Hlt by (by eapply lookup_lt_Some).
  set (st1 := (alloc (CObject (emptyObject (VObj ObjectPrototype))) st).2).
  assert (heap st1 !! ns = Some (CObject (emptyObject (VObj ObjectPrototype)))) as Hns.
  { unfold st1, ns. simpl. apply lookup_snoc. }
  assert (heap st1 !! r = Some (CObject o)) as Hr1.
  { unfold st1. simpl. by apply lookup_snoc_Some. }
  assert (prototype_chain st1 (VObj r) [CObject o]) as Hchain.
  { eapply chain_level; [done|exact Hr1|done|].
    apply chain_end. simpl. rewrite Hproto. intros l _. by_compute. }
  destruct (interopEsm_object fuel st1 (VObj r) ns _ flag [CObject o]
              Hns eq_refl Hchain Hfuel)
    as (collected & st2 & o' & _ & [_ Hall] & Hkeys & Hrun & Hns2 & Hlook).
  assert (heap st2 !! r = Some (CObject o)) as Hr2.
  { rewrite (interopEsm_heap_other _ _ _ _ _ _ _ _ r Hns Hrun) by lia. exact Hr1. }
  assert (modules st2 = modules st) as Hmods.
  { by destruct (interopEsm_frame _ _ _ _ _ _ _ Hrun) as (-> & _). }
  exists (with_modules (<[id := set_namespaceObject (VObj ns) m]> (modules st2)) st2).
  split; [|split; [|split]].
  - unfold esmImport, bind, getOrInstantiateModuleFromParent, getModule.
    rewrite Hm. cbn beta iota. rewrite Hm. cbn beta iota. rewrite Herr, Hnone.
    unfold exports_of. rewrite Hex. unfold raw_esModule. cbn [truthy].
    unfold query. rewrite Hflag. unfold allocCell, alloc. cbn beta iota.
    fold ns. change (with_heap _ st) with st1. rewrite Hrun.
    assert (modules st2 !! id = Some m) as -> by (by rewrite Hmods).
    done.
  - simpl. by rewrite lookup_insert_eq.
  - exact Hr2.
  - specialize (Hlook "default" ltac:(done)).
    rewrite (has_getter_chain_owns collected [CObject o] "default" Hkeys) in Hlook.
    destruct (truthy flag && chain_owns [CObject o] "default") eqn:Hb; simpl in Hlook.
    + apply andb_true_iff in Hb as [_ Hown].
      apply chain_owns_spec in Hown.
      assert ("default" ∈ collected.*1) as Hin by (by apply Hkeys).
      destruct (lookup_getter_Forall _ "default" collected Hin Hall) as (g & Hg & Hgeq).
      simpl in Hgeq. subst g. rewrite Hg in Hlook. simpl in Hlook.
      intros n. by eapply Reflect_get_create_getter.
    + rewrite lookup_set_getter_eq in Hlook. simpl in Hlook.
      intros n. by eapply Reflect_get_raw_getter.
Qed.

Lemma esmImport_commonjs_default_witness :
  (∃ st', esmImport 1 "importer" "dep" esmodule_state = Some (Normal (VObj 6), st') ∧
          Reflect_get 1 st' (VObj 6) (KStr "default") = Some (Normal (VNum 7))) ∧
  (∃ st', esmImport 1 "importer" "dep" cjs_state = Some (Normal (VObj 7), st') ∧
          Reflect_get 1 st' (VObj 7) (KStr "default") = Some (Normal (VObj 5))).
Proof.
  split.
  - destruct (esmImport_commonjs_default 1 "importer" "dep" esmodule_state
                (mkModule "dep" (VObj 5)) 5
                {| proto := VObj ObjectPrototype; callable := false;
                   props := [(KStr "__esModule", DataProp (VBool true) false);
                             (KStr "default", DataProp (VNum 7) true)] |}
                (VBool true))
      as (st' & Hrun & _ & Hraw & Hdefault).
    + vm_compute; reflexivity.
    + reflexivity.
    + reflexivity.
    + reflexivity.
    + reflexivity.
    + reflexivity.
    + by_compute.
    + reflexivity.
    + lia.
    + exists st'. split; [exact Hrun|].
      etrans; [exact (Hdefault 0)|]. cbn [Reflect_get]. rewrite Hraw. reflexivity.
  - destruct (esmImport_commonjs_default 1 "importer" "dep" cjs_state
                (mkModule "dep" (VObj 5)) 5
                {| proto := VObj ObjectPrototype; callable := false;
                   props := [(KStr "a", DataProp (VNum 1) true)] |}
                VUndefined)
      as (st' & Hrun & _ & _ & Hdefault).
    + vm_compute; reflexivity.
    + reflexivity.
    + reflexivity.
    + reflexivity.
    + reflexivity.
    + reflexivity.
    + by_compute.
    + reflexivity.
    + lia.
    + exists st'. split; [exact Hrun|]. exact (Hdefault 1).
Defined.

(** ** Resolver: waiting for an async module *)

(** X22.  An activation waits for an async module that has returned
    from its body and has not completed, and that nothing else waits
    for: [handleAsyncDependencies] returns a pending promise; when the
    module then calls [asyncResult], that promise is fulfilled with the
    result function; calling it yields an array holding the module's
    exports when [err] was falsy, and raises [err] when it was truthy. *)
Theorem module_dependency_completes
    st i inst q e rs depQueues j instj setj err :
  instances st !! i = Some inst →
  inst_queue inst = Some q →
  queues st !! q = Some {| resolved := false; entries := [] |} →
  heap st !! inst_promise inst = Some (CPromise Pending rs (Some e)) →
  turbopackQueues e = QueuesModule (Some q) depQueues →
  truthy (turbopackError e) = false →
  sets st !! depQueues = Some [] →
  instances st !! j = Some instj →
  inst_queue instj ≠ Some q →
  sets st !! inst_depQueues instj = Some setj →
  q ∉ setj →
  depQueues ≠ inst_depQueues instj →
  let n := length (heap st) in
  ∃ st1,
    handleAsyncDependencies j [VObj (inst_promise inst)] st
    = Some (Normal (VObj (n + 1)), st1) ∧
    heap st1 !! (n + 1) = Some (CPromise Pending [] None) ∧
    ∃ st2,
      asyncResult i err st1 = Some (Normal tt, st2) ∧
      heap st2 !! (n + 1) = Some (CPromise (Fulfilled (VObj n)) [] None) ∧
      if truthy err
      then call_getResult (VObj n) st2 = Some (Throw (Thrown err), st2)
      else ∃ a st3,
             call_getResult (VObj n) st2 = Some (Normal (VObj a), st3) ∧
             heap st3 !! a = Some (CArray [turbopackExports e]).
Proof.
  intros Hi Hq Hqueue Hp Hqf Herr0 Hdep Hj Hqj Hsetj Hnotin Hne n.
  set (p := inst_promise inst) in *.
  set (fn := length (fns st)).
  assert (p < n) as Hlt by (by eapply lookup_lt_Some).
  assert (q < length (queues st)) as Hqlt by (by eapply lookup_lt_Some).
  assert (ext_of st p = Some e) as Hext by (unfold ext_of; by rewrite Hp).
  unfold handleAsyncDependencies. rewrite Hj.
  unfold handleAsyncDependencies_setup. cbn [wrapDeps].
  assert (wrapDep (VObj p) st = (p, st)) as ->.
  { unfold wrapDep, isAsyncModuleExt.
    rewrite bool_decide_true by (by apply (typeof_handle st p e)).
    by rewrite Hext. }
  set (reg :=
    {| heap := heap st ++ [CGetResult [p]; CPromise Pending [] None];
       arrays := arrays st; modules := modules st;
       queues := <[q := {| resolved := false; entries := [fn] |}]> (queues st);
       fns := fns st ++ [{| queueCount := 1; fn_promise := n + 1; fn_getResult := n |}];
       sets := <[inst_depQueues instj := setj ++ [q]]> (sets st);
       instances := instances st;
       jobs := jobs st;
       called := called st |}).
  unfold alloc. cbn -[register_deps].
  match goal with
  | |- context [register_deps ?a ?b ?c ?d ?s] =>
      set (s4 := s); set (registered := register_deps a b c d s4)
  end.
  assert (registered = reg) as ->.
  { unfold registered, register_deps. cbn [foldl].
    assert (ext_of s4 p = Some e) as ->.
    { unfold ext_of, s4. simpl. rewrite <- !app_assoc.
      rewrite lookup_app_l by lia. by rewrite Hp. }
    rewrite Hqf. cbn [call_turbopackQueues].
    set (s5 := fnQueue (inst_queue instj) (inst_depQueues instj)
                 (length (fns st)) q s4).
    assert (s5 = reg) as ->.
    { unfold s5, fnQueue.
      assert (sets s4 !! inst_depQueues instj = Some setj) as -> by exact Hsetj.
      rewrite bool_decide_true by congruence.
      rewrite (bool_decide_false (q ∈ setj)) by done.
      cbn [andb negb]. cbn [queues with_sets].
      assert (queues s4 !! q = Some {| resolved := false; entries := [] |}) as ->
        by exact Hqueue.
      cbn [resolved negb]. unfold update_queue, update_fn, s4, reg.
      apply State_ext; simpl; try done.
      - by rewrite <- !app_assoc.
      - apply list_eq. intros k. destruct (decide (k = q)) as [->|Hk].
        + rewrite list_lookup_alter_eq, list_lookup_insert_eq, Hqueue by done. done.
        + by rewrite list_lookup_alter_ne, list_lookup_insert_ne.
      - replace (length (fns st)) with (length (fns st) + 0) at 1 by lia.
        rewrite alter_app_r. simpl. rewrite !length_app. simpl.
        unfold set_queueCount. simpl. do 3 f_equal; try (unfold n; lia). }
    assert (sets reg !! depQueues = Some []) as ->.
    { unfold reg. simpl. by rewrite list_lookup_insert_ne. }
    done. }
  assert (fn_count reg (length (fns st)) = 1%Z) as ->.
  { unfold fn_count, reg. simpl. by rewrite lookup_snoc. }
  change (negb (1 =? 0)%Z) with true. cbn iota.
  match goal with
  | |- context [VObj (length ?h)] =>
      assert (length h = n + 1) as -> by (rewrite !length_app; simpl; unfold n; lia)
  end.
  exists reg. split; [done|].
  assert (heap reg !! (n + 1) = Some (CPromise Pending [] None)) as Hpromise
    by (unfold reg, n; cbn [heap]; by rewrite lookup_app_add).
  assert (heap reg !! n = Some (CGetResult [p])) as HgetResult.
  { replace n with (n + 0) at 1 by lia.
    unfold reg, n; cbn [heap]; by rewrite lookup_app_add. }
  assert (heap reg !! p = Some (CPromise Pending rs (Some e))) as Hp'.
  { unfold reg. cbn [heap]. rewrite lookup_app_l by lia. exact Hp. }
  split; [exact Hpromise|].
  set (s1 := if truthy err
             then settlePromise p (Rejected err) (set_ext p (set_turbopackError err) reg)
             else settlePromise p (Fulfilled (inst_exports inst)) reg).
  exists (resolveQueue (Some q) s1). split.
  { unfold asyncResult.
    assert (instances reg !! i = Some inst) as -> by exact Hi.
    fold p. fold s1. by rewrite Hq. }
  assert (same_resolver reg s1) as (Hqs1 & Hfns1 & _ & _).
  { unfold s1. destruct (truthy err).
    - eapply same_resolver_trans; [apply set_ext_resolver|apply settlePromise_resolver].
    - apply settlePromise_resolver. }
  assert (∀ d c, d ≠ p → heap reg !! d = Some c → heap s1 !! d = Some c) as Hs1.
  { intros d c Hd Hc. unfold s1.
    assert (∀ o0 s0, heap s0 !! d = Some c →
                     heap (settlePromise p o0 s0) !! d = Some c) as Hsettle.
    { intros o0 s0 Hc0. unfold settlePromise.
      destruct (heap s0 !! p) as [[| |[] rs0 ext0| | |]|]; try done.
      simpl. by rewrite list_lookup_insert_ne. }
    destruct (truthy err); apply Hsettle.
    - by rewrite heap_set_ext_ne.
    - done. }
  destruct (resolveQueue_fires_single s1 q fn (n + 1) n [] None) as [Hfired _].
  { rewrite Hqs1. unfold reg. simpl. by apply list_lookup_insert_eq. }
  { rewrite Hfns1. unfold reg. simpl. apply lookup_snoc. }
  { apply Hs1; [lia|exact Hpromise]. }
  split; [exact Hfired|].
  assert (heap (resolveQueue (Some q) s1) !! n = Some (CGetResult [p])) as Hg.
  { apply heap_resolveQueue_other; [|done].
    apply Hs1; [lia|exact HgetResult]. }
  assert (ext_of s1 p
          = Some (if truthy err then set_turbopackError err e else e)) as Hext1.
  { unfold s1. destruct (truthy err); rewrite ext_of_settlePromise.
    - by apply (ext_of_set_ext_promise reg p Pending rs e).
    - unfold ext_of. by rewrite Hp'. }
  unfold call_getResult. rewrite Hg.
  unfold getResult, bind, query, allocCell, alloc, ret. cbn [getResult_map].
  rewrite ext_of_resolveQueue, Hext1.
  destruct (truthy err) eqn:Herr.
  - cbn [turbopackError set_turbopackError]. by rewrite Herr.
  - rewrite Herr0. eexists _, _. split; [reflexivity|]. simpl. apply lookup_snoc.
Qed.

Lemma module_dependency_completes_witness :
  ∃ st1,
    handleAsyncDependencies 1 [VObj 9] async_started = Some (Normal (VObj 13), st1) ∧
    ∃ st2,
      asyncResult 0 VUndefined st1 = Some (Normal tt, st2) ∧
      heap st2 !! 13 = Some (CPromise (Fulfilled (VObj 12)) [] None) ∧
      ∃ a st3,
        call_getResult (VObj 12) st2 = Some (Normal (VObj a), st3) ∧
        heap st3 !! a = Some (CArray [VObj 8]).
Proof.
  destruct (module_dependency_completes async_started 0
              {| inst_queue := Some 0; inst_depQueues := 0; inst_promise := 9;
                 inst_exports := VObj 8; inst_running := false |}
              0
              {| turbopackQueues := QueuesModule (Some 0) 0;
                 turbopackExports := VObj 8; turbopackError := VUndefined |}
              [] 0 1
              {| inst_queue := Some 1; inst_depQueues := 1; inst_promise := 11;
                 inst_exports := VObj 10; inst_running := true |}
              [] VUndefined)
    as (st1 & Hrun & _ & st2 & Hresult & Hfulfilled & a & st3 & Hcall & Harray).
  - reflexivity.
  - reflexivity.
  - reflexivity.
  - reflexivity.
  - reflexivity.
  - reflexivity.
  - reflexivity.
  - reflexivity.
  - discriminate.
  - reflexivity.
  - apply not_elem_of_nil.
  - discriminate.
  - exists st1. split; [exact Hrun|]. exists st2. split; [exact Hresult|].
    split; [exact Hfulfilled|]. exists a, st3. split; [exact Hcall|exact Harray].
Defined.

(** ** Registering further sources *)

(** X23.  Once a module has its dynamic view, a dynamic re-export of an
    object only appends the object to the module's list of sources: the
    module record, and with it the identity of its exports and
    namespace, and the heap stay as they are, whatever [exports] is
    passed, and the sources registered before keep their places. *)
Theorem dynamicExport_appends module exports R st m a objs :
  modules st !! module = Some m →
  REEXPORTED_OBJECTS m = Some a →
  arrays st !! a = Some objs →
  is_object st R = true →
  ∃ st',
    dynamicExport module exports R st = Some (Normal tt, st') ∧
    heap st' = heap st ∧
    modules st' = modules st ∧
    reexported_of st' module = Some (objs ++ [R]) ∧
    ∀ a', a' ≠ a → arrays st' !! a' = arrays st !! a'.
Proof.
  intros Hm Hre Ha HR.
  destruct (dynamicExport_next module exports R st m a objs Hm Hre Ha HR)
    as (st' & Hrun & Hheap & Hmods & Harrays).
  exists st'. split; [done|]. split; [done|]. split; [done|]. split.
  - unfold reexported_of. rewrite Hmods, Hm. simpl. rewrite Hre. simpl.
    rewrite Harrays. apply list_lookup_insert_eq. by eapply lookup_lt_Some.
  - intros a' Hne. rewrite Harrays. by rewrite list_lookup_insert_ne.
Qed.

Lemma dynamicExport_appends_witness :
  ∃ st',
    dynamicExport "m" VUndefined (VObj 7) view_state_1 = Some (Normal tt, st') ∧
    modules st' = modules view_state_1 ∧
    reexported_of st' "m" = Some [VObj 6; VObj 7].
Proof.
  destruct (dynamicExport_appends "m" VUndefined (VObj 7) view_state_1
              {| exports := VObj 8; error := VUndefined; loaded := false;
                 module_id := "m"; children := []; parents := [];
                 namespaceObject := VObj 8; REEXPORTED_OBJECTS := Some 0 |}
              0 [VObj 6])
    as (st' & Hrun & _ & Hmods & Hsources & _).
  - vm_compute; reflexivity.
  - reflexivity.
  - vm_compute; reflexivity.
  - vm_compute; reflexivity.
  - exists st'. split; [exact Hrun|]. split; [exact Hmods|exact Hsources].
Defined.
